(** * Dpana Hub download engine: a shallow embedding and its properties

    The development follows the TypeScript sources module by module:
    SessionManager, partialIntegrity, EventBus, CircuitBreakerManager,
    QueueProcessor, rateLimiter, schemas, downloadPath and ChunkManager.
    JavaScript numbers that hold identifiers, sizes, counters and
    millisecond timestamps are integers of [Z]; [Map] objects are finite
    maps of stdpp (or insertion-ordered association lists where the
    iteration order is observable); [Date.now()], [Math.random()] and the
    platform libraries are inputs of the functions that read them. *)

From Stdlib Require Import ZArith QArith List Bool Ascii String Lia.
From stdpp Require Import base option list gmap strings pretty sorting.

Set Warnings "-register-all".

Local Open Scope string_scope.
Local Open Scope Z_scope.

(** ** Decimal numerals in template literals

    [`${n}-${rest}`] prints an integer in decimal and a dash after it; the
    lemmas below say where such a string can be cut. *)

Module Decimal.

Definition isDigit (c : ascii) : bool :=
  let n := nat_of_ascii c in ((48 <=? n) && (n <=? 57))%nat.

Fixpoint allDigits (s : string) : bool :=
  match s with
  | EmptyString => true
  | String c rest => isDigit c && allDigits rest
  end.

Lemma string_app_cons c s t : String c s ++ t = String c (s ++ t).
Proof. reflexivity. Qed.

Lemma string_app_assoc s1 s2 s3 : (s1 ++ s2) ++ s3 = s1 ++ s2 ++ s3.
Proof.
  induction s1 as [|c s1 IH]; [reflexivity|].
  by rewrite !string_app_cons, IH.
Qed.

Lemma allDigits_app s1 s2 :
  allDigits (s1 ++ s2) = allDigits s1 && allDigits s2.
Proof.
  induction s1 as [|c s1 IH]; [reflexivity|].
  rewrite string_app_cons. cbn [allDigits]. by rewrite IH, andb_assoc.
Qed.

Lemma pretty_N_char_digit x : isDigit (pretty_N_char x) = true.
Proof. unfold pretty_N_char. by repeat case_match. Qed.

Lemma pretty_N_go_digits x : ∀ s,
  ∃ ds, pretty_N_go x s = ds ++ s ∧ allDigits ds = true.
Proof.
  induction (N.lt_wf_0 x) as [x _ IH]; intros s.
  assert (x = 0 ∨ 0 < x)%N as [->|Hpos] by lia.
  - exists "". by rewrite pretty_N_go_0.
  - rewrite pretty_N_go_step by done.
    destruct (IH (x `div` 10)%N (N.div_lt x 10 Hpos eq_refl)
                (String (pretty_N_char (x `mod` 10)) s)) as (ds & Heq & Hds).
    exists (ds ++ String (pretty_N_char (x `mod` 10)) "").
    split.
    + rewrite Heq. by rewrite string_app_assoc.
    + rewrite allDigits_app, Hds. cbn [allDigits andb].
      by rewrite pretty_N_char_digit.
Qed.

Lemma pretty_nonneg_digits (z : Z) : 0 ≤ z → allDigits (pretty z) = true.
Proof.
  intros Hz. destruct z as [|p|p]; [done | | lia].
  unfold pretty, pretty_Z, pretty, pretty_positive, pretty, pretty_N.
  destruct (decide (N.pos p = 0%N)); [done|].
  destruct (pretty_N_go_digits (N.pos p) "") as (ds & Heq & Hds).
  rewrite Heq. by rewrite allDigits_app, Hds.
Qed.

Lemma prefix_app_l s rest : String.prefix s (s ++ rest) = true.
Proof.
  induction s as [|c s IH]; [by destruct rest|].
  rewrite string_app_cons. cbn [String.prefix].
  by destruct (ascii_dec c c).
Qed.

Lemma prefix_digits_dash D : ∀ D' rest,
  allDigits D = true → allDigits D' = true →
  String.prefix (D ++ "-") (D' ++ "-" ++ rest) = true → D = D'.
Proof.
  induction D as [|c D IH]; intros D' rest HD HD' Hpre.
  - destruct D' as [|c' D']; [done|]. rewrite string_app_cons in Hpre.
    change ("" ++ "-") with "-" in Hpre. cbn [String.prefix] in Hpre.
    cbn [allDigits] in HD'. apply andb_true_iff in HD' as [Hc _].
    destruct (ascii_dec "-" c') as [<-|]; [discriminate | done].
  - cbn [allDigits] in HD. apply andb_true_iff in HD as [Hc HD].
    rewrite string_app_cons in Hpre.
    destruct D' as [|c' D'].
    + change ("" ++ "-" ++ rest) with (String "-" rest) in Hpre.
      cbn [String.prefix] in Hpre.
      destruct (ascii_dec c "-") as [->|]; [discriminate | done].
    + rewrite string_app_cons in Hpre. cbn [String.prefix] in Hpre.
      cbn [allDigits] in HD'. apply andb_true_iff in HD' as [_ HD'].
      destruct (ascii_dec c c') as [<-|]; [|done].
      f_equal. by eapply IH.
Qed.

Lemma string_app_inv_l s : ∀ t t', s ++ t = s ++ t' → t = t'.
Proof.
  induction s as [|c s IH]; intros t t' Heq; [done|].
  rewrite !string_app_cons in Heq. injection Heq as Heq. by apply IH.
Qed.

(** A numeral followed by a dash determines the numeral and what comes
    after the dash. *)
Lemma digits_dash_inj D D' rest rest' :
  allDigits D = true → allDigits D' = true →
  D ++ "-" ++ rest = D' ++ "-" ++ rest' → D = D' ∧ rest = rest'.
Proof.
  intros HD HD' Heq.
  assert (D = D') as <-.
  { apply (prefix_digits_dash D D' rest' HD HD'). rewrite <- Heq.
    rewrite <- string_app_assoc. apply prefix_app_l. }
  split; [done|]. by apply string_app_inv_l, string_app_inv_l in Heq.
Qed.

(** The numeral of a positive integer is a non-empty run of digits. *)
Lemma pretty_pos_digits (p : positive) :
  ∃ c ds, pretty (Z.pos p) = String c ds ∧ allDigits (String c ds) = true.
Proof.
  pose proof (pretty_nonneg_digits (Z.pos p)) as Hds.
  destruct (pretty (Z.pos p)) as [|c ds] eqn:Hp; [|exists c, ds; split; [done | apply Hds; lia]].
  exfalso. revert Hp.
  unfold pretty, pretty_Z, pretty, pretty_positive, pretty, pretty_N.
  destruct (decide (N.pos p = 0%N)); [done|].
  rewrite pretty_N_go_step by lia.
  destruct (pretty_N_go_digits (N.pos p `div` 10)
              (String (pretty_N_char (N.pos p `mod` 10)) "")) as (ds' & -> & _).
  by destruct ds'.
Qed.

(** The numeral of any integer: an optional minus sign, then digits. *)
Lemma pretty_Z_shape (z : Z) :
  ∃ c ds, allDigits (String c ds) = true
          ∧ pretty z = if bool_decide (z < 0) then String "-" (String c ds)
                       else String c ds.
Proof.
  destruct z as [|p|p].
  - by exists "0"%char, "".
  - destruct (pretty_pos_digits p) as (c & ds & Hp & Hds).
    exists c, ds. split; [done|]. by rewrite bool_decide_eq_false_2 by lia.
  - destruct (pretty_pos_digits p) as (c & ds & Hp & Hds).
    exists c, ds. split; [done|]. rewrite bool_decide_eq_true_2 by lia.
    change (pretty (Z.neg p)) with ("-" ++ pretty (Z.pos p)). by rewrite Hp.
Qed.

(** [`${n}-${rest}`] determines [n] and [rest], whatever the sign of [n]. *)
Lemma numeral_dash_inj (n n' : Z) rest rest' :
  pretty n ++ "-" ++ rest = pretty n' ++ "-" ++ rest' → n = n' ∧ rest = rest'.
Proof.
  intros Heq.
  cut (pretty n = pretty n' ∧ rest = rest').
  { intros [Hn Hr]. split; [by apply (inj pretty) | done]. }
  destruct (pretty_Z_shape n) as (c & ds & Hds & Hn).
  destruct (pretty_Z_shape n') as (c' & ds' & Hds' & Hn').
  rewrite Hn, Hn' in Heq |- *.
  destruct (bool_decide (n < 0)), (bool_decide (n' < 0)).
  - rewrite !string_app_cons in Heq. injection Heq as -> Heq.
    cbn [allDigits] in Hds, Hds'.
    apply andb_true_iff in Hds as [_ Hds]. apply andb_true_iff in Hds' as [_ Hds'].
    destruct (digits_dash_inj ds ds' rest rest' Hds Hds' Heq) as [-> ->]. done.
  - rewrite !string_app_cons in Heq. injection Heq as Hc _. subst c'.
    cbn [allDigits] in Hds'. by apply andb_true_iff in Hds' as [? _].
  - rewrite !string_app_cons in Heq. injection Heq as Hc _. subst c.
    cbn [allDigits] in Hds. by apply andb_true_iff in Hds as [? _].
  - by apply digits_dash_inj.
Qed.

End Decimal.

(** ** engines/SessionManager *)

Module SessionManager.

(** [private sessions = new Map<number, string>()] *)
Record t := Build { sessions : gmap Z string }.

Definition empty : t := Build ∅.

(** The template literal of [createSession]: [now] is [Date.now()] and
    [rnd] is [Math.random().toString(36).substring(2, 11)]. *)
Definition sessionToken (now : Z) (rnd : string) : string :=
  pretty now ++ "-" ++ rnd.

Definition createSession (downloadId : Z) (now : Z) (rnd : string) (m : t)
  : string * t :=
  let sessionId := sessionToken now rnd in
  (sessionId, Build (<[downloadId := sessionId]> (sessions m))).

Definition invalidate (downloadId : Z) (m : t) : t :=
  Build (delete downloadId (sessions m)).

(** [this.sessions.get(downloadId) ?? null] *)
Definition getSessionId (m : t) (downloadId : Z) : option string :=
  sessions m !! downloadId.

(** JavaScript truthiness of a [string | null]: [null] and the empty
    string are falsy. *)
Definition truthy (s : option string) : bool :=
  match s with
  | None => false
  | Some EmptyString => false
  | Some (String _ _) => true
  end.

Definition isCurrent (m : t) (downloadId : Z) (sessionId : option string)
  : bool :=
  if negb (truthy sessionId) then true
  else bool_decide (getSessionId m downloadId = sessionId).

(** The calls that change a manager. *)
Inductive call :=
| CreateSession (downloadId now : Z) (rnd : string)
| Invalidate (downloadId : Z).

Definition target (c : call) : Z :=
  match c with
  | CreateSession d _ _ => d
  | Invalidate d => d
  end.

(** [c] is a [createSession] for [d]. *)
Definition creates (d : Z) (c : call) : Prop :=
  match c with
  | CreateSession d' _ _ => d' = d
  | Invalidate _ => False
  end.

Definition step (m : t) (c : call) : t :=
  match c with
  | CreateSession d now rnd => snd (createSession d now rnd m)
  | Invalidate d => invalidate d m
  end.

Definition run (cs : list call) (m : t) : t := fold_left step cs m.

Lemma sessionToken_truthy now rnd : truthy (Some (sessionToken now rnd)) = true.
Proof.
  unfold sessionToken.
  destruct (pretty now) as [|a s] eqn:E; simpl; reflexivity.
Qed.

Lemma step_other m c d :
  target c ≠ d → getSessionId (step m c) d = getSessionId m d.
Proof.
  intros Hne. destruct c as [d' now rnd | d']; simpl in *; unfold getSessionId; simpl.
  - by rewrite lookup_insert_ne.
  - by rewrite lookup_delete_ne.
Qed.

Lemma run_other cs : ∀ m d,
  Forall (λ c, target c ≠ d) cs → getSessionId (run cs m) d = getSessionId m d.
Proof.
  induction cs as [|c cs IH]; intros m d Hall; simpl; [done|].
  inversion Hall; subst. unfold run in IH. rewrite IH; [|done].
  by apply step_other.
Qed.

Lemma isCurrent_after_invalidate m d s :
  truthy (Some s) = true → isCurrent (invalidate d m) d (Some s) = false.
Proof.
  intros Ht. unfold isCurrent. rewrite Ht. simpl.
  unfold getSessionId, invalidate. simpl. rewrite lookup_delete_eq.
  by apply bool_decide_eq_false.
Qed.

Lemma sessionToken_nonempty now rnd : sessionToken now rnd ≠ "".
Proof.
  intros Heq. pose proof (sessionToken_truthy now rnd) as Ht.
  by rewrite Heq in Ht.
Qed.

(** Two tokens are the same string only if they were built from the same
    clock reading and the same random suffix. *)
Lemma sessionToken_inj now rnd now' rnd' :
  sessionToken now rnd = sessionToken now' rnd' → now = now' ∧ rnd = rnd'.
Proof. apply Decimal.numeral_dash_inj. Qed.

Lemma nonempty_truthy s : s ≠ "" → truthy (Some s) = true.
Proof. by destruct s. Qed.

Lemma step_no_session m c d :
  ¬ creates d c → getSessionId m d = None → getSessionId (step m c) d = None.
Proof.
  intros Hc Hnone. destruct c as [d' now rnd | d']; unfold getSessionId in *; simpl in *.
  - by rewrite lookup_insert_ne.
  - destruct (decide (d' = d)) as [->|Hne];
      [apply lookup_delete_eq | by rewrite lookup_delete_ne].
Qed.

Lemma run_no_session cs : ∀ m d,
  Forall (λ c, ¬ creates d c) cs →
  getSessionId m d = None → getSessionId (run cs m) d = None.
Proof.
  induction cs as [|c cs IH]; intros m d Hall Hnone; [done|].
  inversion Hall; subst. cbn [run fold_left]. apply IH; [done|].
  by apply step_no_session.
Qed.

(** After a [createSession] for [d] and calls that leave [d] alone, a
    non-empty token is current exactly when it is the one just issued. *)
Lemma isCurrent_after_createSession m d now rnd cs s :
  s ≠ "" → Forall (λ c, target c ≠ d) cs →
  (isCurrent (run cs (snd (createSession d now rnd m))) d (Some s) = true
   ↔ s = sessionToken now rnd).
Proof.
  intros Hs Hall. unfold isCurrent. rewrite (nonempty_truthy s Hs). cbn [negb].
  rewrite bool_decide_eq_true, run_other by done.
  unfold getSessionId. simpl. rewrite lookup_insert_eq.
  split; [by intros [= ->] | by intros ->].
Qed.

(** C1. The tokens [createSession] issues are never empty, and two of them
    are the same string only when they were built from the same
    [Date.now()] and the same random suffix. After [invalidate(id)] no
    non-empty token, hence no token issued before, is current for [id],
    and this lasts until the next [createSession(id)]. After
    [createSession(id)] returns [s], a non-empty token is current for [id]
    exactly when it is [s], until the next [createSession] or [invalidate]
    for [id]. So when a download is resumed after a pause, the token of the
    paused run is rejected and the new one accepted, unless the new
    session drew the very same clock reading and random suffix. *)
Theorem C1_stale_token_rejected_fresh_token_current :
  (∀ now rnd, sessionToken now rnd ≠ "")
  ∧ (∀ now rnd now' rnd',
       sessionToken now rnd = sessionToken now' rnd' ↔ now = now' ∧ rnd = rnd')
  ∧ (∀ m d s cs,
       s ≠ "" → Forall (λ c, ¬ creates d c) cs →
       isCurrent (run cs (invalidate d m)) d (Some s) = false)
  ∧ (∀ m d now rnd cs t,
       t ≠ "" → Forall (λ c, target c ≠ d) cs →
       let '(s, m1) := createSession d now rnd m in
       isCurrent (run cs m1) d (Some s) = true
       ∧ (isCurrent (run cs m1) d (Some t) = true ↔ t = s))
  ∧ (∀ m d now0 rnd0 before between now rnd after,
       (now0, rnd0) ≠ (now, rnd) → Forall (λ c, target c ≠ d) after →
       let '(s0, m0) := createSession d now0 rnd0 m in
       let paused := invalidate d (run before m0) in
       let '(s, m1) := createSession d now rnd (run between paused) in
       s0 ≠ s
       ∧ isCurrent (run after m1) d (Some s0) = false
       ∧ isCurrent (run after m1) d (Some s) = true).
Proof.
  split; [apply sessionToken_nonempty|].
  split; [intros; split; [apply sessionToken_inj | by intros [-> ->]]|].
  split; [|split].
  - intros m d s cs Hs Hall. unfold isCurrent.
    rewrite (nonempty_truthy s Hs). cbn [negb].
    apply bool_decide_eq_false. rewrite run_no_session; [done | done |].
    unfold getSessionId, invalidate. simpl. apply lookup_delete_eq.
  - intros m d now rnd cs t Ht Hall. cbn [createSession].
    pose proof (isCurrent_after_createSession m d now rnd cs) as Hiff.
    cbn [createSession snd] in Hiff. split.
    + by apply (Hiff _ (sessionToken_nonempty now rnd) Hall).
    + by apply Hiff.
  - intros m d now0 rnd0 before between now rnd after Hne Hall. cbn [createSession].
    set (paused := invalidate d _).
    pose proof (isCurrent_after_createSession (run between paused) d now rnd after)
      as Hiff.
    cbn [createSession snd] in Hiff.
    assert (sessionToken now0 rnd0 ≠ sessionToken now rnd) as Hfresh.
    { intros Heq. apply sessionToken_inj in Heq as [-> ->]. done. }
    split; [done|]. split.
    + apply not_true_is_false. intros Hcur.
      by apply (Hiff _ (sessionToken_nonempty now0 rnd0) Hall) in Hcur.
    + by apply (Hiff _ (sessionToken_nonempty now rnd) Hall).
Qed.

Lemma C1_witness :
  isCurrent (run [CreateSession 8 1700000000500 "q1w2e3r4t"; Invalidate 7]
               (invalidate 7 (snd (createSession 7 1700000000000 "k3j2h1g0f" empty))))
    7 (Some "1700000000000-k3j2h1g0f") = false
  ∧ (let '(s, m1) := createSession 7 1700000000000 "k3j2h1g0f" empty in
     isCurrent (run [CreateSession 8 1700000000500 "q1w2e3r4t"; Invalidate 9] m1)
       7 (Some s) = true
     ∧ (isCurrent (run [CreateSession 8 1700000000500 "q1w2e3r4t"; Invalidate 9] m1)
          7 (Some "1700000000000-k3j2h1g0e") = true
        ↔ "1700000000000-k3j2h1g0e" = s))
  ∧ (let '(s0, m0) := createSession 7 1700000000000 "k3j2h1g0f" empty in
     let paused := invalidate 7 (run [CreateSession 8 1700000000500 "q1w2e3r4t"] m0) in
     let '(s, m1) := createSession 7 1700000060000 "k3j2h1g0f" (run [] paused) in
     s0 ≠ s
     ∧ isCurrent (run [Invalidate 8] m1) 7 (Some s0) = false
     ∧ isCurrent (run [Invalidate 8] m1) 7 (Some s) = true).
Proof.
  destruct C1_stale_token_rejected_fresh_token_current
    as (_ & _ & Hstale & Hfresh & Hresume).
  split; [|split].
  - apply Hstale; [discriminate|].
    repeat constructor; simpl; [lia | tauto].
  - apply (Hfresh empty 7 1700000000000 "k3j2h1g0f"
             [CreateSession 8 1700000000500 "q1w2e3r4t"; Invalidate 9]
             "1700000000000-k3j2h1g0e"); [discriminate|].
    repeat constructor; simpl; lia.
  - apply (Hresume empty 7 1700000000000 "k3j2h1g0f"
             [CreateSession 8 1700000000500 "q1w2e3r4t"] []
             1700000060000 "k3j2h1g0f" [Invalidate 8]).
    + intros [= Hnow].
    + repeat constructor; simpl; lia.
Defined.

(** Only a collision of both readings brings a paused run's token back:
    with the same millisecond and the same random suffix the resumed
    session has the token of the paused one. *)
Example same_readings_same_token :
  let '(s0, m0) := createSession 7 1700000000000 "k3j2h1g0f" empty in
  let '(s, m1) := createSession 7 1700000000000 "k3j2h1g0f" (invalidate 7 m0) in
  s0 = s ∧ isCurrent m1 7 (Some s0) = true.
Proof. vm_compute. split; reflexivity. Qed.

Example sessionToken_example :
  sessionToken 1700000000000 "k3j2h1g0f" = "1700000000000-k3j2h1g0f".
Proof. vm_compute. reflexivity. Qed.

(** C9. A callback that carries no token ([sessionId = null]) is current
    for every download, whatever the manager holds for it. *)
Theorem C9_null_token_is_current :
  ∀ m d, isCurrent m d None = true.
Proof. reflexivity. Qed.

End SessionManager.

(** ** utils/partialIntegrity *)

Module PartialIntegrity.

Abbreviation bytes := (list Byte.byte).

(** What [fs] shows of a path: its content, and whether [fs.open(path, 'r')]
    succeeds on it. A path with no node makes [fs.stat] reject. *)
Record node := File { content : bytes; readable : bool }.

Definition filesystem := gmap string node.

(** [(await fs.stat(p)).size]; [None] when the promise rejects. *)
Definition fs_stat (fs : filesystem) (p : string) : option Z :=
  (λ n, Z.of_nat (length (content n))) <$> fs !! p.

(** [await fs.open(p, 'r')]: the handle gives access to the content. *)
Definition fs_open (fs : filesystem) (p : string) : option bytes :=
  match fs !! p with
  | Some n => if readable n then Some (content n) else None
  | None => None
  end.

(** [handle.read(buffer, 0, len, position)] writes the bytes found at
    [position .. position+len) over the start of [buffer]. *)
Definition handle_read (file buffer : bytes) (len position : nat) : bytes :=
  let got := take len (drop position file) in
  got ++ drop (length got) buffer.

(** The last [n] bytes of [l] (all of [l] when it is shorter). *)
Definition last_bytes (n : nat) (l : bytes) : bytes :=
  drop (length l - n) l.

Definition PARTIAL_TAIL_BYTES : Z := 65536.

Section WithCrypto.

(** [crypto.createHash('sha256').update(b).digest('hex')] *)
Variable sha256_hex : bytes → string.
(** The content of a buffer returned by [Buffer.allocUnsafe(n)]. *)
Variable allocUnsafe : nat → bytes.

(** [None] stands for a rejected promise. *)
Definition hashLastNBytes (fs : filesystem) (filePath : string)
    (fileSize nBytes : Z) : option string :=
  if fileSize <=? 0 then Some (sha256_hex [])
  else
    let toRead := Z.min nBytes fileSize in
    let start := fileSize - toRead in
    match fs_open fs filePath with
    | None => None
    | Some file =>
        if toRead <? 0 then None
        else
          let buffer := take (Z.to_nat toRead) (allocUnsafe (Z.to_nat toRead)) in
          let buffer := handle_read file buffer (Z.to_nat toRead) (Z.to_nat start) in
          Some (sha256_hex buffer)
    end.

Definition verifyPartialTail_n (fs : filesystem) (filePath : string)
    (expectedSize : Z) (expectedHash : string) (nBytes : Z) : bool :=
  match fs_stat fs filePath with
  | None => false
  | Some size =>
      if negb (size =? expectedSize) then false
      else match hashLastNBytes fs filePath size nBytes with
           | None => false
           | Some actualHash => String.eqb actualHash expectedHash
           end
  end.

(** The call with the default [nBytes = PARTIAL_TAIL_BYTES]. *)
Definition verifyPartialTail fs filePath expectedSize expectedHash : bool :=
  verifyPartialTail_n fs filePath expectedSize expectedHash PARTIAL_TAIL_BYTES.

Lemma handle_read_tail (file buffer : bytes) (n : nat) :
  (n ≤ length file)%nat → (length buffer ≤ n)%nat →
  handle_read file buffer n (length file - n) = last_bytes n file.
Proof.
  intros Hle Hbuf. unfold handle_read, last_bytes.
  rewrite take_ge by (rewrite length_drop; lia).
  rewrite length_drop.
  rewrite (drop_ge buffer) by lia.
  by rewrite app_nil_r.
Qed.

Lemma PARTIAL_TAIL_BYTES_pos : 0 < PARTIAL_TAIL_BYTES.
Proof. reflexivity. Qed.

(** The number of bytes hashed for a file of [len] bytes. *)
Definition tail_length (len : nat) : nat :=
  Z.to_nat (Z.min PARTIAL_TAIL_BYTES (Z.of_nat len)).

Lemma hashLastNBytes_readable fs p file :
  fs !! p = Some (File file true) →
  hashLastNBytes fs p (Z.of_nat (length file)) PARTIAL_TAIL_BYTES
  = Some (sha256_hex (last_bytes (tail_length (length file)) file)).
Proof.
  intros Hp. unfold hashLastNBytes, fs_open, tail_length.
  rewrite Hp. cbn [readable content].
  pose proof PARTIAL_TAIL_BYTES_pos as Hn.
  generalize dependent PARTIAL_TAIL_BYTES. intros N HN.
  destruct (Z.leb_spec (Z.of_nat (length file)) 0) as [Hz|Hz].
  - assert (length file = 0)%nat as Hlen by lia.
    destruct file; [|simpl in Hlen; lia].
    replace (Z.to_nat (Z.min N (Z.of_nat (length (@nil Byte.byte))))) with 0%nat
      by (cbn [length]; lia).
    reflexivity.
  - destruct (Z.ltb_spec (Z.min N (Z.of_nat (length file))) 0); [lia|].
    f_equal. f_equal.
    replace (Z.to_nat (Z.of_nat (length file) - Z.min N (Z.of_nat (length file))))
      with (length file - Z.to_nat (Z.min N (Z.of_nat (length file))))%nat by lia.
    apply handle_read_tail; [lia|].
    rewrite length_take. lia.
Qed.

(** A file of no bytes is hashed without being opened, readable or not. *)
Lemma hashLastNBytes_empty fs p nBytes :
  hashLastNBytes fs p 0 nBytes = Some (sha256_hex []).
Proof. reflexivity. Qed.

(** A file with content that cannot be opened makes the promise reject. *)
Lemma hashLastNBytes_unreadable fs p file nBytes :
  fs !! p = Some (File file false) → file ≠ [] →
  hashLastNBytes fs p (Z.of_nat (length file)) nBytes = None.
Proof.
  intros Hp Hfile. unfold hashLastNBytes, fs_open. rewrite Hp. cbn [readable].
  destruct (Z.leb_spec (Z.of_nat (length file)) 0) as [Hz|]; [|done].
  destruct file; [done | simpl in Hz; lia].
Qed.

(** What [verifyPartialTail] answers for each thing a path can be. *)
Lemma verifyPartialTail_cases fs p expectedSize expectedHash :
  verifyPartialTail fs p expectedSize expectedHash
  = match fs !! p with
    | None => false
    | Some (File file r) =>
        (Z.of_nat (length file) =? expectedSize)
        && (r || bool_decide (file = []))
        && String.eqb (sha256_hex (last_bytes (tail_length (length file)) file))
                      expectedHash
    end.
Proof.
  unfold verifyPartialTail, verifyPartialTail_n, fs_stat.
  destruct (fs !! p) as [[file r]|] eqn:Hp; cbn [fmap option_fmap option_map content];
    [|done].
  destruct (Z.of_nat (length file) =? expectedSize); cbn [negb andb]; [|done].
  destruct r; cbn [orb andb].
  - by rewrite (hashLastNBytes_readable fs p file Hp).
  - destruct file as [|b file]; [done|].
    rewrite (hashLastNBytes_unreadable fs p (b :: file)) by done.
    by rewrite bool_decide_eq_false_2.
Qed.

(** C2 (as the code has it). For every path, expected size and expected
    hash, [verifyPartialTail] answers [true] exactly when [fs.stat] gives
    the expected size, the SHA-256 (hex) of the last [min(65536, size)]
    bytes of the file is the expected hash, and the file can be opened for
    reading or is empty: a file of no bytes is hashed without being
    opened, so it verifies against size [0] and the hash of the empty
    input also when it cannot be read. The answer is [false], and nothing
    is thrown, when [fs.stat] rejects and when a file that is not empty
    cannot be opened. *)
Theorem C2_verifyPartialTail_checks_size_and_tail_hash :
  ∀ (fs : filesystem) (filePath : string) (expectedSize : Z) (expectedHash : string),
    (verifyPartialTail fs filePath expectedSize expectedHash = true
     ↔ ∃ file r,
         fs !! filePath = Some (File file r)
         ∧ Z.of_nat (length file) = expectedSize
         ∧ sha256_hex (last_bytes (tail_length (length file)) file) = expectedHash
         ∧ (r = true ∨ file = []))
    ∧ (fs_stat fs filePath = None →
       verifyPartialTail fs filePath expectedSize expectedHash = false)
    ∧ (∀ file, fs !! filePath = Some (File file false) → file ≠ [] →
       fs_open fs filePath = None
       ∧ verifyPartialTail fs filePath expectedSize expectedHash = false)
    ∧ (∀ r, fs !! filePath = Some (File [] r) →
       (verifyPartialTail fs filePath expectedSize expectedHash = true
        ↔ expectedSize = 0 ∧ expectedHash = sha256_hex [])).
Proof.
  intros fs p es eh. rewrite verifyPartialTail_cases.
  split; [|split; [|split]].
  - destruct (fs !! p) as [[file r]|] eqn:Hp.
    + rewrite !andb_true_iff, Z.eqb_eq, String.eqb_eq, orb_true_iff,
        bool_decide_eq_true.
      split.
      * intros [[Hsize Hr] Hhash]. exists file, r. tauto.
      * intros (file' & r' & [= <- <-] & Hsize & Hhash & Hr). tauto.
    + split; [discriminate | by intros (? & ? & ? & _)].
  - unfold fs_stat. by destruct (fs !! p).
  - intros file Hp Hfile. unfold fs_open. rewrite Hp. cbn [readable orb].
    split; [done|]. rewrite bool_decide_eq_false_2 by done.
    by rewrite andb_false_r.
  - intros r Hp. rewrite Hp.
    rewrite !andb_true_iff, Z.eqb_eq, String.eqb_eq, orb_true_iff,
      bool_decide_eq_true.
    change (last_bytes (tail_length (length (@nil Byte.byte))) []) with (@nil Byte.byte).
    cbn [length]. split.
    + intros [[Hsize _] Hhash]. split; [lia | done].
    + intros [-> ->]. split; [split; [done | by right] | done].
Qed.

End WithCrypto.

Lemma tail_length_spec len :
  Z.of_nat (tail_length len) = Z.min 65536 (Z.of_nat len).
Proof. unfold tail_length, PARTIAL_TAIL_BYTES. lia. Qed.

(** A stand-in digest, used only to run the functions on an example. *)
Definition length_digest (b : bytes) : string := pretty (length b).

Definition example_fs : filesystem :=
  <[ "chunk-0000.part" := File [Byte.x01; Byte.x02; Byte.x03] true ]>
    {[ "chunk-0002.part" := File [Byte.x04; Byte.x05] false ]}.

(** A part file of no bytes that cannot be opened. *)
Definition locked_empty_fs : filesystem :=
  {[ "chunk-0003.part" := File [] false ]}.

(** C2 fails as stated on an empty file that cannot be read: [fs.open]
    rejects on it, but [hashLastNBytes] returns the hash of the empty
    input before it opens anything, so the answer for the expected size
    [0] and that hash is [true], not [false]. *)
Lemma C2_counterexample :
  fs_open locked_empty_fs "chunk-0003.part" = None
  ∧ fs_stat locked_empty_fs "chunk-0003.part" = Some 0
  ∧ verifyPartialTail length_digest (λ n, replicate n Byte.x00)
      locked_empty_fs "chunk-0003.part" 0 (length_digest []) = true.
Proof. repeat split. Qed.

Lemma C2_witness :
  verifyPartialTail length_digest (λ n, replicate n Byte.x00)
    example_fs "chunk-0000.part" 3 "3" = true
  ∧ verifyPartialTail length_digest (λ n, replicate n Byte.x00)
      example_fs "chunk-0001.part" 3 "3" = false
  ∧ (fs_open example_fs "chunk-0002.part" = None
     ∧ verifyPartialTail length_digest (λ n, replicate n Byte.x00)
         example_fs "chunk-0002.part" 2 "2" = false)
  ∧ (verifyPartialTail length_digest (λ n, replicate n Byte.x00)
       locked_empty_fs "chunk-0003.part" 0 "0" = true
     ↔ 0 = 0 ∧ "0" = length_digest []).
Proof.
  pose proof (C2_verifyPartialTail_checks_size_and_tail_hash
                length_digest (λ n, replicate n Byte.x00)) as H.
  split; [|split; [|split]].
  - apply (proj1 (H example_fs "chunk-0000.part" 3 "3")).
    exists [Byte.x01; Byte.x02; Byte.x03], true.
    split; [reflexivity|]. split; [reflexivity|]. split; [reflexivity | by left].
  - apply (proj1 (proj2 (H example_fs "chunk-0001.part" 3 "3"))). reflexivity.
  - apply (proj1 (proj2 (proj2 (H example_fs "chunk-0002.part" 2 "2")))
             [Byte.x04; Byte.x05]); [reflexivity | discriminate].
  - apply (proj2 (proj2 (proj2 (H locked_empty_fs "chunk-0003.part" 0 "0"))) false).
    reflexivity.
Defined.

End PartialIntegrity.

(** ** engines/EventBus *)

Module EventBus.

(** Payload of a ['stateChanged'] emission. *)
Record StateChangedPayload := Payload { stateVersion : Z; timestamp : Z }.

(** The two private fields of the bus, the deadline of the pending
    [setTimeout] when one is armed, and the ['stateChanged'] emissions made
    so far (oldest first). *)
Record t := Build {
  _stateChangePending : option Z;
  _stateChangeTimer : option Z;
  emitted : list StateChangedPayload
}.

Definition new : t := Build None None [].

(** [config.ui.stateChangeDebounceMs ?? 50] *)
Definition stateChangeDebounceMs (configured : option Z) : Z :=
  default 50 configured.

(** Node arms a timeout of 1 ms when the delay is below 1 or above
    2^31 - 1. *)
Definition setTimeout_delay (ms : Z) : Z :=
  if (ms <? 1) || (2147483647 <? ms) then 1 else ms.

Section WithConfig.

Variable configured : option Z.

Definition emitStateChanged (now stateVersion : Z) (bus : t) : t :=
  let bus := Build (Some stateVersion) (_stateChangeTimer bus) (emitted bus) in
  match _stateChangeTimer bus with
  | Some _ => bus
  | None =>
      Build (_stateChangePending bus)
            (Some (now + setTimeout_delay (stateChangeDebounceMs configured)))
            (emitted bus)
  end.

(** The arrow function handed to [setTimeout], run at time [now]. *)
Definition timerCallback (now : Z) (bus : t) : t :=
  let v := _stateChangePending bus in
  match v with
  | Some v => Build None None (emitted bus ++ [Payload v now])
  | None => Build None None (emitted bus)
  end.

Definition clear (bus : t) : t := Build None None (emitted bus).

(** What the event loop delivers to the bus: a call of [emitStateChanged]
    at time [now], or the timers phase reached at time [now], which runs
    the callback of a timeout whose deadline has passed. *)
Inductive event :=
| Call (now stateVersion : Z)
| Timers (now : Z).

Definition time (e : event) : Z :=
  match e with Call now _ => now | Timers now => now end.

Definition step (bus : t) (e : event) : t :=
  match e with
  | Call now v => emitStateChanged now v bus
  | Timers now =>
      match _stateChangeTimer bus with
      | Some deadline => if deadline <=? now then timerCallback now bus else bus
      | None => bus
      end
  end.

Definition run (es : list event) (bus : t) : t := fold_left step es bus.

(** The version of the last call in [es], [v] when there is none. *)
Fixpoint lastVersion (v : Z) (es : list event) : Z :=
  match es with
  | [] => v
  | Call _ v' :: es => lastVersion v' es
  | Timers _ :: es => lastVersion v es
  end.

Lemma run_inside_window es : ∀ bus deadline v,
  _stateChangeTimer bus = Some deadline →
  _stateChangePending bus = Some v →
  Forall (λ e, time e < deadline) es →
  run es bus = Build (Some (lastVersion v es)) (Some deadline) (emitted bus).
Proof.
  induction es as [|e es IH]; intros bus deadline v Ht Hp Hall.
  - destruct bus; simpl in *; by subst.
  - inversion Hall as [|? ? He Hes]; subst. destruct e as [now v'|now]; simpl.
    + rewrite (IH _ deadline v'); try done.
      * unfold emitStateChanged; simpl. by rewrite Ht.
      * unfold emitStateChanged; simpl. by rewrite Ht.
      * unfold emitStateChanged; simpl. by rewrite Ht.
    + rewrite Ht. simpl in He.
      destruct (Z.leb_spec deadline now); [lia|]. by apply IH.
Qed.

(** C3. Starting with no timeout armed, a first call
    [emitStateChanged(v1)] at time [t1] opens a window that lasts until
    [t1 + debounce]; whatever further calls (and idle turns of the event
    loop) fall inside the window, the timers phase that follows it makes
    exactly one ['stateChanged'] emission, and its payload carries the
    version of the last call. Nothing is emitted before that. *)
Theorem C3_debounced_single_emission_latest_version :
  ∀ bus t1 v1 es tfire,
    _stateChangeTimer bus = None →
    let deadline := t1 + setTimeout_delay (stateChangeDebounceMs configured) in
    Forall (λ e, time e < deadline) es →
    deadline ≤ tfire →
    emitted (run (Call t1 v1 :: es) bus) = emitted bus
    ∧ run (Call t1 v1 :: es ++ [Timers tfire]) bus
      = Build None None
          (emitted bus ++ [Payload (lastVersion v1 es) tfire]).
Proof.
  intros bus t1 v1 es tfire Hidle deadline Hall Hfire.
  assert (run (Call t1 v1 :: es) bus
          = Build (Some (lastVersion v1 es)) (Some deadline) (emitted bus)) as Hrun.
  { simpl. rewrite (run_inside_window es _ deadline v1); try done.
    - unfold emitStateChanged; simpl. by rewrite Hidle.
    - unfold emitStateChanged; simpl. by rewrite Hidle.
    - unfold emitStateChanged; simpl. by rewrite Hidle. }
  split; [by rewrite Hrun|].
  change (Call t1 v1 :: es ++ [Timers tfire])
    with ((Call t1 v1 :: es) ++ [Timers tfire])%list.
  unfold run in *. rewrite fold_left_app, Hrun. simpl.
  destruct (Z.leb_spec deadline tfire); [reflexivity | lia].
Qed.

End WithConfig.

Example debounce_default : stateChangeDebounceMs None = 50.
Proof. reflexivity. Qed.

Lemma C3_witness :
  run None [Call 1000 41; Call 1010 42; Timers 1020; Call 1049 43; Timers 1050] new
  = Build None None [Payload 43 1050].
Proof.
  refine (proj2 (C3_debounced_single_emission_latest_version None new 1000 41
                   [Call 1010 42; Timers 1020; Call 1049 43] 1050 _ _ _)).
  - reflexivity.
  - repeat constructor.
  - vm_compute. discriminate.
Defined.

End EventBus.

(** ** engines/CircuitBreakerManager *)

Module CircuitBreakerManager.

(** [config.circuitBreaker], every field optional as in the interface
    [CircuitBreakerConfig]. *)
Record DownloadConfig := {
  dl_failureThreshold : option Z;
  dl_successThreshold : option Z;
  dl_timeout : option Z;
  dl_resetTimeout : option Z
}.

Record PerHostConfig := {
  ph_enabled : option bool;
  ph_failureThreshold : option Z;
  ph_timeout : option Z
}.

Record CircuitBreakerConfig := {
  enabled : option bool;
  download : option DownloadConfig;
  perHost : option PerHostConfig
}.

(** The options a [CircuitBreaker] object was constructed with. *)
Record CircuitBreaker := Breaker {
  name : string;
  failureThreshold : Z;
  successThreshold : Z;
  timeout : Z;
  resetTimeout : Z
}.

(** Objects live in a heap and are named by their address, so that two
    results can be compared for being the same object. *)
Abbreviation ref := nat (only parsing).

Record t := Build {
  globalCircuitBreaker : option ref;
  hostCircuitBreakers : gmap string ref;
  heap : list CircuitBreaker
}.

(** [new CircuitBreaker(opts)]: the address of the new object and the
    extended heap. *)
Definition alloc (b : CircuitBreaker) (h : list CircuitBreaker)
  : ref * list CircuitBreaker :=
  (length h, (h ++ [b])%list).

(** [cbConfig?.enabled] as a condition *)
Definition cbEnabled (cbConfig : option CircuitBreakerConfig) : bool :=
  match cbConfig with
  | Some c => default false (enabled c)
  | None => false
  end.

(** [cbConfig?.perHost?.enabled] as a condition *)
Definition perHostEnabled (cbConfig : option CircuitBreakerConfig) : bool :=
  match cbConfig with
  | Some c =>
      match perHost c with
      | Some p => default false (ph_enabled p)
      | None => false
      end
  | None => false
  end.

Definition emptyDownloadConfig : DownloadConfig :=
  {| dl_failureThreshold := None; dl_successThreshold := None;
     dl_timeout := None; dl_resetTimeout := None |}.

Definition emptyPerHostConfig : PerHostConfig :=
  {| ph_enabled := None; ph_failureThreshold := None; ph_timeout := None |}.

Definition globalBreaker (c : CircuitBreakerConfig) : CircuitBreaker :=
  let downloadConfig := default emptyDownloadConfig (download c) in
  {| name := "DownloadEngine";
     failureThreshold := default 5 (dl_failureThreshold downloadConfig);
     successThreshold := default 2 (dl_successThreshold downloadConfig);
     timeout := default 60000 (dl_timeout downloadConfig);
     resetTimeout := default 60000 (dl_resetTimeout downloadConfig) |}.

Definition hostBreaker (c : CircuitBreakerConfig) (host : string) : CircuitBreaker :=
  let perHostConfig := default emptyPerHostConfig (perHost c) in
  {| name := "Host-" ++ host;
     failureThreshold := default 10 (ph_failureThreshold perHostConfig);
     successThreshold := 2;
     timeout := default 120000 (ph_timeout perHostConfig);
     resetTimeout := 60000 |}.

Definition constructor (cbConfig : option CircuitBreakerConfig) : t :=
  match cbConfig with
  | Some c =>
      if cbEnabled cbConfig then
        let '(r, h) := alloc (globalBreaker c) [] in
        Build (Some r) ∅ h
      else Build None ∅ []
  | None => Build None ∅ []
  end.

Section WithURL.

(** [new URL(url).hostname]; [None] when the constructor throws. *)
Variable hostname : string → option string.

Definition getCircuitBreaker (cbConfig : option CircuitBreakerConfig)
    (url : string) (m : t) : option ref * t :=
  if negb (perHostEnabled cbConfig) then (globalCircuitBreaker m, m)
  else
    match hostname url, cbConfig with
    | Some host, Some c =>
        let m :=
          match hostCircuitBreakers m !! host with
          | Some _ => m
          | None =>
              let '(cb, h) := alloc (hostBreaker c host) (heap m) in
              Build (globalCircuitBreaker m)
                    (<[host := cb]> (hostCircuitBreakers m)) h
          end in
        (hostCircuitBreakers m !! host, m)
    | _, _ => (globalCircuitBreaker m, m)
    end.

Definition destroyAll (m : t) : t := Build None ∅ (heap m).

(** The object a result designates. *)
Definition deref (m : t) (r : option ref) : option CircuitBreaker :=
  r ≫= λ a, heap m !! a.

Lemma getCircuitBreaker_known cbConfig c url host r m :
  perHostEnabled cbConfig = true → cbConfig = Some c →
  hostname url = Some host → hostCircuitBreakers m !! host = Some r →
  getCircuitBreaker cbConfig url m = (Some r, m).
Proof.
  intros Hph -> Hh Hr. unfold getCircuitBreaker.
  rewrite Hph, Hh, Hr. simpl. by rewrite Hr.
Qed.

Lemma getCircuitBreaker_first_use cbConfig c url host m :
  perHostEnabled cbConfig = true → cbConfig = Some c →
  hostname url = Some host → hostCircuitBreakers m !! host = None →
  getCircuitBreaker cbConfig url m
  = (Some (length (heap m)),
     Build (globalCircuitBreaker m)
           (<[host := length (heap m)]> (hostCircuitBreakers m))
           (heap m ++ [hostBreaker c host])).
Proof.
  intros Hph -> Hh Hr. unfold getCircuitBreaker.
  rewrite Hph, Hh, Hr. simpl. by rewrite lookup_insert_eq.
Qed.

(** C4 (as the code has it). [getCircuitBreaker] hands out the global
    breaker field when per-host mode is off, and also when per-host mode
    is on but the URL has no parseable hostname. That field holds a
    breaker only when [circuitBreaker.enabled] is set (it is [null]
    otherwise), built from the configured values with defaults
    F=5, S=2, timeout 60 s, reset 60 s. With per-host mode on and a
    parseable URL the result is the breaker of the URL's hostname: the
    one already registered, or else a new one built with F (default 10),
    S=2, timeout (default 120 s), reset 60 s; every later URL of that
    host gets the same object. *)
Theorem C4_getCircuitBreaker_modes :
  ∀ cbConfig url m,
    (perHostEnabled cbConfig = false →
       getCircuitBreaker cbConfig url m = (globalCircuitBreaker m, m))
    ∧ (perHostEnabled cbConfig = true → hostname url = None →
       getCircuitBreaker cbConfig url m = (globalCircuitBreaker m, m))
    ∧ (cbEnabled cbConfig = false →
       globalCircuitBreaker (constructor cbConfig) = None)
    ∧ (∀ c, cbConfig = Some c → cbEnabled cbConfig = true →
       deref (constructor cbConfig) (globalCircuitBreaker (constructor cbConfig))
       = Some (globalBreaker c)
       ∧ (download c = None →
          globalBreaker c = Breaker "DownloadEngine" 5 2 60000 60000))
    ∧ (∀ host, perHostEnabled cbConfig = true → hostname url = Some host →
       ∃ c r m',
         cbConfig = Some c
         ∧ getCircuitBreaker cbConfig url m = (Some r, m')
         ∧ (hostCircuitBreakers m !! host = Some r ∧ m' = m
            ∨ hostCircuitBreakers m !! host = None
              ∧ deref m' (Some r) = Some (hostBreaker c host)
              ∧ deref m (Some r) = None
              ∧ globalCircuitBreaker m' = globalCircuitBreaker m)
         ∧ (∀ p, perHost c = Some p →
              ph_failureThreshold p = None → ph_timeout p = None →
              hostBreaker c host = Breaker ("Host-" ++ host) 10 2 120000 60000)
         ∧ (∀ url', hostname url' = Some host →
              getCircuitBreaker cbConfig url' m' = (Some r, m'))).
Proof.
  intros cbConfig url m. split; [|split; [|split; [|split]]].
  - intros Hph. unfold getCircuitBreaker. by rewrite Hph.
  - intros Hph Hh. unfold getCircuitBreaker. by rewrite Hph, Hh.
  - intros Hen. unfold constructor. destruct cbConfig; [|done]. by rewrite Hen.
  - intros c -> Hen. split.
    + unfold constructor. by rewrite Hen.
    + intros Hd. unfold globalBreaker. by rewrite Hd.
  - intros host Hph Hh.
    destruct cbConfig as [c|]; [|discriminate].
    assert (∀ p, perHost c = Some p →
              ph_failureThreshold p = None → ph_timeout p = None →
              hostBreaker c host = Breaker ("Host-" ++ host) 10 2 120000 60000)
      as Hdefaults.
    { intros p Hp Hf Ht. unfold hostBreaker. rewrite Hp. simpl. by rewrite Hf, Ht. }
    destruct (hostCircuitBreakers m !! host) as [r|] eqn:Hr.
    + exists c, r, m. split; [done|]. split; [|split; [|split]].
      * by eapply getCircuitBreaker_known.
      * by left.
      * done.
      * intros url' Hh'. by eapply getCircuitBreaker_known.
    + eexists c, _, _. split; [done|]. split.
      { by eapply getCircuitBreaker_first_use. }
      split; [|split].
      * right. split; [done|]. simpl. split; [|split; [|done]].
        -- rewrite lookup_app_r by lia.
           by replace (length (heap m) - length (heap m))%nat with 0%nat by lia.
        -- apply lookup_ge_None. lia.
      * done.
      * intros url' Hh'. eapply getCircuitBreaker_known; try done.
        simpl. by rewrite lookup_insert_eq.
Qed.

End WithURL.

(** A stand-in for [new URL(url).hostname] on URLs of the shape
    [scheme://host...]: the host runs up to the first [/], [?], [#] or
    [:]; a string without [://] is rejected, as [new URL] rejects a string
    with no scheme. It serves to run the functions on examples. *)
Fixpoint hostPart (s : string) : string :=
  match s with
  | EmptyString => EmptyString
  | String c rest =>
      if (Ascii.eqb c "/" || Ascii.eqb c "?" || Ascii.eqb c "#" || Ascii.eqb c ":")%bool
      then EmptyString
      else String c (hostPart rest)
  end.

Definition example_hostname (url : string) : option string :=
  match String.index 0 "://" url with
  | Some i =>
      let host := hostPart (String.substring (i + 3) (String.length url - (i + 3)) url) in
      if String.eqb host "" then None else Some host
  | None => None
  end.

Example example_hostname_ok :
  example_hostname "https://myrient.erista.me/files/a.zip" = Some "myrient.erista.me"
  ∧ example_hostname "not a url" = None.
Proof. split; reflexivity. Qed.

Definition perHostOn : option CircuitBreakerConfig :=
  Some {| enabled := Some true; download := None;
          perHost := Some {| ph_enabled := Some true;
                             ph_failureThreshold := None;
                             ph_timeout := None |} |}.

(** C4 fails as stated. With no [circuitBreaker] configuration per-host
    mode is off and the result is [null], not a breaker; and with per-host
    mode on, a URL that does not parse gets the global breaker (F=5), not a
    breaker of its own host. *)
Lemma C4_counterexample :
  (perHostEnabled None = false
   ∧ fst (getCircuitBreaker example_hostname None
            "https://myrient.erista.me/files/a.zip" (constructor None)) = None)
  ∧ (perHostEnabled perHostOn = true
     ∧ deref (constructor perHostOn)
         (fst (getCircuitBreaker example_hostname perHostOn "not a url"
                 (constructor perHostOn)))
       = Some (Breaker "DownloadEngine" 5 2 60000 60000)).
Proof. repeat split. Qed.

Lemma C4_witness :
  getCircuitBreaker example_hostname None "https://myrient.erista.me/files/a.zip"
    (constructor None)
  = (None, constructor None)
  ∧ getCircuitBreaker example_hostname perHostOn "not a url" (constructor perHostOn)
    = (Some 0%nat, constructor perHostOn)
  ∧ globalCircuitBreaker (constructor None) = None
  ∧ deref (constructor perHostOn) (globalCircuitBreaker (constructor perHostOn))
    = Some (Breaker "DownloadEngine" 5 2 60000 60000)
  ∧ ∃ c r m',
      perHostOn = Some c
      ∧ getCircuitBreaker example_hostname perHostOn
          "https://myrient.erista.me/files/a.zip" (constructor perHostOn)
        = (Some r, m')
      ∧ deref m' (Some r) = Some (Breaker "Host-myrient.erista.me" 10 2 120000 60000)
      ∧ getCircuitBreaker example_hostname perHostOn
          "https://myrient.erista.me/files/b.zip" m'
        = (Some r, m').
Proof.
  pose proof (C4_getCircuitBreaker_modes example_hostname) as W.
  split; [|split; [|split; [|split]]].
  - apply (proj1 (W None "https://myrient.erista.me/files/a.zip" (constructor None))).
    reflexivity.
  - apply (proj1 (proj2 (W perHostOn "not a url" (constructor perHostOn))));
      reflexivity.
  - apply (proj1 (proj2 (proj2 (W None "" (constructor None))))). reflexivity.
  - destruct (proj1 (proj2 (proj2 (proj2 (W perHostOn "" (constructor perHostOn)))))
                _ eq_refl eq_refl) as [Hd Hdefault].
    rewrite Hd, Hdefault; reflexivity.
  - destruct (proj2 (proj2 (proj2 (proj2
               (W perHostOn "https://myrient.erista.me/files/a.zip"
                  (constructor perHostOn)))))
               "myrient.erista.me" eq_refl eq_refl)
      as (c & r & m' & Hc & Hget & Hcase & Hdef & Hsame).
    exists c, r, m'. split; [done|]. split; [done|]. split.
    + destruct Hcase as [[Hin _] | (_ & Hd & _)]; [discriminate Hin|].
      rewrite Hd. inversion Hc; subst c. reflexivity.
    + apply Hsame. reflexivity.
Defined.

End CircuitBreakerManager.

(** ** engines/QueueProcessor *)

Module QueueProcessor.

Inductive DownloadState :=
| QUEUED | STARTING | DOWNLOADING | PAUSED | MERGING | VERIFYING
| COMPLETED | FAILED | CANCELLED.

(** A row handed around by the store and the scheduler. The selector reads
    its [id] only, which at run time may be [null] or [undefined]. *)
Record Download := { id : option Z; state : DownloadState; url : string }.

(** The methods of the collaborators that the selector calls. *)
Record StateStore := {
  getDownloadsByStateLimited : DownloadState → Z → list Download;
  getSummary_queued : Z
}.

Record Scheduler := {
  scheduler_selectDownloadsToStart : list Download → Z → Z → list Download
}.

Record ConcurrencyController := {
  getAvailableGlobalSlots : Z;
  getGlobalActiveCount : Z
}.

Record SelectDownloadsToStartOptions := {
  maxQueueBatchSize : Z;
  excludeIds : option (gset Z)
}.

Record SelectDownloadsToStartResult := {
  toStart : list (option Z);
  queuedCount : Z;
  slotsAvailable : Z
}.

(** [d.id != null && !options.excludeIds?.has(d.id)] *)
Definition keep (options : SelectDownloadsToStartOptions) (d_id : option Z) : bool :=
  match d_id with
  | None => false
  | Some i =>
      match excludeIds options with
      | Some ex => negb (bool_decide (i ∈ ex))
      | None => true
      end
  end.

Definition selectDownloadsToStart (stateStore : StateStore)
    (scheduler : Scheduler) (concurrencyController : ConcurrencyController)
    (options : SelectDownloadsToStartOptions) : SelectDownloadsToStartResult :=
  let queued :=
    getDownloadsByStateLimited stateStore QUEUED (maxQueueBatchSize options) in
  let queuedCount := getSummary_queued stateStore in
  if (length queued =? 0)%nat then
    {| toStart := []; queuedCount := 0;
       slotsAvailable := getAvailableGlobalSlots concurrencyController |}
  else
    let queuedToProcess := queued in
    let slotsAvailable := getAvailableGlobalSlots concurrencyController in
    let globalActiveCount := getGlobalActiveCount concurrencyController in
    if slotsAvailable <=? 0 then
      {| toStart := []; queuedCount := queuedCount; slotsAvailable := 0 |}
    else
      let toStart :=
        scheduler_selectDownloadsToStart scheduler queuedToProcess
          slotsAvailable globalActiveCount in
      let toStartMapped := filter (λ d_id, keep options d_id = true) (map id toStart) in
      {| toStart := toStartMapped; queuedCount := queuedCount;
         slotsAvailable := slotsAvailable |}.

(** C5. Whatever the store, the scheduler and the controller answer, the
    selection is empty when the store returns no queued download or when
    no global slot is available, and every selected entry has an [id] that
    is neither [null] nor a member of [options.excludeIds]. *)
Theorem C5_selection_respects_slots_and_exclusions :
  ∀ stateStore scheduler concurrencyController options,
    let r := selectDownloadsToStart stateStore scheduler concurrencyController options in
    (getDownloadsByStateLimited stateStore QUEUED (maxQueueBatchSize options) = [] →
       toStart r = [])
    ∧ (getAvailableGlobalSlots concurrencyController ≤ 0 → toStart r = [])
    ∧ (∀ x, x ∈ toStart r →
         ∃ i, x = Some i ∧ ∀ ex, excludeIds options = Some ex → i ∉ ex).
Proof.
  intros store sched cc options. unfold selectDownloadsToStart. simpl.
  split; [|split].
  - intros ->. reflexivity.
  - intros Hslots.
    destruct (length _ =? 0)%nat; [reflexivity|].
    destruct (Z.leb_spec (getAvailableGlobalSlots cc) 0); [reflexivity | lia].
  - intros x Hx.
    destruct (length _ =? 0)%nat; [by apply elem_of_nil in Hx|].
    destruct (getAvailableGlobalSlots cc <=? 0); [by apply elem_of_nil in Hx|].
    simpl in Hx. apply list_elem_of_filter in Hx as [Hkeep _].
    destruct x as [i|]; [|discriminate]. exists i. split; [done|].
    intros ex Hex. simpl in Hkeep. rewrite Hex in Hkeep.
    apply negb_true_iff, bool_decide_eq_false in Hkeep. done.
Qed.

(** A scheduler that proposes everything it is given, in order. *)
Definition greedy : Scheduler :=
  {| scheduler_selectDownloadsToStart := λ queued _ _, queued |}.

Definition example_store : StateStore :=
  {| getDownloadsByStateLimited := λ _ _,
       [ {| id := Some 1; state := QUEUED; url := "https://h/a" |};
         {| id := None; state := QUEUED; url := "https://h/b" |};
         {| id := Some 3; state := QUEUED; url := "https://h/c" |} ];
     getSummary_queued := 3 |}.

Example selection_runs :
  toStart (selectDownloadsToStart example_store greedy
             {| getAvailableGlobalSlots := 2; getGlobalActiveCount := 1 |}
             {| maxQueueBatchSize := 100; excludeIds := Some {[ 3 ]} |})
  = [Some 1].
Proof. vm_compute. reflexivity. Qed.

Definition empty_store : StateStore :=
  {| getDownloadsByStateLimited := λ _ _, []; getSummary_queued := 0 |}.

Lemma C5_witness :
  toStart (selectDownloadsToStart empty_store greedy
             {| getAvailableGlobalSlots := 2; getGlobalActiveCount := 1 |}
             {| maxQueueBatchSize := 100; excludeIds := None |}) = []
  ∧ toStart (selectDownloadsToStart example_store greedy
               {| getAvailableGlobalSlots := 0; getGlobalActiveCount := 3 |}
               {| maxQueueBatchSize := 100; excludeIds := None |}) = []
  ∧ ∃ i, Some 1 = Some i ∧ ∀ ex, Some ({[ 3 ]} : gset Z) = Some ex → i ∉ ex.
Proof.
  split; [|split].
  - apply (proj1 (C5_selection_respects_slots_and_exclusions empty_store greedy
             {| getAvailableGlobalSlots := 2; getGlobalActiveCount := 1 |}
             {| maxQueueBatchSize := 100; excludeIds := None |})).
    reflexivity.
  - apply (proj1 (proj2 (C5_selection_respects_slots_and_exclusions example_store greedy
             {| getAvailableGlobalSlots := 0; getGlobalActiveCount := 3 |}
             {| maxQueueBatchSize := 100; excludeIds := None |}))).
    simpl. lia.
  - apply (proj2 (proj2 (C5_selection_respects_slots_and_exclusions example_store greedy
             {| getAvailableGlobalSlots := 2; getGlobalActiveCount := 1 |}
             {| maxQueueBatchSize := 100; excludeIds := Some {[ 3 ]} |})) (Some 1)).
    rewrite selection_runs. apply list_elem_of_singleton. reflexivity.
Defined.

End QueueProcessor.

(** ** utils/rateLimiter *)

Module RateLimiter.

Record t := Build {
  maxRequests : Z;
  windowMs : Z;
  requests : gmap string (list Z)
}.

(** [None] when the constructor throws. *)
Definition constructor (maxRequests windowMs : Z) : option t :=
  if (maxRequests <=? 0) || (windowMs <=? 0) then None
  else Some (Build maxRequests windowMs ∅).

(** [(this.requests.get(identifier) ?? []).filter(ts => now - ts < this.windowMs)] *)
Definition recentRequests (now : Z) (identifier : string) (rl : t) : list Z :=
  filter (λ ts, now - ts < windowMs rl) (default [] (requests rl !! identifier)).

Definition record (now : Z) (identifier : string) (rl : t) : t :=
  let recent := recentRequests now identifier rl in
  Build (maxRequests rl) (windowMs rl)
        (<[identifier := (recent ++ [now])%list]> (requests rl)).

(** [now] is the value of [Date.now()] read by the call. The
    [typeof identifier !== 'string'] half of the guard cannot fire on a
    [string]. *)
Definition isAllowed (now : Z) (identifier : string) (rl : t) : bool * t :=
  if String.eqb identifier "" then (false, rl)
  else
    let recent := recentRequests now identifier rl in
    if maxRequests rl <=? Z.of_nat (length recent) then (false, rl)
    else
      (true,
       Build (maxRequests rl) (windowMs rl)
             (<[identifier := (recent ++ [now])%list]> (requests rl))).

(** Entries left with no recent request are dropped, the others pruned. *)
Definition cleanup (now : Z) (rl : t) : t :=
  Build (maxRequests rl) (windowMs rl)
    (omap (λ ts, let recent := filter (λ x, now - x < windowMs rl) ts in
                 match recent with [] => None | _ => Some recent end)
          (requests rl)).

Definition reset (identifier : string) (rl : t) : bool * t :=
  match requests rl !! identifier with
  | Some _ => (true, Build (maxRequests rl) (windowMs rl) (delete identifier (requests rl)))
  | None => (false, rl)
  end.

(** The limiter of the ['search-db'] channel with its default budget. *)
Definition searchRateLimiter : t := Build 10 1000 ∅.

(** C6 fails as stated on the empty key: nothing is recorded for it, so
    fewer than [maxRequests] timestamps fall in the window, yet the call is
    refused. *)
Lemma C6_counterexample :
  constructor 10 1000 = Some searchRateLimiter
  ∧ Z.of_nat (length (recentRequests 5000 "" searchRateLimiter))
    < maxRequests searchRateLimiter
  ∧ isAllowed 5000 "" searchRateLimiter = (false, searchRateLimiter).
Proof. repeat split. Qed.

(** C6 (as the code has it). For every non-empty key, [isAllowed] answers
    [true] exactly when strictly fewer than [maxRequests] of the key's
    recorded timestamps [ts] satisfy [now - ts < windowMs]; it then stores
    those timestamps followed by [now] for the key and touches no other
    key. When the budget is reached it answers [false] and leaves the
    limiter as it was. Timestamps outside the window take no part: the
    count is over the filtered list only. The empty key is always refused
    and nothing is recorded for it. *)
Theorem C6_isAllowed_sliding_window :
  ∀ now identifier rl,
    let recent := recentRequests now identifier rl in
    (identifier ≠ "" →
       (fst (isAllowed now identifier rl) = true
        ↔ Z.of_nat (length recent) < maxRequests rl)
       ∧ (fst (isAllowed now identifier rl) = true →
          snd (isAllowed now identifier rl)
          = Build (maxRequests rl) (windowMs rl)
              (<[identifier := (recent ++ [now])%list]> (requests rl)))
       ∧ (fst (isAllowed now identifier rl) = false →
          snd (isAllowed now identifier rl) = rl))
    ∧ (∀ ts, ts ∈ recent ↔
         ts ∈ default [] (requests rl !! identifier) ∧ now - ts < windowMs rl)
    ∧ isAllowed now "" rl = (false, rl).
Proof.
  intros now identifier rl recent. split; [|split].
  - intros Hne. unfold isAllowed. fold recent.
    destruct (String.eqb_spec identifier "") as [->|_]; [done|].
    destruct (Z.leb_spec (maxRequests rl) (Z.of_nat (length recent))); simpl.
    + split; [split; [discriminate | lia] | split; [discriminate | done]].
    + split; [split; [done | done] | split; [done | discriminate]].
  - intros ts. subst recent. unfold recentRequests.
    rewrite list_elem_of_filter. tauto.
  - reflexivity.
Qed.

Lemma C6_witness :
  fst (isAllowed 5000 "42" (Build 2 1000 {[ "42" := [3000; 4500] ]})) = true
  ∧ snd (isAllowed 5000 "42" (Build 2 1000 {[ "42" := [3000; 4500] ]}))
    = Build 2 1000 {[ "42" := [4500; 5000] ]}
  ∧ snd (isAllowed 5000 "42" (Build 2 1000 {[ "42" := [4200; 4500] ]}))
    = Build 2 1000 {[ "42" := [4200; 4500] ]}.
Proof.
  pose proof (λ rl H, proj1 (C6_isAllowed_sliding_window 5000 "42" rl) H) as W.
  assert ("42" ≠ "") as Hne by discriminate.
  split; [|split].
  - apply (proj1 (W _ Hne)). vm_compute. reflexivity.
  - rewrite (proj1 (proj2 (W _ Hne))).
    + vm_compute. reflexivity.
    + vm_compute. reflexivity.
  - apply (proj2 (proj2 (W _ Hne))). vm_compute. reflexivity.
Defined.

End RateLimiter.

(** ** utils/schemas (download settings) *)

Module Schemas.

(** *** JavaScript values, as far as the schema looks into them *)

(** A double is a rational, [NaN] or an infinity; the comparisons the
    schema makes are against constants that doubles hold exactly. *)
Inductive JsNumber := Finite (q : Q) | NaN | PosInf | NegInf.

Inductive JsVal :=
| JUndefined
| JNull
| JBool (b : bool)
| JNumber (n : JsNumber)
| JString (s : string)
| JArray (items : list JsVal)
| JObject (fields : list (string * JsVal)).

(** [data[key]]: the first binding of [key], [undefined] without one. *)
Fixpoint getProp (fields : list (string * JsVal)) (key : string) : JsVal :=
  match fields with
  | [] => JUndefined
  | (k, v) :: rest => if String.eqb k key then v else getProp rest key
  end.

(** [Number.isInteger] *)
Definition isInteger (n : JsNumber) : bool :=
  match n with
  | Finite q => (Qnum q mod Zpos (Qden q) =? 0)
  | _ => false
  end.

(** [a < b] on numbers that are not [NaN] *)
Definition num_lt (a : JsNumber) (b : Q) : bool :=
  match a with
  | Finite q => negb (Qle_bool b q)
  | NegInf => true
  | _ => false
  end.

Definition num_gt (a : JsNumber) (b : Q) : bool :=
  match a with
  | Finite q => negb (Qle_bool q b)
  | PosInf => true
  | _ => false
  end.

(** *** The part of Zod that [downloadSettingsSchema] uses *)

Inductive check := Int | Min (value : Q) | Max (value : Q).

Inductive fieldSchema :=
| ZNumber (checks : list check)
| ZBoolean
| ZOptional (inner : fieldSchema).

Definition objectSchema := list (string * fieldSchema).

Inductive IssueKind :=
| invalid_type (expected : string)
| not_integer
| too_small (minimum : Q)
| too_big (maximum : Q).

Record ZodIssue := Issue { kind : IssueKind; path : list string }.

Definition checkIssue (n : JsNumber) (c : check) : option IssueKind :=
  match c with
  | Int => if isInteger n then None else Some not_integer
  | Min m => if num_lt n m then Some (too_small m) else None
  | Max m => if num_gt n m then Some (too_big m) else None
  end.

(** A value of the wrong type yields one issue and skips the checks; a
    number runs every check, each failure adding an issue. *)
Fixpoint parseField (s : fieldSchema) (p : list string) (v : JsVal) : list ZodIssue :=
  match s with
  | ZNumber checks =>
      match v with
      | JNumber NaN => [Issue (invalid_type "number") p]
      | JNumber n => (λ k, Issue k p) <$> omap (checkIssue n) checks
      | _ => [Issue (invalid_type "number") p]
      end
  | ZBoolean =>
      match v with
      | JBool _ => []
      | _ => [Issue (invalid_type "boolean") p]
      end
  | ZOptional inner =>
      match v with
      | JUndefined => []
      | _ => parseField inner p v
      end
  end.

(** [z.object(shape).safeParse(data)]: the issues found (none on success).
    Keys outside the shape are ignored. *)
Definition safeParse (shape : objectSchema) (data : JsVal) : list ZodIssue :=
  match data with
  | JObject fields =>
      concat ((λ '(key, s), parseField s [key] (getProp fields key)) <$> shape)
  | _ => [Issue (invalid_type "object") []]
  end.

Definition downloadSettingsSchema : objectSchema :=
  [ ("maxParallelDownloads", ZOptional (ZNumber [Int; Min (1 # 1); Max (10 # 1)]));
    ("maxConcurrentChunks", ZOptional (ZNumber [Int; Min (1 # 1); Max (16 # 1)]));
    ("maxChunkRetries", ZOptional (ZNumber [Int; Min (0 # 1); Max (50 # 1)]));
    ("chunkOperationTimeoutMinutes", ZOptional (ZNumber [Min (1 # 2); Max (60 # 1)]));
    ("skipVerification", ZOptional ZBoolean);
    ("disableChunkedDownloads", ZOptional ZBoolean);
    ("turboDownload", ZOptional ZBoolean) ].

(** [{ success, data?, error? }]; [data] is left out of the model. *)
Record ZodValidationResult := { success : bool; error : option string }.

Section WithMessages.

(** The text Zod attaches to an issue. *)
Variable message : IssueKind → string.

(** [`${pathStr}${err.message}`] *)
Definition errorMessage (err : ZodIssue) : string :=
  let pathStr :=
    match path err with
    | [] => ""
    | _ => String.concat "." (path err) ++ ": "
    end in
  pathStr ++ message (kind err).

Definition validate (shape : objectSchema) (data : JsVal) : ZodValidationResult :=
  match safeParse shape data with
  | [] => {| success := true; error := None |}
  | issues =>
      {| success := false;
         error := Some (String.concat "; " (errorMessage <$> issues)) |}
  end.

Definition validateDownloadSettings (params : JsVal) : ZodValidationResult :=
  validate downloadSettingsSchema params.

End WithMessages.

(** *** The ranges, in the words of the specification *)

(** A field is supplied when the object binds it to something other than
    [undefined]. *)
Definition supplied (fields : list (string * JsVal)) (key : string) (v : JsVal) : Prop :=
  getProp fields key = v ∧ v ≠ JUndefined.

Definition integerIn (lo hi : Z) (v : JsVal) : Prop :=
  ∃ n : Z, lo ≤ n ≤ hi ∧ ∃ q, v = JNumber (Finite q) ∧ (q == inject_Z n)%Q.

Definition numberIn (lo hi : Q) (v : JsVal) : Prop :=
  ∃ q, v = JNumber (Finite q) ∧ (lo <= q)%Q ∧ (q <= hi)%Q.

Definition isBoolean (v : JsVal) : Prop := ∃ b, v = JBool b.

Definition settingsInRange (fields : list (string * JsVal)) : Prop :=
  (∀ v, supplied fields "maxParallelDownloads" v → integerIn 1 10 v)
  ∧ (∀ v, supplied fields "maxConcurrentChunks" v → integerIn 1 16 v)
  ∧ (∀ v, supplied fields "maxChunkRetries" v → integerIn 0 50 v)
  ∧ (∀ v, supplied fields "chunkOperationTimeoutMinutes" v → numberIn (1 # 2) (60 # 1) v)
  ∧ (∀ v, supplied fields "skipVerification" v → isBoolean v)
  ∧ (∀ v, supplied fields "disableChunkedDownloads" v → isBoolean v)
  ∧ (∀ v, supplied fields "turboDownload" v → isBoolean v).

Lemma isInteger_spec q :
  isInteger (Finite q) = true ↔ ∃ n : Z, (q == inject_Z n)%Q.
Proof.
  unfold isInteger. rewrite Z.eqb_eq. destruct q as [a b]. simpl.
  unfold Qeq. simpl. split.
  - intros Hmod. exists (a / Zpos b).
    rewrite Z.mul_1_r. rewrite Z.mul_comm. apply Z.div_exact; [lia | done].
  - intros [n Hn]. rewrite Z.mul_1_r in Hn. subst a. apply Z.mod_mul. lia.
Qed.

Lemma optional_supplied s p fields key :
  parseField (ZOptional s) p (getProp fields key) = []
  ↔ ∀ v, supplied fields key v → parseField s p v = [].
Proof.
  unfold supplied. split.
  - intros H v [<- Hv]. simpl in H.
    destruct (getProp fields key); try done.
  - intros H. simpl. destruct (getProp fields key) eqn:E; try done;
      apply H; split; done.
Qed.

Lemma parse_integer_range (lo hi : Z) p v :
  parseField (ZNumber [Int; Min (inject_Z lo); Max (inject_Z hi)]) p v = []
  ↔ integerIn lo hi v.
Proof.
  unfold integerIn. split.
  - intros H. destruct v as [| | |n| | |]; try discriminate.
    destruct n as [q| | |]; try discriminate.
    + simpl in H.
      destruct (Qnum q mod Z.pos (Qden q) =? 0) eqn:Hint; [|discriminate].
      destruct (Qle_bool (inject_Z lo) q) eqn:Hlo; [|discriminate].
      destruct (Qle_bool q (inject_Z hi)) eqn:Hhi; [|discriminate].
      apply (proj1 (isInteger_spec q)) in Hint as [n Hn].
      apply Qle_bool_iff in Hlo, Hhi. rewrite Hn in Hlo, Hhi.
      rewrite <- Zle_Qle in Hlo, Hhi.
      exists n. split; [lia|]. by exists q.
  - intros (n & Hn & q & -> & Hq). simpl.
    assert (isInteger (Finite q) = true) as Hint
      by (apply isInteger_spec; by exists n).
    simpl in Hint. rewrite Hint.
    assert (Qle_bool (inject_Z lo) q = true) as ->.
    { apply Qle_bool_iff. rewrite Hq, <- Zle_Qle. lia. }
    assert (Qle_bool q (inject_Z hi) = true) as ->.
    { apply Qle_bool_iff. rewrite Hq, <- Zle_Qle. lia. }
    reflexivity.
Qed.

Lemma parse_number_range (lo hi : Q) p v :
  parseField (ZNumber [Min lo; Max hi]) p v = [] ↔ numberIn lo hi v.
Proof.
  unfold numberIn. split.
  - intros H. destruct v as [| | |n| | |]; try discriminate.
    destruct n as [q| | |]; try discriminate.
    simpl in H.
    destruct (Qle_bool lo q) eqn:Hlo; [|discriminate].
    destruct (Qle_bool q hi) eqn:Hhi; [|discriminate].
    apply Qle_bool_iff in Hlo, Hhi. by exists q.
  - intros (q & -> & Hlo & Hhi). simpl.
    apply Qle_bool_iff in Hlo, Hhi. by rewrite Hlo, Hhi.
Qed.

Lemma parse_boolean p v : parseField ZBoolean p v = [] ↔ isBoolean v.
Proof.
  unfold isBoolean. split.
  - destruct v; try discriminate. by eexists.
  - by intros [b ->].
Qed.

Lemma safeParse_downloadSettings fields :
  safeParse downloadSettingsSchema (JObject fields) = [] ↔ settingsInRange fields.
Proof.
  unfold safeParse, downloadSettingsSchema, settingsInRange.
  cbn [fmap list_fmap concat].
  rewrite app_nil_r, !app_nil.
  rewrite !optional_supplied.
  change (1 # 1)%Q with (inject_Z 1). change (10 # 1)%Q with (inject_Z 10).
  change (16 # 1)%Q with (inject_Z 16). change (0 # 1)%Q with (inject_Z 0).
  change (50 # 1)%Q with (inject_Z 50).
  setoid_rewrite parse_integer_range.
  setoid_rewrite parse_number_range.
  setoid_rewrite parse_boolean.
  tauto.
Qed.

Lemma concat_nonempty sep x xs : x ≠ "" → String.concat sep (x :: xs) ≠ "".
Proof.
  intros Hx. destruct xs as [|y ys]; simpl; [done|].
  destruct x; [done | discriminate].
Qed.

Lemma parseField_path s : ∀ p v, Forall (λ i, path i = p) (parseField s p v).
Proof.
  induction s as [checks| |inner IH]; intros p v; simpl.
  - destruct v as [| | |[]| | |]; try (by repeat constructor);
      apply Forall_fmap, Forall_forall; done.
  - destruct v; by repeat constructor.
  - destruct v; try apply IH. constructor.
Qed.

Lemma issue_path_nonempty fields :
  Forall (λ i, path i ≠ []) (safeParse downloadSettingsSchema (JObject fields)).
Proof.
  unfold safeParse. apply Forall_concat, Forall_fmap, Forall_forall.
  intros [key s] _. simpl.
  eapply Forall_impl; [apply parseField_path|].
  intros i ->. discriminate.
Qed.

(** C7. [validateDownloadSettings] accepts a settings object exactly when
    every field it supplies lies in its range: [maxParallelDownloads] an
    integer in 1..10, [maxConcurrentChunks] an integer in 1..16,
    [maxChunkRetries] an integer in 0..50,
    [chunkOperationTimeoutMinutes] a number in 0.5..60 (and the three flags
    booleans). Otherwise the result has [success = false] and carries a
    non-empty error message. *)
Theorem C7_validateDownloadSettings_ranges :
  ∀ (message : IssueKind → string) (fields : list (string * JsVal)),
    (success (validateDownloadSettings message (JObject fields)) = true
     ↔ settingsInRange fields)
    ∧ (¬ settingsInRange fields →
       success (validateDownloadSettings message (JObject fields)) = false
       ∧ ∃ msg, error (validateDownloadSettings message (JObject fields)) = Some msg
                ∧ msg ≠ "").
Proof.
  intros message fields.
  pose proof (safeParse_downloadSettings fields) as Hspec.
  pose proof (issue_path_nonempty fields) as Hpath.
  unfold validateDownloadSettings, validate.
  destruct (safeParse downloadSettingsSchema (JObject fields)) as [|i issues]; simpl.
  - split; [tauto|]. intros Hn. exfalso. apply Hn, Hspec. reflexivity.
  - split.
    + split; [discriminate|]. intros Hr. apply Hspec in Hr. discriminate.
    + intros _. split; [done|]. eexists. split; [reflexivity|].
      apply (concat_nonempty "; " (errorMessage message i)
               (errorMessage message <$> issues)).
      inversion Hpath as [|? ? Hi _]; subst.
      unfold errorMessage. destruct (path i) as [|k ks]; [done|].
      destruct (String.concat "." (k :: ks)); discriminate.
Qed.

(** Short texts in place of Zod's, to run the validator on examples. *)
Definition shortMessage (k : IssueKind) : string :=
  match k with
  | invalid_type expected => "Expected " ++ expected
  | not_integer => "Expected integer"
  | too_small _ => "Number too small"
  | too_big _ => "Number too big"
  end.

Example settings_accepted :
  validateDownloadSettings shortMessage
    (JObject [ ("maxParallelDownloads", JNumber (Finite (10 # 1)));
               ("chunkOperationTimeoutMinutes", JNumber (Finite (1 # 2)));
               ("turboDownload", JBool true);
               ("theme", JString "dark") ])
  = {| success := true; error := None |}.
Proof. reflexivity. Qed.

Example settings_rejected :
  validateDownloadSettings shortMessage
    (JObject [ ("maxParallelDownloads", JNumber (Finite (11 # 1)));
               ("maxChunkRetries", JNumber (Finite (5 # 2))) ])
  = {| success := false;
       error := Some "maxParallelDownloads: Number too big; maxChunkRetries: Expected integer" |}.
Proof. reflexivity. Qed.

Lemma C7_witness :
  success (validateDownloadSettings shortMessage
             (JObject [ ("maxConcurrentChunks", JNumber (Finite (17 # 1))) ])) = false
  ∧ ∃ msg,
      error (validateDownloadSettings shortMessage
               (JObject [ ("maxConcurrentChunks", JNumber (Finite (17 # 1))) ]))
      = Some msg ∧ msg ≠ "".
Proof.
  apply (proj2 (C7_validateDownloadSettings_ranges shortMessage
                  [ ("maxConcurrentChunks", JNumber (Finite (17 # 1))) ])).
  intros (_ & H & _).
  destruct (H (JNumber (Finite (17 # 1)))) as (n & Hn & q & Hq & Heq).
  - split; [reflexivity | discriminate].
  - inversion Hq; subst q. unfold Qeq in Heq. simpl in Heq. lia.
Defined.

End Schemas.

(** ** engines/ChunkManager *)

Module ChunkManager.

(** The calls [cleanupChunk] makes on the resources of an entry, in the
    order they happen; they are the observable trace of a cleanup. *)
Inductive Effect :=
| ClearTimeout
| RequestAbort | RequestRemoveAllListeners | RequestOn (ev : string)
| ResponseRemoveAllListeners | ResponseOn (ev : string) | ResponseDestroy
| StreamRemoveAllListeners | StreamOn (ev : string) | StreamEnd | StreamDestroy
| ClearInterval
| LogWarn (chunkKey : string).

(** A resource tells, for each of its methods, whether calling it throws. *)
Record Request := { req_destroyed : bool; req_throws : Effect → bool }.
Record Response := { res_destroyed : bool; res_throws : Effect → bool }.
Record FileStream := {
  fs_destroyed : bool; fs_closed : bool; fs_writable : bool;
  fs_throws : Effect → bool
}.

Record ActiveChunkEntry := {
  request : option Request;
  response : option Response;
  fileStream : option FileStream;
  timeoutId : option nat;
  progressCheckInterval : option nat
}.

(** [Map<string, ActiveChunkEntry>], in insertion order. *)
Abbreviation Store := (list (string * ActiveChunkEntry)).

Definition keys (store : Store) : list string := fst <$> store.

Fixpoint get (store : Store) (chunkKey : string) : option ActiveChunkEntry :=
  match store with
  | [] => None
  | (k, e) :: rest => if String.eqb k chunkKey then Some e else get rest chunkKey
  end.

Definition delete (chunkKey : string) (store : Store) : Store :=
  filter (λ kv, negb (String.eqb (fst kv) chunkKey) = true) store.

Fixpoint set (chunkKey : string) (entry : ActiveChunkEntry) (store : Store) : Store :=
  match store with
  | [] => [(chunkKey, entry)]
  | (k, e) :: rest =>
      if String.eqb k chunkKey then (k, entry) :: rest
      else (k, e) :: set chunkKey entry rest
  end.

(** [ChunkManager.key] *)
Definition key (downloadId chunkIndex : Z) : string :=
  pretty downloadId ++ "-" ++ pretty chunkIndex.

(** *** Statements that may throw *)

(** A statement extends the trace and either completes ([true]) or throws
    ([false]). *)
Definition stmt := list Effect → bool * list Effect.

Definition skip : stmt := λ tr, (true, tr).

Definition call (throws : Effect → bool) (e : Effect) : stmt :=
  λ tr, (negb (throws e), (tr ++ [e])%list).

Definition builtin (e : Effect) : stmt := call (λ _, false) e.

Definition seq (a b : stmt) : stmt :=
  λ tr, let '(ok, tr') := a tr in if ok then b tr' else (false, tr').

Definition when (c : bool) (a : stmt) : stmt := if c then a else skip.

Declare Scope stmt_scope.
Delimit Scope stmt_scope with stmt.
Notation "a ;; b" := (seq a b) (at level 100, b at level 200,
                              right associativity) : stmt_scope.

(** The body of the [try] block of [cleanupChunk]. *)
Definition releaseResources (chunkActive : ActiveChunkEntry) : stmt :=
  (when (bool_decide (is_Some (timeoutId chunkActive))) (builtin ClearTimeout) ;;
   match request chunkActive with
   | Some r =>
       when (negb (req_destroyed r)) (call (req_throws r) RequestAbort) ;;
       call (req_throws r) RequestRemoveAllListeners ;;
       call (req_throws r) (RequestOn "error") ;;
       call (req_throws r) (RequestOn "close")
   | None => skip
   end ;;
   match response chunkActive with
   | Some r =>
       call (res_throws r) ResponseRemoveAllListeners ;;
       call (res_throws r) (ResponseOn "error") ;;
       call (res_throws r) (ResponseOn "close") ;;
       when (negb (res_destroyed r)) (call (res_throws r) ResponseDestroy)
   | None => skip
   end ;;
   match fileStream chunkActive with
   | Some f =>
       call (fs_throws f) StreamRemoveAllListeners ;;
       call (fs_throws f) (StreamOn "error") ;;
       when (negb (fs_destroyed f) && negb (fs_closed f))
         (if fs_writable f then call (fs_throws f) StreamEnd
          else call (fs_throws f) StreamDestroy)
   | None => skip
   end ;;
   when (bool_decide (is_Some (progressCheckInterval chunkActive)))
     (builtin ClearInterval))%stmt.

(** [try { ... } catch (error) { log.warn(...) }] followed by the delete. *)
Definition cleanupChunk (chunkKey : string) (store : Store) : Store * list Effect :=
  match get store chunkKey with
  | None => (store, [])
  | Some chunkActive =>
      let '(ok, tr) := releaseResources chunkActive [] in
      let tr := if ok then tr else (tr ++ [LogWarn chunkKey])%list in
      (delete chunkKey store, tr)
  end.

(** The loop of [cleanupForDownload] over the keys [ks] still to visit.
    Deleting the visited entry does not disturb the iteration of a [Map],
    so the keys visited are those of the store at the start. *)
Fixpoint cleanupKeys (prefix : string) (ks : list string) (store : Store)
  : Store * list Effect :=
  match ks with
  | [] => (store, [])
  | k :: ks =>
      if String.prefix prefix k then
        let '(store, tr1) := cleanupChunk k store in
        let '(store, tr2) := cleanupKeys prefix ks store in
        (store, (tr1 ++ tr2)%list)
      else cleanupKeys prefix ks store
  end.

Definition cleanupForDownload (downloadId : Z) (store : Store) : Store * list Effect :=
  let prefix := pretty downloadId ++ "-" in
  cleanupKeys prefix (keys store) store.

Lemma get_None_keys store chunkKey :
  get store chunkKey = None ↔ chunkKey ∉ keys store.
Proof.
  induction store as [|[k e] rest IH]; simpl.
  - split; [intros _; apply not_elem_of_nil | done].
  - rewrite not_elem_of_cons. destruct (String.eqb_spec k chunkKey) as [->|Hne].
    + split; [discriminate | intros [? _]; done].
    + rewrite IH. split; [intros ?; split; [congruence | done] | tauto].
Qed.

Lemma keys_delete store chunkKey k :
  k ∈ keys (delete chunkKey store) ↔ k ∈ keys store ∧ k ≠ chunkKey.
Proof.
  unfold keys, delete. rewrite !list_elem_of_fmap. split.
  - intros ([k' e] & -> & Hin). apply list_elem_of_filter in Hin as [Hne Hin].
    simpl in *. split; [by exists (k', e)|].
    apply negb_true_iff in Hne. intros ->. by rewrite String.eqb_refl in Hne.
  - intros [([k' e] & -> & Hin) Hne]. exists (k', e). split; [done|].
    apply list_elem_of_filter. split; [|done]. simpl in *.
    apply negb_true_iff. by apply String.eqb_neq.
Qed.

Lemma delete_absent store chunkKey :
  get store chunkKey = None → delete chunkKey store = store.
Proof.
  induction store as [|[k e] rest IH]; [done|]. intros Hrest. simpl in Hrest.
  destruct (String.eqb_spec k chunkKey) as [->|Hne]; [discriminate|].
  unfold delete. rewrite filter_cons_True.
  - f_equal. by apply IH.
  - simpl. by apply negb_true_iff, String.eqb_neq.
Qed.

Lemma cleanupChunk_store chunkKey store :
  fst (cleanupChunk chunkKey store) = delete chunkKey store.
Proof.
  unfold cleanupChunk. destruct (get store chunkKey) as [e|] eqn:Hget.
  - by destruct (releaseResources e []).
  - simpl. symmetry. by apply delete_absent.
Qed.

Lemma cleanupKeys_cons prefix k ks store :
  fst (cleanupKeys prefix (k :: ks) store)
  = if String.prefix prefix k
    then fst (cleanupKeys prefix ks (fst (cleanupChunk k store)))
    else fst (cleanupKeys prefix ks store).
Proof.
  simpl. destruct (String.prefix prefix k); [|done].
  destruct (cleanupChunk k store) as [s1 tr1]. simpl.
  by destruct (cleanupKeys prefix ks s1).
Qed.

Lemma cleanupKeys_keys prefix ks : ∀ store k,
  k ∈ keys (fst (cleanupKeys prefix ks store)) →
  k ∈ keys store ∧ (k ∈ ks → String.prefix prefix k = false).
Proof.
  induction ks as [|k0 ks IH]; intros store k Hk.
  - split; [done|]. intros Hin. by apply elem_of_nil in Hin.
  - rewrite cleanupKeys_cons in Hk.
    destruct (String.prefix prefix k0) eqn:Hp.
    + apply IH in Hk as [Hin Hks]. rewrite cleanupChunk_store in Hin.
      apply keys_delete in Hin as [Hin Hne]. split; [done|].
      intros [->|Hin']%elem_of_cons; [done | by apply Hks].
    + apply IH in Hk as [Hin Hks]. split; [done|].
      intros [->|Hin']%elem_of_cons; [done | by apply Hks].
Qed.

(** C10. After [cleanupForDownload(downloadId)] no key of the store starts
    with [`${downloadId}-`]. [cleanupChunk(key)] leaves no entry under
    [key], whether the release of the entry's resources completes or
    throws, and keeps every other entry; on a key with no entry it changes
    nothing and calls nothing. *)
Theorem C10_cleanup_removes_entries :
  ∀ store : Store,
    (∀ downloadId,
       Forall (λ k, String.prefix (pretty downloadId ++ "-") k = false)
              (keys (fst (cleanupForDownload downloadId store))))
    ∧ (∀ chunkKey,
         get (fst (cleanupChunk chunkKey store)) chunkKey = None
         ∧ (∀ k, k ≠ chunkKey →
              (k ∈ keys (fst (cleanupChunk chunkKey store)) ↔ k ∈ keys store)))
    ∧ (∀ chunkKey, get store chunkKey = None →
         cleanupChunk chunkKey store = (store, [])).
Proof.
  intros store. split; [|split].
  - intros downloadId. apply Forall_forall. intros k Hk.
    unfold cleanupForDownload in Hk.
    apply cleanupKeys_keys in Hk as [Hin Hp]. by apply Hp.
  - intros chunkKey. rewrite cleanupChunk_store. split.
    + apply get_None_keys. rewrite keys_delete. tauto.
    + intros k Hne. rewrite keys_delete. tauto.
  - intros chunkKey Hget. unfold cleanupChunk. by rewrite Hget.
Qed.

(** A request whose [abort] throws. *)
Definition brokenRequest : Request :=
  {| req_destroyed := false;
     req_throws := λ e, match e with RequestAbort => true | _ => false end |}.

Definition example_store : Store :=
  [ ("7-0", {| request := Some brokenRequest; response := None; fileStream := None;
               timeoutId := Some 1%nat; progressCheckInterval := None |});
    ("71-0", {| request := None; response := None;
                fileStream := Some {| fs_destroyed := false; fs_closed := false;
                                      fs_writable := true;
                                      fs_throws := λ _, false |};
                timeoutId := None; progressCheckInterval := Some 2%nat |});
    ("7-1", {| request := None; response := None; fileStream := None;
               timeoutId := None; progressCheckInterval := None |}) ].

Example cleanupChunk_throwing_resource :
  keys (fst (cleanupChunk "7-0" example_store)) = ["71-0"; "7-1"]
  ∧ snd (cleanupChunk "7-0" example_store) = [ClearTimeout; RequestAbort; LogWarn "7-0"].
Proof. split; reflexivity. Qed.

Example cleanupForDownload_runs :
  keys (fst (cleanupForDownload 7 example_store)) = ["71-0"]
  ∧ snd (cleanupForDownload 7 example_store)
    = [ClearTimeout; RequestAbort; LogWarn "7-0"].
Proof. split; vm_compute; reflexivity. Qed.

Lemma C10_witness : cleanupChunk "9-0" example_store = (example_store, []).
Proof.
  apply (proj2 (proj2 (C10_cleanup_removes_entries example_store)) "9-0").
  reflexivity.
Defined.

End ChunkManager.

(** ** utils/downloadPath *)

Module DownloadPath.

(** *** String primitives of JavaScript (on ASCII text) *)

Definition isSlash (c : ascii) : bool := Ascii.eqb c "/" || Ascii.eqb c "\".

Definition isSpace (c : ascii) : bool :=
  let n := nat_of_ascii c in
  ((9 <=? n) && (n <=? 13) || (n =? 32))%nat.

Definition isLetter (c : ascii) : bool :=
  let n := nat_of_ascii c in
  ((65 <=? n) && (n <=? 90) || (97 <=? n) && (n <=? 122))%nat.

Definition lowerChar (c : ascii) : ascii :=
  let n := nat_of_ascii c in
  if ((65 <=? n) && (n <=? 90))%nat then ascii_of_nat (n + 32) else c.

(** [s.toLowerCase()] *)
Fixpoint toLowerCase (s : string) : string :=
  match s with
  | EmptyString => EmptyString
  | String c rest => String (lowerChar c) (toLowerCase rest)
  end.

Fixpoint trimStart (s : string) : string :=
  match s with
  | EmptyString => EmptyString
  | String c rest => if isSpace c then trimStart rest else s
  end.

(** Drops the longest suffix made of characters satisfying [p]. *)
Fixpoint dropSuffix (p : ascii → bool) (s : string) : string :=
  match s with
  | EmptyString => EmptyString
  | String c rest =>
      match dropSuffix p rest with
      | EmptyString => if p c then EmptyString else String c EmptyString
      | kept => String c kept
      end
  end.

(** [s.trim()] *)
Definition trim (s : string) : string := dropSuffix isSpace (trimStart s).

(** [s.replace(/[/\\]+$/, '')] *)
Definition stripTrailingSlashes (s : string) : string := dropSuffix isSlash s.

(** [s.replace(/:$/, '')] *)
Fixpoint stripTrailingColon (s : string) : string :=
  match s with
  | EmptyString => EmptyString
  | String c EmptyString => if Ascii.eqb c ":" then EmptyString else s
  | String c rest => String c (stripTrailingColon rest)
  end.

(** [s.includes(sub)] *)
Definition includes (sub s : string) : bool :=
  match String.index 0 sub s with Some _ => true | None => false end.

(** [/^[A-Za-z]:$/.test(s)] *)
Definition isDriveLetter (s : string) : bool :=
  match s with
  | String c (String colon EmptyString) => isLetter c && Ascii.eqb colon ":"
  | _ => false
  end.

Example trim_example : trim "  /etc/	 " = "/etc/".
Proof. reflexivity. Qed.

Example strip_example :
  stripTrailingSlashes "/usr/lib//" = "/usr/lib" ∧ stripTrailingSlashes "/" = "".
Proof. split; reflexivity. Qed.

(** *** The [path] module and the environment *)

Inductive Platform := Win32 | Linux | Darwin | OtherPlatform.

(** The functions of Node's [path] that the module calls; they differ
    between [path.posix] and [path.win32]. *)
Record PathModule := {
  resolve : string → string;
  join : string → string → string;
  dirname : string → string;
  sep : string
}.

Inductive BlockReason := critical.
Inductive WarningReason := sensitive | readonly | admin.

Record DownloadPathValidationResult := Result {
  valid : bool;
  path : option string;
  error : option string;
  blockReason : option BlockReason;
  warningReason : option WarningReason
}.

(** What [fs.promises.access(p, W_OK)] does. *)
Inductive AccessResult := Granted | ENOENT | EACCES | EPERM | OtherError (message : string).

Section WithPlatform.

(** [path], [process.platform], [process.env.SYSTEMDRIVE] and the file
    system seen through [fs.promises.access]. *)
Variable P : PathModule.
Variable platform : Platform.
Variable SYSTEMDRIVE : option string.
Variable access : string → AccessResult.

Definition isWin32 : bool :=
  match platform with Win32 => true | _ => false end.

Definition normalizePathForValidation (input : string) : option string :=
  if String.eqb input "" then None
  else
    let trimmed := trim input in
    if (String.length trimmed =? 0)%nat then None
    else
      let resolved := resolve P trimmed in
      if includes ".." resolved then None else Some resolved.

Definition isSystemRoot (resolvedPath : string) : bool :=
  let normalized := stripTrailingSlashes resolvedPath in
  if isWin32 then isDriveLetter normalized || String.eqb normalized ""
  else String.eqb normalized "".

(** [process.env.SYSTEMDRIVE || 'C:'] with the colon removed and put back *)
Definition systemDriveRoot : string :=
  let systemDrive :=
    match SYSTEMDRIVE with
    | Some d => if String.eqb d "" then "C:" else d
    | None => "C:"
    end in
  stripTrailingColon systemDrive ++ ":".

(** The directories pushed on [critical], before they are resolved. *)
Definition criticalDirectories : list string :=
  match platform with
  | Win32 =>
      [ join P systemDriveRoot "Windows";
        join P systemDriveRoot "Program Files";
        join P systemDriveRoot "Program Files (x86)";
        join P systemDriveRoot "ProgramData";
        join P systemDriveRoot "Recovery";
        join P systemDriveRoot "System Volume Information";
        join P systemDriveRoot "$Recycle.Bin" ]
  | Linux =>
      [ "/bin"; "/sbin"; "/boot"; "/lib"; "/lib64"; "/usr/bin"; "/usr/lib";
        "/usr/sbin"; "/usr/share"; "/etc"; "/var"; "/dev"; "/proc"; "/sys" ]
  | Darwin =>
      [ "/System"; "/bin"; "/sbin"; "/usr/bin"; "/usr/lib"; "/Library";
        "/private"; "/private/var"; "/private/etc" ]
  | OtherPlatform => []
  end.

Definition getCriticalSystemPaths : list string :=
  (λ p, toLowerCase (resolve P p)) <$> criticalDirectories.

Definition sensitiveDirectories : list string :=
  (match platform with
   | Linux => [ "/root"; "/tmp"; "/run"; "/sys" ]
   | Darwin => [ "/Applications"; "/opt"; "/tmp"; "/var" ]
   | _ => []
   end
   ++ (if isWin32 then [ join P (join P systemDriveRoot "Users") "Public" ] else []))%list.

Definition getSensitivePaths : list string :=
  (λ p, toLowerCase (resolve P p)) <$> sensitiveDirectories.

Definition isPathUnder (resolvedPath : string) (basePaths : list string) : bool :=
  let pathLower := if isWin32 then toLowerCase resolvedPath else resolvedPath in
  let pathNorm := stripTrailingSlashes pathLower ++ sep P in
  existsb (λ base,
             let baseNorm := stripTrailingSlashes base ++ sep P in
             String.eqb pathNorm baseNorm || String.prefix baseNorm pathNorm)
          basePaths.

(** [None] when the recursion towards the root has not ended within
    [fuel] steps. *)
Fixpoint checkWriteAccess (fuel : nat) (dirPath : string) : option (bool * option string) :=
  match fuel with
  | O => None
  | S fuel =>
      match access dirPath with
      | Granted => Some (true, None)
      | ENOENT =>
          let parent := dirname P dirPath in
          if String.eqb parent dirPath then Some (false, Some "Ruta no válida")
          else checkWriteAccess fuel parent
      | EACCES | EPERM =>
          Some (false, Some "El directorio es de solo lectura o no tienes permisos")
      | OtherError message =>
          Some (false, Some (if String.eqb message "" then "Error de acceso" else message))
      end
  end.

Definition invalidPathResult : DownloadPathValidationResult :=
  Result false None (Some "Ruta no válida o contiene caracteres no permitidos") None None.

Definition systemRootResult (resolved : string) : DownloadPathValidationResult :=
  Result false (Some resolved)
    (Some "No se puede usar la raíz del sistema como carpeta de descargas")
    (Some critical) None.

Definition criticalDirectoryResult (resolved : string) : DownloadPathValidationResult :=
  Result false (Some resolved)
    (Some "No se puede usar este directorio porque es crítico para el sistema operativo. Selecciona otra ubicación.")
    (Some critical) None.

Definition validateDownloadPathSync (downloadPath : string)
  : DownloadPathValidationResult :=
  match normalizePathForValidation downloadPath with
  | None => invalidPathResult
  | Some resolved =>
      let resolvedNorm := if isWin32 then toLowerCase resolved else resolved in
      if isSystemRoot resolved then systemRootResult resolved
      else if isPathUnder resolvedNorm getCriticalSystemPaths
      then criticalDirectoryResult resolved
      else if isPathUnder resolvedNorm getSensitivePaths
      then Result true (Some resolved) None None (Some sensitive)
      else Result true (Some resolved) None None None
  end.

(** The promise of [validateDownloadPath], [None] while it is pending. *)
Definition validateDownloadPath (fuel : nat) (downloadPath : string)
  : option DownloadPathValidationResult :=
  match normalizePathForValidation downloadPath with
  | None => Some invalidPathResult
  | Some resolved =>
      let resolvedNorm := if isWin32 then toLowerCase resolved else resolved in
      if isSystemRoot resolved then Some (systemRootResult resolved)
      else if isPathUnder resolvedNorm getCriticalSystemPaths
      then Some (criticalDirectoryResult resolved)
      else
        let warningReason :=
          if isPathUnder resolvedNorm getSensitivePaths then Some sensitive else None in
        match checkWriteAccess fuel resolved with
        | None => None
        | Some (writable, err) =>
            if negb writable then
              Some (Result false (Some resolved)
                      (Some (match err with
                             | Some e => if String.eqb e "" then "No se puede escribir en esta ubicación" else e
                             | None => "No se puede escribir en esta ubicación"
                             end))
                      None (Some readonly))
            else Some (Result true (Some resolved) None None warningReason)
        end
  end.

End WithPlatform.

(** *** [path.posix], with the working directory as a parameter *)

Module Posix.

(** [s.split('/')] *)
Fixpoint segments (s : string) : list string :=
  match s with
  | EmptyString => [EmptyString]
  | String c rest =>
      if Ascii.eqb c "/" then EmptyString :: segments rest
      else match segments rest with
           | seg :: more => String c seg :: more
           | [] => [String c EmptyString]
           end
  end.

(** One step of [normalizeString]; the stack holds the segments kept so
    far, the last one first. *)
Definition pushSegment (allowAboveRoot : bool) (stack : list string) (seg : string)
  : list string :=
  if String.eqb seg "" || String.eqb seg "." then stack
  else if String.eqb seg ".." then
    match stack with
    | top :: below =>
        if String.eqb top ".." then
          (if allowAboveRoot then seg :: stack else stack)
        else below
    | [] => if allowAboveRoot then [seg] else []
    end
  else seg :: stack.

Definition normalizeString (p : string) (allowAboveRoot : bool) : string :=
  String.concat "/" (rev (fold_left (pushSegment allowAboveRoot) (segments p) [])).

Definition isAbsolute (p : string) : bool :=
  match p with String c _ => Ascii.eqb c "/" | EmptyString => false end.

Definition endsWithSlash (p : string) : bool :=
  match rev (list_ascii_of_string p) with
  | c :: _ => Ascii.eqb c "/"
  | [] => false
  end.

(** [path.resolve(p)] with [process.cwd() = cwd], an absolute path. *)
Definition resolve (cwd p : string) : string :=
  let full := if isAbsolute p then p else cwd ++ "/" ++ p in
  "/" ++ normalizeString full false.

Definition normalize (p : string) : string :=
  if String.eqb p "" then "."
  else
    let body := normalizeString p (negb (isAbsolute p)) in
    if String.eqb body "" then
      (if isAbsolute p then "/" else if endsWithSlash p then "./" else ".")
    else
      let body := if endsWithSlash p then body ++ "/" else body in
      if isAbsolute p then "/" ++ body else body.

Definition join (a b : string) : string :=
  if String.eqb a "" then (if String.eqb b "" then "." else normalize b)
  else if String.eqb b "" then normalize a
  else normalize (a ++ "/" ++ b).

(** The backwards scan of [dirname] over the characters at the indices
    [i, i-1, ..., 1], given last first. *)
Fixpoint scanDirname (cs : list ascii) (i : nat) (matchedSlash : bool) : option nat :=
  match cs with
  | [] => None
  | c :: cs =>
      if Ascii.eqb c "/" then
        if matchedSlash then scanDirname cs (i - 1) true else Some i
      else scanDirname cs (i - 1) false
  end.

Definition dirname (p : string) : string :=
  if String.eqb p "" then "."
  else
    let hasRoot := isAbsolute p in
    let chars := list_ascii_of_string p in
    match scanDirname (rev (tail chars)) (length chars - 1) true with
    | None => if hasRoot then "/" else "."
    | Some e =>
        if hasRoot && (e =? 1)%nat then "//"
        else String.substring 0 e p
    end.

Definition module (cwd : string) : PathModule :=
  {| DownloadPath.resolve := resolve cwd;
     DownloadPath.join := join;
     DownloadPath.dirname := dirname;
     sep := "/" |}.

Example resolve_examples :
  resolve "/home/ana" "/etc/../usr//lib/" = "/usr/lib"
  ∧ resolve "/home/ana" "roms/./snes" = "/home/ana/roms/snes"
  ∧ resolve "/home/ana" "../../.." = "/"
  ∧ resolve "/home/ana" "/etc/..cache" = "/etc/..cache".
Proof. repeat split. Qed.

Example dirname_examples :
  dirname "/home/ana/roms" = "/home/ana" ∧ dirname "/home" = "/"
  ∧ dirname "/" = "/" ∧ dirname "roms" = ".".
Proof. repeat split. Qed.

End Posix.

(** *** Properties *)

(** Case folding as the comparison applies it to the candidate path. *)
Definition foldCase (platform : Platform) (s : string) : string :=
  if isWin32 platform then toLowerCase s else s.

(** [p] is [base] itself or lies below it; trailing separators do not
    count. *)
Definition equalOrUnder (sep p base : string) : Prop :=
  let b := stripTrailingSlashes base ++ sep in
  let q := stripTrailingSlashes p ++ sep in
  q = b ∨ String.prefix b q = true.

Lemma lowerChar_idem c : lowerChar (lowerChar c) = lowerChar c.
Proof. destruct c as [[] [] [] [] [] [] [] []]; reflexivity. Qed.

Lemma toLowerCase_idem s : toLowerCase (toLowerCase s) = toLowerCase s.
Proof. induction s as [|c s IH]; simpl; [done|]. by rewrite lowerChar_idem, IH. Qed.

Lemma foldCase_idem platform s :
  foldCase platform (foldCase platform s) = foldCase platform s.
Proof. unfold foldCase. destruct (isWin32 platform); [apply toLowerCase_idem | done]. Qed.

Lemma isPathUnder_critical P platform SYSTEMDRIVE resolved dir :
  dir ∈ criticalDirectories P platform SYSTEMDRIVE →
  (isWin32 platform = false → toLowerCase (resolve P dir) = resolve P dir) →
  equalOrUnder (sep P) (foldCase platform resolved) (foldCase platform (resolve P dir)) →
  isPathUnder P platform (foldCase platform resolved)
    (getCriticalSystemPaths P platform SYSTEMDRIVE) = true.
Proof.
  intros Hdir Hlower Hunder. unfold isPathUnder.
  apply existsb_exists. exists (toLowerCase (resolve P dir)). split.
  - apply list_elem_of_In. unfold getCriticalSystemPaths.
    apply list_elem_of_fmap. by exists dir.
  - fold (foldCase platform (foldCase platform resolved)).
    rewrite foldCase_idem.
    assert (toLowerCase (resolve P dir) = foldCase platform (resolve P dir)) as ->.
    { unfold foldCase. destruct (isWin32 platform); [done | by apply Hlower]. }
    destruct Hunder as [-> | ->]; [|by rewrite orb_true_r].
    by rewrite String.eqb_refl.
Qed.

(** Where the comparison works. An input that does not normalise (empty
    after trimming, or whose resolved form contains [..]) is rejected with
    [valid = false] and no [blockReason]. An input that normalises to the
    system root, or to a path equal to or under a critical directory whose
    resolved name the comparison can match (any on Windows, where both
    sides are lower-cased; elsewhere a name that is its own lower case), is
    rejected with [valid = false] and [blockReason = 'critical'], by
    [validateDownloadPathSync] and by [validateDownloadPath] alike. *)
Theorem critical_directories_blocked_where_case_matches :
  ∀ P platform SYSTEMDRIVE access input,
    (normalizePathForValidation P input = None →
       validateDownloadPathSync P platform SYSTEMDRIVE input = invalidPathResult
       ∧ ∀ fuel, validateDownloadPath P platform SYSTEMDRIVE access fuel input
                 = Some invalidPathResult)
    ∧ (∀ resolved,
         normalizePathForValidation P input = Some resolved →
         (isSystemRoot platform resolved = true
          ∨ ∃ dir,
              dir ∈ criticalDirectories P platform SYSTEMDRIVE
              ∧ (isWin32 platform = false →
                 toLowerCase (resolve P dir) = resolve P dir)
              ∧ equalOrUnder (sep P) (foldCase platform resolved)
                  (foldCase platform (resolve P dir))) →
         ∃ r,
           validateDownloadPathSync P platform SYSTEMDRIVE input = r
           ∧ (∀ fuel, validateDownloadPath P platform SYSTEMDRIVE access fuel input
                      = Some r)
           ∧ valid r = false
           ∧ blockReason r = Some critical
           ∧ path r = Some resolved).
Proof.
  intros P platform SYSTEMDRIVE access input. split.
  - intros Hnorm. unfold validateDownloadPathSync, validateDownloadPath.
    by rewrite Hnorm.
  - intros resolved Hnorm Hcase.
    unfold validateDownloadPathSync, validateDownloadPath. rewrite Hnorm.
    destruct (isSystemRoot platform resolved) eqn:Hroot.
    + exists (systemRootResult resolved). by repeat split.
    + destruct Hcase as [Hr | (dir & Hdir & Hlower & Hunder)]; [discriminate|].
      fold (foldCase platform resolved).
      rewrite (isPathUnder_critical _ _ _ _ dir) by done.
      exists (criticalDirectoryResult resolved). by repeat split.
Qed.

(** On Linux the critical directories are all lower-case, so the case
    caveat is void there. *)
Lemma linux_critical_lowercase cwd dir :
  dir ∈ criticalDirectories (Posix.module cwd) Linux None →
  toLowerCase (resolve (Posix.module cwd) dir) = resolve (Posix.module cwd) dir.
Proof.
  simpl. rewrite !elem_of_cons, elem_of_nil.
  intros H; repeat (destruct H as [->|H]; [reflexivity|]); done.
Qed.

(** The guard against [..] comes first: [/etc/..cache] resolves to
    itself, a path under the critical directory [/etc] of Linux, and is
    rejected by [normalizePathForValidation], with [valid = false] but
    without [blockReason = 'critical']. *)
Example dotdot_rejected_before_the_critical_check :
  resolve (Posix.module "/home/ana") (trim "/etc/..cache") = "/etc/..cache"
  ∧ "/etc" ∈ criticalDirectories (Posix.module "/home/ana") Linux None
  ∧ equalOrUnder "/" "/etc/..cache" "/etc"
  ∧ validateDownloadPathSync (Posix.module "/home/ana") Linux None "/etc/..cache"
    = invalidPathResult
  ∧ blockReason invalidPathResult = None.
Proof.
  split; [reflexivity|]. split; [|split; [|split; reflexivity]].
  - simpl. rewrite !elem_of_cons. tauto.
  - right. reflexivity.
Qed.

Lemma dropSuffix_keeps_head p c1 c2 rest :
  p c2 = false →
  ∃ rest', dropSuffix p (String c1 (String c2 rest)) = String c1 (String c2 rest').
Proof.
  intros Hc2. cbn [dropSuffix]. rewrite Hc2.
  destruct (dropSuffix p rest); eexists; reflexivity.
Qed.

(** On macOS no resolved path that starts with a capital [/S] or [/L] is
    blocked or flagged: every base of the critical and of the sensitive
    list has been lower-cased, the candidate has not. The trees of
    [/System] and [/Library] are accepted whole. *)
Lemma darwin_capitalised_trees_accepted cwd SYSTEMDRIVE input c rest :
  c = "S"%char ∨ c = "L"%char →
  normalizePathForValidation (Posix.module cwd) input = Some (String "/" (String c rest)) →
  validateDownloadPathSync (Posix.module cwd) Darwin SYSTEMDRIVE input
  = Result true (Some (String "/" (String c rest))) None None None.
Proof.
  intros Hc Hnorm. unfold validateDownloadPathSync. rewrite Hnorm.
  destruct (dropSuffix_keeps_head isSlash "/" c rest) as [rest' Hstrip].
  { by destruct Hc as [-> | ->]. }
  unfold isSystemRoot, isPathUnder, stripTrailingSlashes. cbn [isWin32].
  rewrite Hstrip. by destruct Hc as [-> | ->].
Qed.

(** C8. On macOS the claim fails. [/System] is one of the critical
    directories the code lists for the platform and [/System/Library] lies
    under it, yet [validateDownloadPathSync] accepts it with no warning,
    and so does [validateDownloadPath] once the directory is writable:
    [getCriticalSystemPaths] lower-cases every base, while the candidate
    path is lower-cased on Windows only, so the comparison looks for
    [/system/] at the head of [/System/Library/]. The same path spelt in
    lower case is blocked, as is a critical directory of Linux. *)
Theorem C8_darwin_System_Library_is_accepted :
  ∀ cwd,
    let P := Posix.module cwd in
    "/System" ∈ criticalDirectories P Darwin None
    ∧ "/system" ∈ getCriticalSystemPaths P Darwin None
    ∧ normalizePathForValidation P "/System/Library" = Some "/System/Library"
    ∧ equalOrUnder (sep P) "/System/Library" (resolve P "/System")
    ∧ validateDownloadPathSync P Darwin None "/System/Library"
      = Result true (Some "/System/Library") None None None
    ∧ (∀ fuel, validateDownloadPath P Darwin None (λ _, Granted) (S fuel) "/System/Library"
               = Some (Result true (Some "/System/Library") None None None))
    ∧ validateDownloadPathSync P Darwin None "/system/library"
      = criticalDirectoryResult "/system/library"
    ∧ validateDownloadPathSync P Linux None "/etc/ssl"
      = criticalDirectoryResult "/etc/ssl".
Proof.
  intros cwd P. subst P.
  split; [simpl; rewrite !elem_of_cons; tauto|].
  split; [unfold getCriticalSystemPaths; simpl; rewrite !elem_of_cons; tauto|].
  split; [reflexivity|].
  split; [right; reflexivity|].
  split; [reflexivity|].
  split; [intros fuel; reflexivity|].
  split; reflexivity.
Qed.

(** The same slip on [/Library]. *)
Example darwin_Library_not_blocked :
  validateDownloadPathSync (Posix.module "/Users/ana") Darwin None
    "/Library/LaunchDaemons"
  = Result true (Some "/Library/LaunchDaemons") None None None.
Proof.
  apply (darwin_capitalised_trees_accepted _ _ _ "L" "ibrary/LaunchDaemons");
    [by right | reflexivity].
Qed.

Example linux_root_blocked :
  validateDownloadPathSync (Posix.module "/home/ana") Linux None "../../.."
  = systemRootResult "/".
Proof. reflexivity. Qed.

Example linux_home_accepted :
  validateDownloadPathSync (Posix.module "/home/ana") Linux None "roms/snes"
  = Result true (Some "/home/ana/roms/snes") None None None
  ∧ validateDownloadPath (Posix.module "/home/ana") Linux None
      (λ p, if String.eqb p "/home/ana" then Granted else ENOENT) 4 "roms/snes"
    = Some (Result true (Some "/home/ana/roms/snes") None None None).
Proof. split; reflexivity. Qed.

Example linux_usr_lib_blocked :
  validateDownloadPathSync (Posix.module "/home/ana") Linux None "  /usr/lib/roms/ "
  = criticalDirectoryResult "/usr/lib/roms".
Proof. reflexivity. Qed.

Lemma critical_directories_blocked_example :
  validateDownloadPathSync (Posix.module "/home/ana") Linux None "" = invalidPathResult
  ∧ ∃ r,
      validateDownloadPathSync (Posix.module "/home/ana") Linux None " /etc/ssl/ " = r
      ∧ (∀ fuel, validateDownloadPath (Posix.module "/home/ana") Linux None
                   (λ _, Granted) fuel " /etc/ssl/ " = Some r)
      ∧ valid r = false ∧ blockReason r = Some critical ∧ path r = Some "/etc/ssl".
Proof.
  pose proof (critical_directories_blocked_where_case_matches
                (Posix.module "/home/ana") Linux None (λ _, Granted)) as H.
  split.
  - apply (proj1 (H "")). reflexivity.
  - apply (proj2 (H " /etc/ssl/ ") "/etc/ssl"); [reflexivity|].
    right. exists "/etc". split; [|split].
    + simpl. rewrite !elem_of_cons. tauto.
    + intros _. reflexivity.
    + right. reflexivity.
Defined.

End DownloadPath.

(** * Further properties of the modules above *)

(** ** engines/SessionManager: sessions of one download, and of others *)

Module SessionManagerFacts.
Import SessionManager.

(** X1. Right after [createSession(id)] the manager reports the token it
    returned, and that token is the only non-empty string current for
    [id]: a token of an earlier run is current again only if it is the very
    same string. *)
Theorem X1_createSession_supersedes_previous_token :
  ∀ m d now rnd,
    getSessionId (snd (createSession d now rnd m)) d
    = Some (fst (createSession d now rnd m))
    ∧ ∀ s, s ≠ "" →
        (isCurrent (snd (createSession d now rnd m)) d (Some s) = true
         ↔ s = fst (createSession d now rnd m)).
Proof.
  intros m d now rnd. simpl. split.
  - unfold getSessionId. simpl. by rewrite lookup_insert_eq.
  - intros s Hs. unfold isCurrent, getSessionId. simpl.
    destruct s as [|a s]; [done|]. simpl.
    rewrite lookup_insert_eq, bool_decide_eq_true. split; congruence.
Qed.

Lemma X1_witness :
  isCurrent (snd (createSession 7 1700000000500 "zzzzzzzzz"
                    (snd (createSession 7 1700000000000 "k3j2h1g0f" empty))))
    7 (Some "1700000000000-k3j2h1g0f") = true
  ↔ "1700000000000-k3j2h1g0f" = "1700000000500-zzzzzzzzz".
Proof.
  apply (proj2 (X1_createSession_supersedes_previous_token
                  (snd (createSession 7 1700000000000 "k3j2h1g0f" empty))
                  7 1700000000500 "zzzzzzzzz") "1700000000000-k3j2h1g0f").
  discriminate.
Defined.

(** X2. Sessions are kept per download: a [createSession] or an
    [invalidate] for one id changes neither the stored session nor any
    [isCurrent] answer of another id; and invalidating twice is the same as
    invalidating once (also for an id that never had a session). *)
Theorem X2_sessions_are_independent_per_download :
  ∀ m c d,
    (target c ≠ d →
       getSessionId (step m c) d = getSessionId m d
       ∧ ∀ s, isCurrent (step m c) d s = isCurrent m d s)
    ∧ invalidate d (invalidate d m) = invalidate d m
    ∧ getSessionId (invalidate d m) d = None.
Proof.
  intros m c d. split; [|split].
  - intros Hne. pose proof (step_other m c d Hne) as Hget. split; [done|].
    intros s. unfold isCurrent. by rewrite Hget.
  - unfold invalidate. simpl. f_equal. apply map_eq. intros i.
    destruct (decide (i = d)) as [->|Hne].
    + by rewrite !lookup_delete_eq.
    + by rewrite !lookup_delete_ne.
  - unfold getSessionId, invalidate. simpl. apply lookup_delete_eq.
Qed.

Lemma X2_witness :
  getSessionId (step (snd (createSession 7 1700000000000 "k3j2h1g0f" empty))
                  (Invalidate 8)) 7
  = getSessionId (snd (createSession 7 1700000000000 "k3j2h1g0f" empty)) 7.
Proof.
  apply (proj1 (X2_sessions_are_independent_per_download
                  (snd (createSession 7 1700000000000 "k3j2h1g0f" empty))
                  (Invalidate 8) 7)).
  simpl. lia.
Defined.

End SessionManagerFacts.

(** ** utils/partialIntegrity: what the checkpoint does and does not detect *)

Module PartialIntegrityFacts.
Import PartialIntegrity.

Section WithCrypto.

Variable sha256_hex : bytes → string.
Variable allocUnsafe : nat → bytes.

(** X3. A checkpoint taken with [hashLastNBytes] on a part file verifies
    against that same file: with the size reported by [fs.stat] and the
    hash just computed, [verifyPartialTail] answers [true]; with any other
    expected size it answers [false]. *)
Theorem X3_checkpoint_round_trip :
  ∀ (fs : filesystem) filePath size hash,
    fs_stat fs filePath = Some size →
    hashLastNBytes sha256_hex allocUnsafe fs filePath size PARTIAL_TAIL_BYTES = Some hash →
    verifyPartialTail sha256_hex allocUnsafe fs filePath size hash = true
    ∧ ∀ expectedSize, expectedSize ≠ size →
        verifyPartialTail sha256_hex allocUnsafe fs filePath expectedSize hash = false.
Proof.
  intros fs p size h Hstat Hhash. unfold verifyPartialTail, verifyPartialTail_n.
  rewrite Hstat. split.
  - rewrite Z.eqb_refl. cbn [negb]. rewrite Hhash. apply String.eqb_refl.
  - intros es Hne. apply Z.eqb_neq in Hne. rewrite Z.eqb_sym in Hne.
    by rewrite Hne.
Qed.

Lemma last_bytes_insert (file : bytes) (n i : nat) b :
  (i + n < length file)%nat →
  last_bytes n (<[i := b]> file) = last_bytes n file.
Proof.
  intros Hi. unfold last_bytes. rewrite length_insert.
  apply drop_insert_lt. lia.
Qed.

(** X4. Only the size and the last 65536 bytes count: overwriting a byte
    that lies before the tail of a readable part file leaves the answer of
    [verifyPartialTail] unchanged, for every expected size and hash. *)
Theorem X4_bytes_before_the_tail_are_not_checked :
  ∀ (fs : gmap string node) filePath (file : bytes) (i : nat) b expectedSize expectedHash,
    Z.of_nat i + PARTIAL_TAIL_BYTES < Z.of_nat (length file) →
    verifyPartialTail sha256_hex allocUnsafe
      (<[filePath := File (<[i := b]> file) true]> fs) filePath expectedSize expectedHash
    = verifyPartialTail sha256_hex allocUnsafe
        (<[filePath := File file true]> fs) filePath expectedSize expectedHash.
Proof.
  intros fs p file i b es eh Hi.
  unfold verifyPartialTail, verifyPartialTail_n, fs_stat, filesystem.
  rewrite !lookup_insert_eq. cbn [fmap option_fmap option_map content].
  rewrite length_insert.
  destruct (negb (Z.of_nat (length file) =? es)); [done|].
  rewrite <- (length_insert file i b) at 1.
  rewrite !(hashLastNBytes_readable sha256_hex allocUnsafe _ p)
    by apply lookup_insert_eq.
  rewrite length_insert, last_bytes_insert; [done|].
  unfold tail_length. pose proof PARTIAL_TAIL_BYTES_pos. lia.
Qed.

(** X5. [hashLastNBytes] with an explicit [nBytes]: a size of zero or less
    gives the hash of the empty input without opening the file; for a
    readable file of [fileSize > 0] bytes a negative [nBytes] makes the
    promise reject, and otherwise the hash is that of the last
    [min(nBytes, fileSize)] bytes. A file that cannot be opened rejects. *)
Theorem X5_hashLastNBytes_by_cases :
  ∀ (fs : filesystem) filePath nBytes,
    (∀ fileSize, fileSize ≤ 0 →
       hashLastNBytes sha256_hex allocUnsafe fs filePath fileSize nBytes
       = Some (sha256_hex []))
    ∧ (∀ file, fs !! filePath = Some (File file true) → (0 < length file)%nat →
         hashLastNBytes sha256_hex allocUnsafe fs filePath (Z.of_nat (length file)) nBytes
         = if nBytes <? 0 then None
           else Some (sha256_hex
                        (last_bytes (Z.to_nat (Z.min nBytes (Z.of_nat (length file)))) file)))
    ∧ (∀ fileSize, 0 < fileSize → fs_open fs filePath = None →
         hashLastNBytes sha256_hex allocUnsafe fs filePath fileSize nBytes = None).
Proof.
  intros fs p N. unfold hashLastNBytes. split; [|split].
  - intros size Hsize. by destruct (Z.leb_spec size 0); [|lia].
  - intros file Hp Hlen. unfold fs_open. rewrite Hp. cbn [readable content].
    destruct (Z.leb_spec (Z.of_nat (length file)) 0); [lia|].
    destruct (Z.ltb_spec N 0) as [Hneg|Hpos].
    + by destruct (Z.ltb_spec (Z.min N (Z.of_nat (length file))) 0); [|lia].
    + destruct (Z.ltb_spec (Z.min N (Z.of_nat (length file))) 0); [lia|].
      f_equal. f_equal.
      replace (Z.to_nat (Z.of_nat (length file) - Z.min N (Z.of_nat (length file))))
        with (length file - Z.to_nat (Z.min N (Z.of_nat (length file))))%nat by lia.
      apply handle_read_tail; [lia|]. rewrite length_take. lia.
  - intros size Hsize Hopen. destruct (Z.leb_spec size 0); [lia|]. by rewrite Hopen.
Qed.

End WithCrypto.

Lemma X3_witness :
  verifyPartialTail length_digest (λ n, replicate n Byte.x00)
    example_fs "chunk-0000.part" 3 "3" = true.
Proof.
  apply (X3_checkpoint_round_trip length_digest (λ n, replicate n Byte.x00)
           example_fs "chunk-0000.part" 3 "3"); reflexivity.
Defined.

(** A part file of 70000 zero bytes. *)
Definition big_part : bytes := replicate (Z.to_nat 70000) Byte.x00.

Lemma X4_witness :
  verifyPartialTail length_digest (λ n, replicate n Byte.x00)
    (<["rom.part" := File (<[100%nat := Byte.xff]> big_part) true]> ∅)
    "rom.part" 70000 "65536"
  = verifyPartialTail length_digest (λ n, replicate n Byte.x00)
      (<["rom.part" := File big_part true]> ∅) "rom.part" 70000 "65536".
Proof.
  apply (X4_bytes_before_the_tail_are_not_checked length_digest
           (λ n, replicate n Byte.x00) ∅ "rom.part" big_part 100 Byte.xff).
  unfold big_part, PARTIAL_TAIL_BYTES. rewrite length_replicate. lia.
Defined.

Lemma X5_witness :
  hashLastNBytes length_digest (λ n, replicate n Byte.x00)
    example_fs "chunk-0000.part" 3 2 = Some "2"
  ∧ hashLastNBytes length_digest (λ n, replicate n Byte.x00)
      example_fs "chunk-0000.part" 0 2 = Some "0"
  ∧ hashLastNBytes length_digest (λ n, replicate n Byte.x00)
      example_fs "chunk-0002.part" 2 2 = None.
Proof.
  pose proof (X5_hashLastNBytes_by_cases length_digest (λ n, replicate n Byte.x00)
                example_fs) as W.
  split; [|split].
  - apply (proj1 (proj2 (W "chunk-0000.part" 2)) [Byte.x01; Byte.x02; Byte.x03]).
    + reflexivity.
    + simpl. lia.
  - apply (proj1 (W "chunk-0000.part" 2)). lia.
  - apply (proj2 (proj2 (W "chunk-0002.part" 2))); [lia | reflexivity].
Defined.

End PartialIntegrityFacts.

(** ** engines/EventBus: traces with [clear()] *)

Module EventBusFacts.
Import EventBus.

(** What can happen to the bus: a call of [emitStateChanged], the timers
    phase of the event loop, or a call of [clear()]. [clear()] also removes
    the listeners; [emitted] lists what the bus hands to [emit], with or
    without listeners. *)
Inductive action :=
| Emit (now stateVersion : Z)
| Tick (now : Z)
| Clear.

Section WithConfig.

Variable configured : option Z.

Definition act (bus : t) (a : action) : t :=
  match a with
  | Emit now v => emitStateChanged configured now v bus
  | Tick now => step configured bus (Timers now)
  | Clear => clear bus
  end.

Definition runActions (acts : list action) (bus : t) : t := fold_left act acts bus.

(** The versions handed to [emitStateChanged], in call order. *)
Fixpoint requested (acts : list action) : list Z :=
  match acts with
  | [] => []
  | Emit _ v :: acts => v :: requested acts
  | _ :: acts => requested acts
  end.

Definition emittedVersions (bus : t) : list Z := stateVersion <$> emitted bus.

(** Emitted versions followed by the pending one, if any. *)
Definition versionsInFlight (bus : t) : list Z :=
  (emittedVersions bus ++ option_list (_stateChangePending bus))%list.

Lemma act_versions bus a :
  versionsInFlight (act bus a)
  `sublist_of` (versionsInFlight bus ++ requested [a])%list.
Proof.
  unfold versionsInFlight, emittedVersions.
  destruct bus as [pending timer out]. destruct a as [now v|now|]; simpl.
  - unfold emitStateChanged. simpl. destruct timer; simpl;
      (apply sublist_app; [apply sublist_inserts_r; done | done]).
  - rewrite app_nil_r. destruct timer as [deadline|]; [|done].
    destruct (deadline <=? now); [|done].
    unfold timerCallback. simpl. destruct pending; simpl.
    + by rewrite fmap_app, app_nil_r.
    + by rewrite !app_nil_r.
  - rewrite !app_nil_r. apply sublist_inserts_r. done.
Qed.

Lemma requested_cons a acts : requested (a :: acts) = (requested [a] ++ requested acts)%list.
Proof. by destruct a. Qed.

Lemma runActions_versions acts : ∀ bus,
  versionsInFlight (runActions acts bus)
  `sublist_of` (versionsInFlight bus ++ requested acts)%list.
Proof.
  induction acts as [|a acts IH]; intros bus.
  - simpl. by rewrite app_nil_r.
  - rewrite (requested_cons a acts), app_assoc.
    change (runActions (a :: acts) bus) with (runActions acts (act bus a)).
    etrans; [apply IH|].
    apply sublist_app; [apply act_versions | done].
Qed.

Lemma Forall_sublist {A} (P : A → Prop) (l1 l2 : list A) :
  l1 `sublist_of` l2 → Forall P l2 → Forall P l1.
Proof.
  induction 1 as [|x l1 l2 Hsub IH|x l1 l2 Hsub IH]; intros Hall; [done|..].
  - apply Forall_cons in Hall as [Hx Hall]. constructor; [done | by apply IH].
  - apply Forall_cons in Hall as [_ Hall]. by apply IH.
Qed.

Lemma StronglySorted_sublist {A} (R : relation A) (l1 l2 : list A) :
  l1 `sublist_of` l2 → StronglySorted R l2 → StronglySorted R l1.
Proof.
  induction 1 as [|x l1 l2 Hsub IH|x l1 l2 Hsub IH]; intros Hs; [done|..].
  - apply StronglySorted_inv in Hs as [Hs Hall]. constructor; [by apply IH|].
    by eapply Forall_sublist.
  - apply StronglySorted_inv in Hs as [Hs _]. by apply IH.
Qed.

(** X6. Whatever the interleaving of [emitStateChanged], timer turns and
    [clear()] on a new bus, the versions emitted with ['stateChanged'] are,
    in order, a subsequence of the versions handed to [emitStateChanged]:
    no version is invented, repeated or reordered. So there are at most as
    many emissions as calls, and if the calls carry strictly increasing
    versions the emissions do too. *)
Theorem X6_emitted_versions_are_a_subsequence_of_the_calls :
  ∀ acts,
    emittedVersions (runActions acts new) `sublist_of` requested acts
    ∧ (length (emitted (runActions acts new)) ≤ length (requested acts))%nat
    ∧ (StronglySorted Z.lt (requested acts) →
       StronglySorted Z.lt (emittedVersions (runActions acts new))).
Proof.
  intros acts.
  assert (emittedVersions (runActions acts new) `sublist_of` requested acts) as Hsub.
  { etrans; [|apply (runActions_versions acts new)].
    unfold versionsInFlight. apply sublist_inserts_r. done. }
  split; [done|]. split.
  - apply sublist_length in Hsub. unfold emittedVersions in Hsub.
    by rewrite length_fmap in Hsub.
  - by apply StronglySorted_sublist.
Qed.

(** X7. [clear()] cancels the debounce: a version handed to
    [emitStateChanged] and followed by [clear()] is not emitted by any later
    turn of the timers, and the bus is left with no timer and no pending
    version. *)
Theorem X7_clear_drops_the_pending_emission :
  ∀ bus now v ticks,
    runActions (Emit now v :: Clear :: (Tick <$> ticks)) bus
    = Build None None (emitted bus).
Proof.
  intros bus now v ticks. simpl.
  assert (emitted (emitStateChanged configured now v bus) = emitted bus) as Hout.
  { unfold emitStateChanged. simpl. by destruct (_stateChangeTimer bus). }
  unfold clear. rewrite Hout. generalize (emitted bus). intros out.
  induction ticks as [|tk ticks IH]; simpl; done.
Qed.

(** Reachable from a new bus. *)
Definition reachable (bus : t) : Prop := ∃ acts, bus = runActions acts new.

Lemma armed_iff_pending_step bus a :
  (is_Some (_stateChangeTimer bus) ↔ is_Some (_stateChangePending bus)) →
  (is_Some (_stateChangeTimer (act bus a)) ↔ is_Some (_stateChangePending (act bus a))).
Proof.
  destruct bus as [pending timer out]. destruct a as [now v|now|]; simpl; intros Hinv.
  - unfold emitStateChanged. simpl. destruct timer; simpl; split; eauto.
  - destruct timer as [deadline|]; [|done].
    destruct (deadline <=? now); [|done].
    unfold timerCallback. simpl. destruct pending; simpl; split; intros [? ?]; done.
  - unfold clear. simpl. split; intros [? ?]; done.
Qed.

Lemma armed_iff_pending_run acts : ∀ bus,
  (is_Some (_stateChangeTimer bus) ↔ is_Some (_stateChangePending bus)) →
  (is_Some (_stateChangeTimer (runActions acts bus))
   ↔ is_Some (_stateChangePending (runActions acts bus))).
Proof.
  induction acts as [|a acts IH]; intros bus Hinv; simpl; [done|].
  by apply IH, armed_iff_pending_step.
Qed.

(** X8. On every bus reached from a new one, a timeout is armed exactly
    when a version is pending. So the guard [v != null] of the timer
    callback never fails: each time the timers phase finds the deadline
    passed, exactly one ['stateChanged'] is emitted, stamped with the time
    of that turn, and the bus is idle again. *)
Theorem X8_armed_timer_always_emits :
  ∀ bus, reachable bus →
    (is_Some (_stateChangeTimer bus) ↔ is_Some (_stateChangePending bus))
    ∧ ∀ deadline now,
        _stateChangeTimer bus = Some deadline → deadline ≤ now →
        ∃ v, _stateChangePending bus = Some v
             ∧ act bus (Tick now) = Build None None (emitted bus ++ [Payload v now]).
Proof.
  intros bus [acts ->].
  assert (is_Some (_stateChangeTimer (runActions acts new))
          ↔ is_Some (_stateChangePending (runActions acts new))) as Hinv.
  { apply armed_iff_pending_run. simpl. split; intros [? ?]; done. }
  split; [done|]. intros deadline now Ht Hle.
  destruct (proj1 Hinv) as [v Hv]; [by eexists|].
  exists v. split; [done|]. simpl. rewrite Ht.
  destruct (Z.leb_spec deadline now); [|lia].
  unfold timerCallback. by rewrite Hv.
Qed.

End WithConfig.

Lemma X6_witness :
  StronglySorted Z.lt
    (emittedVersions
       (runActions None [Emit 1000 41; Emit 1010 42; Tick 1050; Emit 1060 43;
                         Clear; Tick 1200; Emit 1300 44; Tick 1350] new)).
Proof.
  apply (proj2 (proj2 (X6_emitted_versions_are_a_subsequence_of_the_calls None
           [Emit 1000 41; Emit 1010 42; Tick 1050; Emit 1060 43;
            Clear; Tick 1200; Emit 1300 44; Tick 1350]))).
  simpl. repeat constructor; lia.
Defined.

Example emitted_after_clear :
  emittedVersions
    (runActions None [Emit 1000 41; Emit 1010 42; Tick 1050; Emit 1060 43;
                      Clear; Tick 1200; Emit 1300 44; Tick 1350] new)
  = [42; 44].
Proof. reflexivity. Qed.

Lemma X8_witness :
  ∃ v, _stateChangePending (runActions None [Emit 1000 41; Emit 1010 42] new) = Some v
       ∧ act None (runActions None [Emit 1000 41; Emit 1010 42] new) (Tick 1050)
         = Build None None [Payload v 1050].
Proof.
  refine (proj2 (X8_armed_timer_always_emits None
                   (runActions None [Emit 1000 41; Emit 1010 42] new) _) 1050 1050 _ _).
  - by exists [Emit 1000 41; Emit 1010 42].
  - reflexivity.
  - lia.
Defined.

End EventBusFacts.

(** ** engines/QueueProcessor: the selection against the scheduler's proposal *)

Module QueueProcessorFacts.
Import QueueProcessor.

(** The ids the scheduler proposes for the rows the store returns. *)
Definition proposed (stateStore : StateStore) (scheduler : Scheduler)
    (concurrencyController : ConcurrencyController)
    (options : SelectDownloadsToStartOptions) : list (option Z) :=
  map id (scheduler_selectDownloadsToStart scheduler
            (getDownloadsByStateLimited stateStore QUEUED (maxQueueBatchSize options))
            (getAvailableGlobalSlots concurrencyController)
            (getGlobalActiveCount concurrencyController)).

(** X9. The selector only removes: [toStart] is, in order, a subsequence
    of the ids the scheduler proposed for the queued rows. It never adds an
    id, never reorders, and so never starts more downloads than the
    scheduler picked. When a selection is made with no [excludeIds] and the
    proposal has no missing id, it is passed on unchanged. *)
Theorem X9_toStart_is_a_subsequence_of_the_proposal :
  ∀ stateStore scheduler concurrencyController options,
    let r := selectDownloadsToStart stateStore scheduler concurrencyController options in
    toStart r `sublist_of` proposed stateStore scheduler concurrencyController options
    ∧ (toStart r ≠ [] → excludeIds options = None →
       Forall is_Some (proposed stateStore scheduler concurrencyController options) →
       toStart r = proposed stateStore scheduler concurrencyController options).
Proof.
  intros store sched cc options. unfold selectDownloadsToStart, proposed. simpl.
  destruct (length _ =? 0)%nat; [split; [apply sublist_nil_l | done]|].
  destruct (getAvailableGlobalSlots cc <=? 0); [split; [apply sublist_nil_l | done]|].
  cbn [toStart]. set (l := map id _). clearbody l.
  split; [apply sublist_filter|].
  intros _ Hex Hall. induction Hall as [|x l [i ->] Hall IH]; [done|].
  rewrite filter_cons_True; [by rewrite IH|]. simpl. by rewrite Hex.
Qed.

(** X10. What the result reports. A non-empty [toStart] comes with the
    controller's slot count, which is then positive, and with the store's
    queued count. With queued rows but no slot the reported slot count is
    [0], even when the controller's figure is negative; with no queued row
    the reported queued count is [0] whatever the summary says. *)
Theorem X10_reported_counts :
  ∀ stateStore scheduler concurrencyController options,
    let r := selectDownloadsToStart stateStore scheduler concurrencyController options in
    let queued :=
      getDownloadsByStateLimited stateStore QUEUED (maxQueueBatchSize options) in
    (toStart r ≠ [] →
       slotsAvailable r = getAvailableGlobalSlots concurrencyController
       ∧ 0 < slotsAvailable r
       ∧ queuedCount r = getSummary_queued stateStore)
    ∧ (queued ≠ [] → getAvailableGlobalSlots concurrencyController ≤ 0 →
       slotsAvailable r = 0 ∧ queuedCount r = getSummary_queued stateStore)
    ∧ (queued = [] →
       queuedCount r = 0
       ∧ slotsAvailable r = getAvailableGlobalSlots concurrencyController).
Proof.
  intros store sched cc options. unfold selectDownloadsToStart. simpl.
  destruct (getDownloadsByStateLimited store QUEUED (maxQueueBatchSize options))
    as [|d queued] eqn:Hq; simpl.
  - split; [done|]. split; done.
  - destruct (Z.leb_spec (getAvailableGlobalSlots cc) 0); simpl.
    + split; [done|]. split; [done|]. intros Hnil. discriminate.
    + split; [intros _; repeat split; lia|]. split; [lia|]. intros Hnil. discriminate.
Qed.

Lemma X9_witness :
  toStart (selectDownloadsToStart
             {| getDownloadsByStateLimited := λ _ _,
                  [ {| id := Some 1; state := QUEUED; url := "https://h/a" |};
                    {| id := Some 3; state := QUEUED; url := "https://h/c" |} ];
                getSummary_queued := 2 |}
             greedy
             {| getAvailableGlobalSlots := 2; getGlobalActiveCount := 1 |}
             {| maxQueueBatchSize := 100; excludeIds := None |})
  = [Some 1; Some 3].
Proof.
  apply (proj2 (X9_toStart_is_a_subsequence_of_the_proposal
           {| getDownloadsByStateLimited := λ _ _,
                [ {| id := Some 1; state := QUEUED; url := "https://h/a" |};
                  {| id := Some 3; state := QUEUED; url := "https://h/c" |} ];
              getSummary_queued := 2 |}
           greedy
           {| getAvailableGlobalSlots := 2; getGlobalActiveCount := 1 |}
           {| maxQueueBatchSize := 100; excludeIds := None |})).
  - discriminate.
  - reflexivity.
  - repeat constructor; by eexists.
Defined.

Lemma X10_witness :
  slotsAvailable (selectDownloadsToStart example_store greedy
                    {| getAvailableGlobalSlots := -1; getGlobalActiveCount := 4 |}
                    {| maxQueueBatchSize := 100; excludeIds := None |}) = 0
  ∧ queuedCount (selectDownloadsToStart example_store greedy
                   {| getAvailableGlobalSlots := -1; getGlobalActiveCount := 4 |}
                   {| maxQueueBatchSize := 100; excludeIds := None |}) = 3.
Proof.
  apply (proj1 (proj2 (X10_reported_counts example_store greedy
           {| getAvailableGlobalSlots := -1; getGlobalActiveCount := 4 |}
           {| maxQueueBatchSize := 100; excludeIds := None |}))).
  - discriminate.
  - simpl. lia.
Defined.

End QueueProcessorFacts.

(** ** engines/CircuitBreakerManager: the registry as it evolves *)

Module CircuitBreakerManagerFacts.
Import CircuitBreakerManager.

Section WithURL.

Variable hostname : string → option string.

(** The calls made on a manager; the configuration object is read anew by
    each [getCircuitBreaker]. *)
Inductive call :=
| GetCircuitBreaker (cbConfig : option CircuitBreakerConfig) (url : string)
| DestroyAll.

Definition step (m : t) (c : call) : t :=
  match c with
  | GetCircuitBreaker cbConfig url => snd (getCircuitBreaker hostname cbConfig url m)
  | DestroyAll => destroyAll m
  end.

Definition reachable (m : t) : Prop :=
  ∃ cbConfig calls, m = fold_left step calls (constructor cbConfig).

(** Every registered breaker is an object of the heap, no two hosts share
    one, and none is the global breaker. *)
Definition wellFormed (m : t) : Prop :=
  (∀ h r, hostCircuitBreakers m !! h = Some r →
     (r < length (heap m))%nat ∧ globalCircuitBreaker m ≠ Some r)
  ∧ (∀ h1 h2 r, hostCircuitBreakers m !! h1 = Some r →
       hostCircuitBreakers m !! h2 = Some r → h1 = h2)
  ∧ (∀ g, globalCircuitBreaker m = Some g → (g < length (heap m))%nat).

Lemma wellFormed_constructor cbConfig : wellFormed (constructor cbConfig).
Proof.
  unfold constructor. destruct cbConfig as [c|]; [destruct (cbEnabled (Some c))|];
    simpl; (split; [|split]); intros *; rewrite ?lookup_empty; try done.
  intros [= <-]. simpl. lia.
Qed.

Lemma getCircuitBreaker_cases cbConfig url m :
  getCircuitBreaker hostname cbConfig url m = (globalCircuitBreaker m, m)
  ∨ ∃ host r,
      hostname url = Some host ∧ perHostEnabled cbConfig = true
      ∧ (hostCircuitBreakers m !! host = Some r
         ∧ getCircuitBreaker hostname cbConfig url m = (Some r, m)
         ∨ hostCircuitBreakers m !! host = None ∧ r = length (heap m)
           ∧ ∃ b, getCircuitBreaker hostname cbConfig url m
                  = (Some r, Build (globalCircuitBreaker m)
                               (<[host := r]> (hostCircuitBreakers m))
                               (heap m ++ [b]))).
Proof.
  destruct (perHostEnabled cbConfig) eqn:Hph.
  - destruct (hostname url) as [host|] eqn:Hh.
    + destruct cbConfig as [c|]; [|discriminate].
      right. destruct (hostCircuitBreakers m !! host) as [r|] eqn:Hr.
      * exists host, r. split; [done|]. split; [done|]. left. split; [done|].
        by eapply getCircuitBreaker_known.
      * exists host, (length (heap m)). split; [done|]. split; [done|]. right.
        split; [done|]. split; [done|]. eexists.
        by eapply getCircuitBreaker_first_use.
    + left. unfold getCircuitBreaker. by rewrite Hph, Hh.
  - left. unfold getCircuitBreaker. by rewrite Hph.
Qed.

Lemma wellFormed_step m c : wellFormed m → wellFormed (step m c).
Proof.
  intros (Hin & Hinj & Hg). destruct c as [cbConfig url|]; simpl.
  - destruct (getCircuitBreaker_cases cbConfig url m)
      as [-> | (host & r & _ & _ & [[_ ->] | (Hnone & -> & b & ->)])];
      [done | done |]. unfold wellFormed. simpl. split; [|split].
    + intros h r. rewrite length_app. simpl.
      destruct (decide (host = h)) as [->|Hne].
      * rewrite lookup_insert_eq. intros [= <-]. split; [lia|].
        intros Hglob. apply Hg in Hglob. lia.
      * rewrite lookup_insert_ne by done. intros Hr. apply Hin in Hr as [? ?].
        split; [lia | done].
    + intros h1 h2 r.
      destruct (decide (h1 = host)) as [->|Hne1], (decide (h2 = host)) as [->|Hne2];
        rewrite ?lookup_insert_eq, ?lookup_insert_ne by done; try done.
      * intros [= <-] Hr. apply Hin in Hr as [? _]. lia.
      * intros Hr [= <-]. apply Hin in Hr as [? _]. lia.
      * apply Hinj.
    + intros g Hglob. apply Hg in Hglob. rewrite length_app. lia.
  - unfold destroyAll. split; [|split]; simpl; intros *; rewrite ?lookup_empty; done.
Qed.

Lemma wellFormed_reachable m : reachable m → wellFormed m.
Proof.
  intros (cbConfig & calls & ->).
  generalize (wellFormed_constructor cbConfig). generalize (constructor cbConfig).
  induction calls as [|c calls IH]; intros m Hwf; simpl; [done|].
  by apply IH, wellFormed_step.
Qed.

Lemma getCircuitBreaker_registers cbConfig url host m :
  perHostEnabled cbConfig = true → hostname url = Some host →
  ∃ r, fst (getCircuitBreaker hostname cbConfig url m) = Some r
       ∧ hostCircuitBreakers (snd (getCircuitBreaker hostname cbConfig url m)) !! host
         = Some r.
Proof.
  intros Hph Hh. destruct cbConfig as [c|]; [|discriminate].
  destruct (hostCircuitBreakers m !! host) as [r|] eqn:Hr.
  - rewrite (getCircuitBreaker_known hostname (Some c) c url host r m) by done.
    by exists r.
  - rewrite (getCircuitBreaker_first_use hostname (Some c) c url host m) by done.
    exists (length (heap m)). simpl. by rewrite lookup_insert_eq.
Qed.

(** X11. In per-host mode, on any manager reached from the constructor by
    [getCircuitBreaker] and [destroyAll] calls, two URLs with different
    hostnames get two different breaker objects, and neither is the global
    breaker: failures of one host never trip the breaker of another. *)
Theorem X11_hosts_do_not_share_a_breaker :
  ∀ m cbConfig url1 url2 host1 host2,
    reachable m →
    perHostEnabled cbConfig = true →
    hostname url1 = Some host1 → hostname url2 = Some host2 → host1 ≠ host2 →
    let '(r1, m1) := getCircuitBreaker hostname cbConfig url1 m in
    let '(r2, m2) := getCircuitBreaker hostname cbConfig url2 m1 in
    is_Some r1 ∧ is_Some r2 ∧ r1 ≠ r2
    ∧ r1 ≠ globalCircuitBreaker m2 ∧ r2 ≠ globalCircuitBreaker m2
    ∧ fst (getCircuitBreaker hostname cbConfig url1 m2) = r1.
Proof.
  intros m cbConfig url1 url2 host1 host2 Hreach Hph Hh1 Hh2 Hne.
  pose proof (wellFormed_reachable _ Hreach) as Hwf.
  pose proof (wellFormed_step m (GetCircuitBreaker cbConfig url1) Hwf) as Hwf1.
  destruct (getCircuitBreaker_registers cbConfig url1 host1 m Hph Hh1) as (r1 & Hr1 & Hm1).
  simpl in Hwf1.
  destruct (getCircuitBreaker hostname cbConfig url1 m) as [r1' m1]. simpl in *. subst r1'.
  pose proof (wellFormed_step m1 (GetCircuitBreaker cbConfig url2) Hwf1) as Hwf2.
  destruct (getCircuitBreaker_registers cbConfig url2 host2 m1 Hph Hh2) as (r2 & Hr2 & Hm2).
  assert (hostCircuitBreakers (snd (getCircuitBreaker hostname cbConfig url2 m1)) !! host1
          = Some r1) as Hkeep.
  { destruct (getCircuitBreaker_cases cbConfig url2 m1)
      as [-> | (host & r & Hh & _ & [[_ ->] | (_ & _ & b & ->)])]; [done | done |].
    simpl. rewrite Hh2 in Hh. injection Hh as <-. by rewrite lookup_insert_ne. }
  simpl in Hwf2.
  destruct (getCircuitBreaker hostname cbConfig url2 m1) as [r2' m2]. simpl in *. subst r2'.
  destruct Hwf2 as (Hin & Hinj & _).
  split; [by eexists|]. split; [by eexists|]. split; [|split; [|split]].
  - intros [= ->]. apply Hne. by eapply Hinj.
  - intros Heq. by destruct (Hin _ _ Hkeep).
  - intros Heq. by destruct (Hin _ _ Hm2).
  - destruct cbConfig as [c|]; [|discriminate].
    by rewrite (getCircuitBreaker_known hostname (Some c) c url1 host1 r1 m2).
Qed.

(** X12. After [destroyAll()] the manager has no breaker left: in global
    mode [getCircuitBreaker] answers [null], and in per-host mode the first
    request for a host builds a new object, one that did not exist before,
    so the state of the destroyed breaker is not carried over. *)
Theorem X12_destroyAll_forgets_every_breaker :
  ∀ m cbConfig url,
    (perHostEnabled cbConfig = false →
       fst (getCircuitBreaker hostname cbConfig url (destroyAll m)) = None)
    ∧ (∀ host, perHostEnabled cbConfig = true → hostname url = Some host →
         ∃ r, fst (getCircuitBreaker hostname cbConfig url (destroyAll m)) = Some r
              ∧ deref m (Some r) = None
              ∧ is_Some (deref (snd (getCircuitBreaker hostname cbConfig url (destroyAll m)))
                           (Some r))).
Proof.
  intros m cbConfig url. split.
  - intros Hph. unfold getCircuitBreaker. by rewrite Hph.
  - intros host Hph Hh. destruct cbConfig as [c|]; [|discriminate].
    rewrite (getCircuitBreaker_first_use hostname (Some c) c url host (destroyAll m));
      try done. simpl. exists (length (heap m)). split; [done|]. split.
    + apply lookup_ge_None. lia.
    + rewrite lookup_app_r by lia. rewrite Nat.sub_diag. by eexists.
Qed.

(** [cb.state] of the breaker objects, as read at the time of the call. *)
Variable stateOf : ref → string.

(** [getAllHostStates()], the returned record as a finite map. *)
Definition getAllHostStates (cbConfig : option CircuitBreakerConfig) (m : t)
  : gmap string string :=
  if perHostEnabled cbConfig then stateOf <$> hostCircuitBreakers m
  else
    match globalCircuitBreaker m with
    | Some g => {[ "_global" := stateOf g ]}
    | None => ∅
    end.

(** The hostnames of the URLs of a list that parse. *)
Definition hostsOf (urls : list string) : gset string :=
  list_to_set (omap hostname urls).

Lemma hostsOf_cons_Some url urls host :
  hostname url = Some host → hostsOf (url :: urls) = {[ host ]} ∪ hostsOf urls.
Proof. intros Hh. unfold hostsOf. cbn [omap list_omap]. by rewrite Hh. Qed.

Lemma hostsOf_cons_None url urls :
  hostname url = None → hostsOf (url :: urls) = hostsOf urls.
Proof. intros Hh. unfold hostsOf. cbn [omap list_omap]. by rewrite Hh. Qed.

Lemma known_host_absorbed (X Y : gset string) host :
  host ∈ X → X ∪ ({[ host ]} ∪ Y) = X ∪ Y.
Proof.
  intros Hin. apply set_eq. intros x.
  rewrite !elem_of_union, elem_of_singleton.
  split; [intros [?|[->|?]]; auto | intros [?|?]; auto].
Qed.

Lemma hosts_after_requests cbConfig urls : ∀ m,
  perHostEnabled cbConfig = true →
  dom (hostCircuitBreakers
         (fold_left (λ m url, snd (getCircuitBreaker hostname cbConfig url m)) urls m))
  = dom (hostCircuitBreakers m) ∪ hostsOf urls.
Proof.
  intros m Hph. revert m. induction urls as [|url urls IH]; intros m.
  - unfold hostsOf. simpl. by rewrite union_empty_r_L.
  - cbn [fold_left]. rewrite IH.
    destruct (getCircuitBreaker_cases cbConfig url m)
      as [Hglob | (host & r & Hh & _ & [[Hr Hget] | (Hnone & -> & b & Hget)])].
    + rewrite Hglob. simpl. destruct (hostname url) as [host|] eqn:Hh.
      * destruct (getCircuitBreaker_registers cbConfig url host m Hph Hh) as (r & _ & Hr).
        rewrite Hglob in Hr. simpl in Hr.
        rewrite (hostsOf_cons_Some _ _ _ Hh).
        symmetry. apply known_host_absorbed. apply elem_of_dom. by eexists.
      * by rewrite (hostsOf_cons_None _ _ Hh).
    + rewrite Hget, (hostsOf_cons_Some _ _ _ Hh). simpl.
      symmetry. apply known_host_absorbed. apply elem_of_dom. by eexists.
    + rewrite Hget, (hostsOf_cons_Some _ _ _ Hh). simpl.
      rewrite dom_insert_L.
      by rewrite (union_comm_L {[ host ]}), <- (assoc_L (∪)).
Qed.

(** X29. In per-host mode, after any series of [getCircuitBreaker] calls on
    a new manager, [getAllHostStates()] has one entry for each hostname of
    a URL that parsed and no other: URLs that do not parse add nothing, and
    the global breaker that serves them is not reported. With per-host mode
    off the record is [{ _global: state }] when the global breaker exists
    and empty when it does not. *)
Theorem X29_getAllHostStates_reports_the_hosts_seen :
  ∀ cbConfig urls,
    let m := fold_left (λ m url, snd (getCircuitBreaker hostname cbConfig url m)) urls
               (constructor cbConfig) in
    (perHostEnabled cbConfig = true →
       dom (getAllHostStates cbConfig m) = hostsOf urls)
    ∧ (perHostEnabled cbConfig = false →
       getAllHostStates cbConfig m
       = if cbEnabled cbConfig then {[ "_global" := stateOf 0%nat ]} else ∅).
Proof.
  intros cbConfig urls m. split.
  - intros Hph. unfold getAllHostStates. rewrite Hph, dom_fmap_L.
    subst m. rewrite hosts_after_requests by done.
    assert (hostCircuitBreakers (constructor cbConfig) = ∅) as ->.
    { unfold constructor. destruct cbConfig as [c|]; [|done].
      by destruct (cbEnabled (Some c)). }
    rewrite dom_empty_L. by rewrite union_empty_l_L.
  - intros Hph. unfold getAllHostStates. rewrite Hph.
    assert (m = constructor cbConfig) as ->.
    { subst m. generalize (constructor cbConfig).
      induction urls as [|url urls IH]; intros m0; [done|]. cbn [fold_left].
      rewrite IH. unfold getCircuitBreaker. by rewrite Hph. }
    unfold constructor. destruct cbConfig as [c|]; [|done].
    by destruct (cbEnabled (Some c)).
Qed.

End WithURL.

Lemma X29_witness :
  dom (getAllHostStates (λ _, "closed") perHostOn
         (fold_left (λ m url, snd (getCircuitBreaker example_hostname perHostOn url m))
            [ "https://myrient.erista.me/files/a.zip"; "not a url";
              "https://archive.org/download/b.zip";
              "https://myrient.erista.me/files/c.zip" ]
            (constructor perHostOn)))
  = hostsOf example_hostname
      [ "https://myrient.erista.me/files/a.zip"; "not a url";
        "https://archive.org/download/b.zip";
        "https://myrient.erista.me/files/c.zip" ].
Proof.
  apply (proj1 (X29_getAllHostStates_reports_the_hosts_seen example_hostname
                  (λ _, "closed") perHostOn
                  [ "https://myrient.erista.me/files/a.zip"; "not a url";
                    "https://archive.org/download/b.zip";
                    "https://myrient.erista.me/files/c.zip" ])).
  reflexivity.
Defined.

Lemma X11_witness :
  let '(r1, m1) := getCircuitBreaker example_hostname perHostOn
                     "https://myrient.erista.me/files/a.zip" (constructor perHostOn) in
  let '(r2, m2) := getCircuitBreaker example_hostname perHostOn
                     "https://archive.org/download/b.zip" m1 in
  is_Some r1 ∧ is_Some r2 ∧ r1 ≠ r2
  ∧ r1 ≠ globalCircuitBreaker m2 ∧ r2 ≠ globalCircuitBreaker m2
  ∧ fst (getCircuitBreaker example_hostname perHostOn
           "https://myrient.erista.me/files/a.zip" m2) = r1.
Proof.
  apply (X11_hosts_do_not_share_a_breaker example_hostname (constructor perHostOn)
           perHostOn "https://myrient.erista.me/files/a.zip"
           "https://archive.org/download/b.zip" "myrient.erista.me" "archive.org").
  - by exists perHostOn, [].
  - reflexivity.
  - reflexivity.
  - reflexivity.
  - discriminate.
Defined.

Lemma X12_witness :
  ∃ r, fst (getCircuitBreaker example_hostname perHostOn
              "https://myrient.erista.me/files/a.zip"
              (destroyAll (constructor perHostOn))) = Some r
       ∧ deref (constructor perHostOn) (Some r) = None
       ∧ is_Some (deref (snd (getCircuitBreaker example_hostname perHostOn
                                "https://myrient.erista.me/files/a.zip"
                                (destroyAll (constructor perHostOn)))) (Some r)).
Proof.
  apply (proj2 (X12_destroyAll_forgets_every_breaker example_hostname
                  (constructor perHostOn) perHostOn
                  "https://myrient.erista.me/files/a.zip") "myrient.erista.me");
    reflexivity.
Defined.

End CircuitBreakerManagerFacts.

(** ** engines/DownloadManager *)

Module DownloadManager.

(** The calls [cleanup] makes, in the order they happen. *)
Inductive Effect :=
| ClearTimeout | ClearInterval
| RequestAbort | RequestRemoveAllListeners
| StopTracking (downloadId : Z)
| ResponseRemoveAllListeners | ResponseDestroy
| StreamRemoveAllListeners | StreamOn (ev : string) | StreamEnd | StreamDestroy
| LogWarn (downloadId : Z).

Record Request := { req_destroyed : bool; req_throws : Effect → bool }.
Record Response := { res_destroyed : bool; res_throws : Effect → bool }.
Record FileStream := {
  fs_destroyed : bool; fs_closed : bool; fs_writable : bool;
  fs_throws : Effect → bool
}.

Record ActiveDownloadEntry := {
  request : option Request;
  response : option Response;
  fileStream : option FileStream;
  timeoutId : option nat;
  idleCheckInterval : option nat
}.

(** [Map<number, ActiveDownloadEntry>], in insertion order. *)
Abbreviation Store := (list (Z * ActiveDownloadEntry)).

Definition keys (store : Store) : list Z := fst <$> store.

Fixpoint get (store : Store) (downloadId : Z) : option ActiveDownloadEntry :=
  match store with
  | [] => None
  | (k, e) :: rest => if k =? downloadId then Some e else get rest downloadId
  end.

Definition delete (downloadId : Z) (store : Store) : Store :=
  filter (λ kv, fst kv ≠ downloadId) store.

Fixpoint set (downloadId : Z) (entry : ActiveDownloadEntry) (store : Store) : Store :=
  match store with
  | [] => [(downloadId, entry)]
  | (k, e) :: rest =>
      if k =? downloadId then (k, entry) :: rest
      else (k, e) :: set downloadId entry rest
  end.

(** A statement extends the trace and either completes ([true]) or throws
    ([false]). *)
Definition stmt := list Effect → bool * list Effect.

Definition skip : stmt := λ tr, (true, tr).

Definition call (throws : Effect → bool) (e : Effect) : stmt :=
  λ tr, (negb (throws e), (tr ++ [e])%list).

Definition builtin (e : Effect) : stmt := call (λ _, false) e.

Definition seq (a b : stmt) : stmt :=
  λ tr, let '(ok, tr') := a tr in if ok then b tr' else (false, tr').

Definition when (c : bool) (a : stmt) : stmt := if c then a else skip.

Declare Scope dm_scope.
Delimit Scope dm_scope with dm.
Notation "a ;; b" := (seq a b) (at level 100, b at level 200,
                              right associativity) : dm_scope.

Section WithSpeedTracker.

(** Whether a call of [SpeedTracker.stopTracking] throws. *)
Variable tracker_throws : Effect → bool.

(** The body of the [try] block of [cleanup]. *)
Definition releaseRequest (active : ActiveDownloadEntry) : stmt :=
  match request active with
  | Some r =>
      (when (negb (req_destroyed r)) (call (req_throws r) RequestAbort) ;;
       call (req_throws r) RequestRemoveAllListeners)%dm
  | None => skip
  end.

Definition releaseResponse (active : ActiveDownloadEntry) : stmt :=
  match response active with
  | Some r =>
      (call (res_throws r) ResponseRemoveAllListeners ;;
       when (negb (res_destroyed r)) (call (res_throws r) ResponseDestroy))%dm
  | None => skip
  end.

Definition releaseFileStream (active : ActiveDownloadEntry) : stmt :=
  match fileStream active with
  | Some f =>
      (call (fs_throws f) StreamRemoveAllListeners ;;
       call (fs_throws f) (StreamOn "error") ;;
       when (negb (fs_destroyed f) && negb (fs_closed f))
         (if fs_writable f then call (fs_throws f) StreamEnd
          else call (fs_throws f) StreamDestroy))%dm
  | None => skip
  end.

Definition releaseResources (downloadId : Z) (active : ActiveDownloadEntry) : stmt :=
  (when (bool_decide (is_Some (timeoutId active))) (builtin ClearTimeout) ;;
   when (bool_decide (is_Some (idleCheckInterval active))) (builtin ClearInterval) ;;
   releaseRequest active ;;
   call tracker_throws (StopTracking downloadId) ;;
   releaseResponse active ;;
   releaseFileStream active)%dm.

Definition cleanup (downloadId : Z) (store : Store) : Store * list Effect :=
  match get store downloadId with
  | None => (store, [])
  | Some active =>
      let '(ok, tr) := releaseResources downloadId active [] in
      let tr := if ok then tr else (tr ++ [LogWarn downloadId])%list in
      (delete downloadId store, tr)
  end.

End WithSpeedTracker.

Lemma get_after_delete store downloadId : get (delete downloadId store) downloadId = None.
Proof.
  induction store as [|[k e] rest IH]; [done|]. unfold delete in *.
  destruct (decide (k = downloadId)) as [->|Hne].
  - by rewrite filter_cons_False by (simpl; tauto).
  - rewrite filter_cons_True by done. simpl.
    by destruct (Z.eqb_spec k downloadId).
Qed.

Lemma get_other_after_delete store downloadId k :
  k ≠ downloadId → get (delete downloadId store) k = get store k.
Proof.
  intros Hk. induction store as [|[k' e] rest IH]; [done|]. unfold delete in *.
  destruct (decide (k' = downloadId)) as [->|Hne].
  - rewrite filter_cons_False by (simpl; tauto). simpl.
    by destruct (Z.eqb_spec downloadId k); [congruence|].
  - rewrite filter_cons_True by done. simpl. by rewrite IH.
Qed.

(** A statement only appends to the trace. *)
Definition extends (s : stmt) : Prop := ∀ tr, ∃ more, snd (s tr) = (tr ++ more)%list.

Lemma extends_skip : extends skip.
Proof. intros tr. exists []. simpl. by rewrite app_nil_r. Qed.

Lemma extends_call throws e : extends (call throws e).
Proof. intros tr. by exists [e]. Qed.

Lemma extends_seq a b : extends a → extends b → extends (seq a b).
Proof.
  intros Ha Hb tr. unfold seq. destruct (Ha tr) as [m1 H1].
  destruct (a tr) as [ok tr1]. simpl in H1. subst tr1. destruct ok.
  - destruct (Hb (tr ++ m1)%list) as [m2 H2]. exists (m1 ++ m2)%list.
    by rewrite H2, app_assoc.
  - by exists m1.
Qed.

Lemma extends_when c a : extends a → extends (when c a).
Proof. destruct c; [done | intros _; apply extends_skip]. Qed.

Lemma extends_releaseResponse e : extends (releaseResponse e).
Proof.
  unfold releaseResponse. destruct (response e);
    auto using extends_skip, extends_seq, extends_when, extends_call.
Qed.

Lemma extends_releaseFileStream e : extends (releaseFileStream e).
Proof.
  unfold releaseFileStream. destruct (fileStream e) as [f|]; [|apply extends_skip].
  repeat apply extends_seq; try apply extends_call.
  apply extends_when. destruct (fs_writable f); apply extends_call.
Qed.

(** The request of the entry is released without a throw. *)
Definition requestReleased (active : ActiveDownloadEntry) : bool :=
  match request active with
  | Some r =>
      (req_destroyed r || negb (req_throws r RequestAbort))
      && negb (req_throws r RequestRemoveAllListeners)
  | None => true
  end.

Lemma seq_unfold a b tr :
  seq a b tr = if fst (a tr) then b (snd (a tr)) else (false, snd (a tr)).
Proof. unfold seq. by destruct (a tr) as [[] tr']. Qed.

Lemma when_builtin c e tr :
  when c (builtin e) tr = (true, if c then (tr ++ [e])%list else tr).
Proof. by destruct c. Qed.

Lemma releaseRequest_spec active tr :
  fst (releaseRequest active tr) = requestReleased active
  ∧ ∃ more, snd (releaseRequest active tr) = (tr ++ more)%list
            ∧ Forall (λ x, x = RequestAbort ∨ x = RequestRemoveAllListeners) more.
Proof.
  unfold releaseRequest, requestReleased.
  destruct (request active) as [[d th]|]; simpl.
  - rewrite seq_unfold. unfold when, call, skip. simpl.
    destruct d; simpl.
    + split; [done|]. exists [RequestRemoveAllListeners]. split; [done|].
      apply List.Forall_cons; [tauto | constructor].
    + destruct (th RequestAbort); simpl.
      * split; [done|]. exists [RequestAbort]. split; [done|].
        apply List.Forall_cons; [tauto | constructor].
      * split; [done|]. exists [RequestAbort; RequestRemoveAllListeners].
        split; [by rewrite <- app_assoc|].
        apply List.Forall_cons; [tauto|]. apply List.Forall_cons; [tauto | constructor].
  - split; [done|]. exists []. split; [by rewrite app_nil_r | constructor].
Qed.

Section Properties.

Variable tracker_throws : Effect → bool.

(** X13. [cleanup(downloadId)] leaves no entry under [downloadId], whether
    the release of the resources completes or throws; every other download
    keeps its entry; and on an id with no entry it changes nothing and
    calls nothing, not even [SpeedTracker.stopTracking]. *)
Theorem X13_cleanup_removes_only_its_entry :
  ∀ (store : Store) downloadId,
    get (fst (cleanup tracker_throws downloadId store)) downloadId = None
    ∧ (∀ k, k ≠ downloadId →
         get (fst (cleanup tracker_throws downloadId store)) k = get store k)
    ∧ (get store downloadId = None →
         cleanup tracker_throws downloadId store = (store, [])).
Proof.
  intros store id. unfold cleanup.
  destruct (get store id) as [e|] eqn:Hget.
  - destruct (releaseResources tracker_throws id e []) as [ok tr]. simpl.
    split; [apply get_after_delete|]. split; [|done].
    intros k Hk. by apply get_other_after_delete.
  - simpl. split; [done|]. split; done.
Qed.

(** X14. While cleaning an active download, [SpeedTracker.stopTracking] is
    called exactly when the request was released without a throw: if
    [request.abort()] or [request.removeAllListeners()] throws, the tracker
    of the download is never stopped (the entry is removed all the same). *)
Theorem X14_stopTracking_needs_the_request_released :
  ∀ (store : Store) downloadId active,
    get store downloadId = Some active →
    (StopTracking downloadId ∈ snd (cleanup tracker_throws downloadId store)
     ↔ requestReleased active = true).
Proof.
  intros store id e Hget. unfold cleanup. rewrite Hget.
  assert (extends (seq (releaseResponse e) (releaseFileStream e))) as Hrest
    by auto using extends_seq, extends_releaseResponse, extends_releaseFileStream.
  unfold releaseResources.
  set (rest := seq (call tracker_throws (StopTracking id))
                   (seq (releaseResponse e) (releaseFileStream e))).
  assert (∀ tr, StopTracking id ∈ snd (rest tr)) as Hstop.
  { intros tr. unfold rest. rewrite seq_unfold. unfold call at 1 2. simpl.
    destruct (negb (tracker_throws (StopTracking id))).
    - destruct (Hrest (tr ++ [StopTracking id])%list) as [more ->].
      rewrite !elem_of_app, list_elem_of_singleton. tauto.
    - simpl. rewrite elem_of_app, list_elem_of_singleton. tauto. }
  rewrite seq_unfold, when_builtin. cbn [fst snd].
  rewrite seq_unfold, when_builtin. cbn [fst snd].
  set (tr2 := if bool_decide (is_Some (idleCheckInterval e)) then _ else _).
  assert (StopTracking id ∉ tr2) as Htr2.
  { subst tr2. destruct (bool_decide _), (bool_decide _); simpl;
      rewrite ?elem_of_cons, ?elem_of_nil; intros H;
      repeat (destruct H as [H|H]; try discriminate H); done. }
  rewrite seq_unfold.
  destruct (releaseRequest_spec e tr2) as (Hok & more & Hsnd & Hmore).
  rewrite Hok. destruct (requestReleased e).
  - split; [done|]. intros _. specialize (Hstop (snd (releaseRequest e tr2))).
    destruct (rest _) as [ok tr]. simpl in *. destruct ok; [done|].
    rewrite elem_of_app. tauto.
  - split; [|discriminate]. simpl. rewrite Hsnd, !elem_of_app, list_elem_of_singleton.
    intros [[Hin|Hin]|Hin]; [done | | discriminate].
    rewrite Forall_forall in Hmore. destruct (Hmore _ Hin); discriminate.
Qed.

End Properties.

Definition brokenRequest : Request :=
  {| req_destroyed := false;
     req_throws := λ e, match e with RequestAbort => true | _ => false end |}.

Definition example_store : Store :=
  [ (7, {| request := Some brokenRequest; response := None; fileStream := None;
           timeoutId := Some 1%nat; idleCheckInterval := Some 2%nat |});
    (8, {| request := None;
           response := Some {| res_destroyed := false; res_throws := λ _, false |};
           fileStream := None; timeoutId := None; idleCheckInterval := None |}) ].

Example cleanup_runs :
  cleanup (λ _, false) 7 example_store
  = ([ (8, {| request := None;
              response := Some {| res_destroyed := false; res_throws := λ _, false |};
              fileStream := None; timeoutId := None; idleCheckInterval := None |}) ],
     [ClearTimeout; ClearInterval; RequestAbort; LogWarn 7])
  ∧ snd (cleanup (λ _, false) 8 example_store)
    = [StopTracking 8; ResponseRemoveAllListeners; ResponseDestroy].
Proof. split; reflexivity. Qed.

Lemma X13_witness : cleanup (λ _, false) 9 example_store = (example_store, []).
Proof.
  apply (proj2 (proj2 (X13_cleanup_removes_only_its_entry (λ _, false) example_store 9))).
  reflexivity.
Defined.

Lemma X14_witness :
  StopTracking 7 ∈ snd (cleanup (λ _, false) 7 example_store)
  ↔ requestReleased
      {| request := Some brokenRequest; response := None; fileStream := None;
         timeoutId := Some 1%nat; idleCheckInterval := Some 2%nat |} = true.
Proof.
  apply (X14_stopTracking_needs_the_request_released (λ _, false) example_store 7).
  reflexivity.
Defined.

End DownloadManager.

(** ** engines/ChunkManager: what a cleanup keeps *)

Module ChunkManagerFacts.
Import Decimal ChunkManager.

Lemma filter_ext_in {A} (P Q : A → Prop) `{!∀ x, Decision (P x), !∀ x, Decision (Q x)}
    (l : list A) :
  (∀ x, x ∈ l → (P x ↔ Q x)) → filter P l = filter Q l.
Proof.
  induction l as [|a l IH]; intros Hext; [done|].
  assert (filter P l = filter Q l) as Hl.
  { apply IH. intros x Hx. apply Hext. by right. }
  destruct (decide (P a)) as [Hp|Hp].
  - rewrite !filter_cons_True; [by rewrite Hl | | done]. apply Hext; [by left | done].
  - rewrite !filter_cons_False; [done | | done]. intros Hq. apply Hp, Hext; [by left | done].
Qed.

Lemma filter_id {A} (P : A → Prop) `{!∀ x, Decision (P x)} (l : list A) :
  (∀ x, x ∈ l → P x) → filter P l = l.
Proof.
  induction l as [|a l IH]; intros Hall; [done|].
  rewrite filter_cons_True by (apply Hall; by left).
  f_equal. apply IH. intros x Hx. apply Hall. by right.
Qed.

Lemma cleanupKeys_filter prefix ks : ∀ store : Store,
  fst (cleanupKeys prefix ks store)
  = filter (λ kv, ¬ (String.prefix prefix (fst kv) = true ∧ fst kv ∈ ks)) store.
Proof.
  induction ks as [|k0 ks IH]; intros store.
  - simpl. symmetry. apply filter_id. intros x _ [_ Hin]. by apply elem_of_nil in Hin.
  - rewrite cleanupKeys_cons. destruct (String.prefix prefix k0) eqn:Hp.
    + rewrite IH, cleanupChunk_store. unfold delete. rewrite list_filter_filter.
      apply list_filter_iff. intros [k e]. simpl. rewrite elem_of_cons, negb_true_iff.
      split.
      * intros [Hks Hne] [Hpre [->|Hin]]; [rewrite String.eqb_refl in Hne; done | tauto].
      * intros Hn. split; [tauto|]. apply String.eqb_neq. intros ->. tauto.
    + rewrite IH. apply list_filter_iff. intros [k e]. simpl. rewrite elem_of_cons.
      split.
      * intros Hn [Hpre [->|Hin]]; [congruence | tauto].
      * tauto.
Qed.

Lemma cleanupForDownload_filter downloadId (store : Store) :
  fst (cleanupForDownload downloadId store)
  = filter (λ kv, String.prefix (pretty downloadId ++ "-") (fst kv) = false) store.
Proof.
  unfold cleanupForDownload. rewrite cleanupKeys_filter.
  apply filter_ext_in. intros [k e] Hin. simpl.
  assert (k ∈ keys store) as Hk.
  { unfold keys. apply list_elem_of_fmap. by exists (k, e). }
  destruct (String.prefix _ k); split.
  - intros Hn. exfalso. by apply Hn.
  - discriminate.
  - done.
  - intros _ [Hpre _]. discriminate.
Qed.

Lemma get_filter (f : string → bool) (store : Store) k :
  get (filter (λ kv, f (fst kv) = true) store) k = if f k then get store k else None.
Proof.
  induction store as [|[k' e] rest IH]; simpl; [by destruct (f k)|].
  destruct (f k') eqn:Hf.
  - rewrite filter_cons_True by done. simpl.
    destruct (String.eqb_spec k' k) as [->|Hne]; [by rewrite Hf | done].
  - rewrite filter_cons_False by (simpl; congruence).
    destruct (String.eqb_spec k' k) as [->|Hne]; [by rewrite IH, Hf | done].
Qed.

(** X15. [cleanupForDownload(id)] removes exactly the entries whose key
    starts with [`${id}-`]: what is left is the store with those entries
    filtered out, the others in their order and with their entry, so
    [get] answers for them as before. *)
Theorem X15_cleanupForDownload_keeps_the_other_entries :
  ∀ downloadId (store : Store),
    fst (cleanupForDownload downloadId store)
    = filter (λ kv, String.prefix (pretty downloadId ++ "-") (fst kv) = false) store
    ∧ ∀ chunkKey,
        get (fst (cleanupForDownload downloadId store)) chunkKey
        = if String.prefix (pretty downloadId ++ "-") chunkKey then None
          else get store chunkKey.
Proof.
  intros d store. split; [apply cleanupForDownload_filter|].
  intros k. rewrite cleanupForDownload_filter.
  etrans; [|etrans; [apply (get_filter (λ k, negb (String.prefix (pretty d ++ "-") k)) store k)|]].
  - f_equal. apply list_filter_iff. intros [k' e]. simpl. by rewrite negb_true_iff.
  - by destruct (String.prefix _ k).
Qed.

(** *** The key scheme [`${downloadId}-${chunkIndex}`] *)

Lemma key_prefix (downloadId downloadId' chunkIndex : Z) :
  0 ≤ downloadId → 0 ≤ downloadId' →
  (String.prefix (pretty downloadId ++ "-") (key downloadId' chunkIndex) = true
   ↔ downloadId = downloadId').
Proof.
  intros Hd Hd'. unfold key. split.
  - intros Hpre. apply (inj pretty).
    eapply prefix_digits_dash; eauto using pretty_nonneg_digits.
  - intros <-. rewrite <- string_app_assoc. apply prefix_app_l.
Qed.

(** X16. For download ids that are not negative, [cleanupForDownload(id)]
    removes every chunk registered under [ChunkManager.key(id, i)] and no
    chunk of another download: the entry under [key(id', i)] with
    [id' ≠ id] is still returned by [get]. A prefix such as ["7-"] does not
    catch the keys of download 71. *)
Theorem X16_cleanupForDownload_spares_other_downloads :
  ∀ (store : Store) downloadId downloadId' chunkIndex,
    0 ≤ downloadId → 0 ≤ downloadId' →
    get (fst (cleanupForDownload downloadId store)) (key downloadId' chunkIndex)
    = if bool_decide (downloadId = downloadId') then None
      else get store (key downloadId' chunkIndex).
Proof.
  intros store d d' c Hd Hd'.
  rewrite cleanupForDownload_filter.
  etrans; [|etrans; [apply (get_filter (λ k, negb (String.prefix (pretty d ++ "-") k))
                               store (key d' c))|]].
  - f_equal. apply list_filter_iff. intros [k' e]. simpl. by rewrite negb_true_iff.
  - pose proof (key_prefix d d' c Hd Hd') as Hiff.
    destruct (String.prefix (pretty d ++ "-") (key d' c)); simpl.
    + rewrite bool_decide_eq_true_2; [done | by apply Hiff].
    + rewrite bool_decide_eq_false_2; [done|]. intros Heq. apply Hiff in Heq. done.
Qed.

Lemma X16_witness :
  get (fst (cleanupForDownload 7 example_store)) (key 71 0)
  = if bool_decide (7 = 71) then None else get example_store (key 71 0).
Proof.
  apply (X16_cleanupForDownload_spares_other_downloads example_store 7 71 0); lia.
Defined.

Example key_example : key 71 0 = "71-0" ∧ key 7 12 = "7-12".
Proof. split; vm_compute; reflexivity. Qed.

(** *** [cleanupAll] *)

(** What [cleanupAll] does to one entry. *)
Definition releaseAll (chunkActive : ActiveChunkEntry) : stmt :=
  (when (bool_decide (is_Some (timeoutId chunkActive))) (builtin ClearTimeout) ;;
   match request chunkActive with
   | Some r => when (negb (req_destroyed r)) (call (req_throws r) RequestAbort)
   | None => skip
   end ;;
   match response chunkActive with
   | Some r => when (negb (res_destroyed r)) (call (res_throws r) ResponseDestroy)
   | None => skip
   end ;;
   match fileStream chunkActive with
   | Some f => when (negb (fs_destroyed f)) (call (fs_throws f) StreamDestroy)
   | None => skip
   end)%stmt.

(** The [for] loop over the keys; no [try] surrounds it. *)
Fixpoint releaseKeys (store : Store) (ks : list string) : stmt :=
  match ks with
  | [] => skip
  | chunkKey :: ks =>
      (match get store chunkKey with
       | Some chunkActive => releaseAll chunkActive
       | None => skip
       end ;;
       releaseKeys store ks)%stmt
  end.

(** The store afterwards, whether the call returned ([true]) or threw, and
    the calls made. [this._store.clear()] is reached only when the loop
    completes. *)
Definition cleanupAll (store : Store) : Store * bool * list Effect :=
  let '(ok, tr) := releaseKeys store (keys store) [] in
  (if ok then [] else store, ok, tr).

(** A statement appends only effects that satisfy [P]. *)
Definition emitsOnly (P : Effect → Prop) (s : stmt) : Prop :=
  ∀ tr, ∃ more, snd (s tr) = (tr ++ more)%list ∧ Forall P more.

Lemma emitsOnly_skip P : emitsOnly P skip.
Proof. intros tr. exists []. simpl. by rewrite app_nil_r. Qed.

Lemma emitsOnly_call P throws e : P e → emitsOnly P (call throws e).
Proof. intros He tr. exists [e]. split; [done|]. by apply List.Forall_cons. Qed.

Lemma emitsOnly_seq P a b : emitsOnly P a → emitsOnly P b → emitsOnly P (seq a b).
Proof.
  intros Ha Hb tr. unfold seq. destruct (Ha tr) as (m1 & H1 & HP1).
  destruct (a tr) as [ok tr1]. simpl in H1. subst tr1. destruct ok.
  - destruct (Hb (tr ++ m1)%list) as (m2 & H2 & HP2). exists (m1 ++ m2)%list.
    split; [by rewrite H2, app_assoc | by apply Forall_app].
  - by exists m1.
Qed.

Lemma emitsOnly_when P c a : emitsOnly P a → emitsOnly P (when c a).
Proof. destruct c; [done | intros _; apply emitsOnly_skip]. Qed.

(** The four calls [cleanupAll] can make. *)
Definition hardStop (e : Effect) : Prop :=
  e = ClearTimeout ∨ e = RequestAbort ∨ e = ResponseDestroy ∨ e = StreamDestroy.

Lemma emitsOnly_releaseAll e : emitsOnly hardStop (releaseAll e).
Proof.
  unfold releaseAll. repeat apply emitsOnly_seq.
  - apply emitsOnly_when, emitsOnly_call. unfold hardStop. tauto.
  - destruct (request e); [|apply emitsOnly_skip].
    apply emitsOnly_when, emitsOnly_call. unfold hardStop. tauto.
  - destruct (response e); [|apply emitsOnly_skip].
    apply emitsOnly_when, emitsOnly_call. unfold hardStop. tauto.
  - destruct (fileStream e); [|apply emitsOnly_skip].
    apply emitsOnly_when, emitsOnly_call. unfold hardStop. tauto.
Qed.

Lemma emitsOnly_releaseKeys store ks : emitsOnly hardStop (releaseKeys store ks).
Proof.
  induction ks as [|k ks IH]; simpl; [apply emitsOnly_skip|].
  apply emitsOnly_seq; [|done].
  destruct (get store k); [apply emitsOnly_releaseAll | apply emitsOnly_skip].
Qed.

(** No [abort] or [destroy] of the entry throws. *)
Definition quiet (e : ActiveChunkEntry) : Prop :=
  (∀ r, request e = Some r → req_throws r RequestAbort = false)
  ∧ (∀ r, response e = Some r → res_throws r ResponseDestroy = false)
  ∧ (∀ f, fileStream e = Some f → fs_throws f StreamDestroy = false).

Definition completes (s : stmt) : Prop := ∀ tr, fst (s tr) = true.

Lemma completes_seq a b : completes a → completes b → completes (seq a b).
Proof.
  intros Ha Hb tr. unfold seq. specialize (Ha tr). destruct (a tr) as [ok tr1].
  simpl in Ha. subst ok. apply Hb.
Qed.

Lemma completes_when c a : completes a → completes (when c a).
Proof. by destruct c. Qed.

Lemma completes_releaseAll e : quiet e → completes (releaseAll e).
Proof.
  intros (Hreq & Hres & Hfs). unfold releaseAll. repeat apply completes_seq.
  - by apply completes_when.
  - destruct (request e) as [r|]; [|done]. apply completes_when.
    intros tr. unfold call. simpl. by rewrite (Hreq r).
  - destruct (response e) as [r|]; [|done]. apply completes_when.
    intros tr. unfold call. simpl. by rewrite (Hres r).
  - destruct (fileStream e) as [f|]; [|done]. apply completes_when.
    intros tr. unfold call. simpl. by rewrite (Hfs f).
Qed.

Lemma get_elem_of (store : Store) k e : get store k = Some e → (k, e) ∈ store.
Proof.
  induction store as [|[k' e'] rest IH]; simpl; [done|].
  destruct (String.eqb_spec k' k) as [->|Hne].
  - intros [= ->]. by left.
  - intros Hget. right. by apply IH.
Qed.

Lemma completes_releaseKeys (store : Store) ks :
  Forall (λ kv, quiet (snd kv)) store → completes (releaseKeys store ks).
Proof.
  intros Hq. induction ks as [|k ks IH]; simpl; [done|].
  apply completes_seq; [|done].
  destruct (get store k) as [e|] eqn:Hget; [|done].
  apply completes_releaseAll. apply get_elem_of in Hget.
  rewrite Forall_forall in Hq. by apply (Hq (k, e)).
Qed.

(** X17. [cleanupAll()] runs outside any [try]: when no [abort] or
    [destroy] throws it returns and the store is empty; when one throws,
    the exception leaves the method and the store still holds every entry.
    In either case the only calls made are [clearTimeout], [request.abort],
    [response.destroy] and [fileStream.destroy]: unlike [cleanupChunk] it
    never clears a progress-check interval, removes a listener or ends a
    stream gracefully. *)
Theorem X17_cleanupAll_empties_the_store_unless_a_call_throws :
  ∀ store : Store,
    let '(store', returned, calls) := cleanupAll store in
    (returned = true → store' = [])
    ∧ (returned = false → store' = store)
    ∧ Forall hardStop calls
    ∧ (Forall (λ kv, quiet (snd kv)) store → returned = true).
Proof.
  intros store. unfold cleanupAll.
  destruct (emitsOnly_releaseKeys store (keys store) []) as (more & Hsnd & Hmore).
  pose proof (completes_releaseKeys store (keys store)) as Hc.
  destruct (releaseKeys store (keys store) []) as [ok tr] eqn:Hrun.
  simpl in Hsnd. subst tr. split; [|split; [|split]].
  - by intros ->.
  - by intros ->.
  - done.
  - intros Hq. specialize (Hc Hq []). by rewrite Hrun in Hc.
Qed.

Example cleanupAll_throwing_resource :
  cleanupAll example_store = (example_store, false, [ClearTimeout; RequestAbort]).
Proof. reflexivity. Qed.

Definition quiet_store : Store :=
  [ ("71-0", {| request := None; response := None;
                fileStream := Some {| fs_destroyed := false; fs_closed := false;
                                      fs_writable := true;
                                      fs_throws := λ _, false |};
                timeoutId := None; progressCheckInterval := Some 2%nat |}) ].

Example cleanupAll_quiet : cleanupAll quiet_store = ([], true, [StreamDestroy]).
Proof. reflexivity. Qed.

Lemma X17_witness :
  let '(store', returned, calls) := cleanupAll quiet_store in returned = true.
Proof.
  pose proof (X17_cleanupAll_empties_the_store_unless_a_call_throws quiet_store) as W.
  destruct (cleanupAll quiet_store) as [[store' returned] calls].
  destruct W as (_ & _ & _ & Hquiet). apply Hquiet.
  repeat constructor; simpl; intros ? [= <-]; reflexivity.
Defined.

(** *** [get], [set] and [ChunkHelpers.cleanupActiveChunk] *)

Lemma get_set_eq (store : Store) k e : get (set k e store) k = Some e.
Proof.
  induction store as [|[k' e'] rest IH]; simpl.
  - by rewrite String.eqb_refl.
  - destruct (String.eqb_spec k' k) as [->|Hne]; simpl.
    + by rewrite String.eqb_refl.
    + destruct (String.eqb_spec k' k); [done|]. apply IH.
Qed.

Lemma get_set_ne (store : Store) k k' e : k' ≠ k → get (set k e store) k' = get store k'.
Proof.
  intros Hk. induction store as [|[k0 e0] rest IH]; simpl.
  - by destruct (String.eqb_spec k k'); [congruence|].
  - destruct (String.eqb_spec k0 k) as [->|Hne]; simpl.
    + by destruct (String.eqb_spec k k'); [congruence|].
    + by rewrite IH.
Qed.

Lemma get_delete_ne (store : Store) k k' : k' ≠ k → get (delete k store) k' = get store k'.
Proof.
  intros Hk. unfold delete.
  rewrite (get_filter (λ x, negb (String.eqb x k)) store k').
  apply String.eqb_neq in Hk. by rewrite Hk.
Qed.

Lemma get_delete_eq (store : Store) k : get (delete k store) k = None.
Proof.
  unfold delete. rewrite (get_filter (λ x, negb (String.eqb x k)) store k).
  by rewrite String.eqb_refl.
Qed.

(** X18. An entry registered with [set] is what [get] returns for its key,
    a second [set] on the key replaces it, and no other key is affected;
    [cleanupChunk] on the key then makes [get] answer [undefined] again. *)
Theorem X18_set_get_cleanup_life_cycle :
  ∀ (store : Store) chunkKey entry entry',
    get (set chunkKey entry store) chunkKey = Some entry
    ∧ get (set chunkKey entry' (set chunkKey entry store)) chunkKey = Some entry'
    ∧ (∀ k, k ≠ chunkKey → get (set chunkKey entry store) k = get store k)
    ∧ get (fst (cleanupChunk chunkKey (set chunkKey entry store))) chunkKey = None
    ∧ (∀ k, k ≠ chunkKey →
         get (fst (cleanupChunk chunkKey (set chunkKey entry store))) k = get store k).
Proof.
  intros store k e e'. split; [apply get_set_eq|]. split; [apply get_set_eq|].
  split; [intros k' Hk; by apply get_set_ne|].
  rewrite cleanupChunk_store. split; [apply get_delete_eq|].
  intros k' Hk. rewrite get_delete_ne by done. by apply get_set_ne.
Qed.

Lemma X18_witness :
  get (set "7-1" {| request := None; response := None; fileStream := None;
                    timeoutId := Some 5%nat; progressCheckInterval := None |}
           example_store) "71-0"
  = get example_store "71-0".
Proof.
  apply (proj1 (proj2 (proj2 (X18_set_get_cleanup_life_cycle example_store "7-1"
           {| request := None; response := None; fileStream := None;
              timeoutId := Some 5%nat; progressCheckInterval := None |}
           {| request := None; response := None; fileStream := None;
              timeoutId := Some 5%nat; progressCheckInterval := None |})))).
  discriminate.
Defined.

(** The two registries of the chunk engine that [cleanupActiveChunk]
    touches: the [ChunkManager] store and [engine.activeChunks]. *)
Record ChunkEngineRef (A : Type) := Engine {
  chunkManager : Store;
  activeChunks : gmap string A
}.
Arguments Engine {A}.
Arguments chunkManager {A}.
Arguments activeChunks {A}.

Definition cleanupActiveChunk {A} (engine : ChunkEngineRef A)
    (downloadId chunkIndex : Z) : ChunkEngineRef A * list Effect :=
  let key := pretty downloadId ++ "-" ++ pretty chunkIndex in
  let '(store, tr) := cleanupChunk key (chunkManager engine) in
  (Engine store (base.delete key (activeChunks engine)), tr).

Lemma key_inj d c d' c' :
  0 ≤ d → 0 ≤ d' → key d c = key d' c' → d = d' ∧ c = c'.
Proof.
  intros Hd Hd' Hkey.
  assert (d = d') as <-.
  { apply (key_prefix d d' c' Hd Hd'). rewrite <- Hkey. unfold key.
    rewrite <- string_app_assoc. apply prefix_app_l. }
  split; [done|]. unfold key in Hkey.
  apply string_app_inv_l, string_app_inv_l in Hkey. by apply (inj pretty).
Qed.

(** X19. [cleanupActiveChunk(engine, id, i)] leaves the chunk [(id, i)] in
    neither registry, and, for download ids that are not negative, every
    other chunk [(id', i')] stays in both exactly as it was: the key
    [`${id}-${i}`] names one chunk only. *)
Theorem X19_cleanupActiveChunk_removes_one_chunk :
  ∀ A (engine : ChunkEngineRef A) downloadId chunkIndex,
    let engine' := fst (cleanupActiveChunk engine downloadId chunkIndex) in
    get (chunkManager engine') (key downloadId chunkIndex) = None
    ∧ activeChunks engine' !! key downloadId chunkIndex = None
    ∧ ∀ downloadId' chunkIndex',
        0 ≤ downloadId → 0 ≤ downloadId' →
        (downloadId', chunkIndex') ≠ (downloadId, chunkIndex) →
        get (chunkManager engine') (key downloadId' chunkIndex')
        = get (chunkManager engine) (key downloadId' chunkIndex')
        ∧ activeChunks engine' !! key downloadId' chunkIndex'
          = activeChunks engine !! key downloadId' chunkIndex'.
Proof.
  intros A engine d c. unfold cleanupActiveChunk. fold (key d c).
  pose proof (cleanupChunk_store (key d c) (chunkManager engine)) as Hstore.
  destruct (cleanupChunk (key d c) (chunkManager engine)) as [store tr].
  simpl in *. subst store. split; [apply get_delete_eq|].
  split; [apply lookup_delete_eq|].
  intros d' c' Hd Hd' Hne.
  assert (key d' c' ≠ key d c) as Hkey.
  { intros Heq. apply key_inj in Heq as [-> ->]; done. }
  split; [by apply get_delete_ne | by apply lookup_delete_ne].
Qed.

Lemma X19_witness :
  get (chunkManager (fst (cleanupActiveChunk
                            (Engine example_store ({[ "7-0" := 1%nat; "71-0" := 2%nat ]}))
                            7 0))) (key 71 0)
  = get example_store (key 71 0)
  ∧ activeChunks (fst (cleanupActiveChunk
                         (Engine example_store ({[ "7-0" := 1%nat; "71-0" := 2%nat ]}))
                         7 0)) !! key 71 0
    = ({[ "7-0" := 1%nat; "71-0" := 2%nat ]} : gmap string nat) !! key 71 0.
Proof.
  assert (0 ≤ 7) as H7 by lia. assert (0 ≤ 71) as H71 by lia.
  assert ((71, 0) ≠ (7, 0)) as Hne by congruence.
  exact (proj2 (proj2 (X19_cleanupActiveChunk_removes_one_chunk nat
           (Engine example_store ({[ "7-0" := 1%nat; "71-0" := 2%nat ]})) 7 0))
           71 0 H7 H71 Hne).
Defined.

End ChunkManagerFacts.

(** ** utils/rateLimiter: the budget over time *)

Module RateLimiterFacts.
Import RateLimiter.

(** The timestamps stored for a key, [[]] without an entry. *)
Definition stored (rl : t) (identifier : string) : list Z :=
  default [] (requests rl !! identifier).

(** The timestamps of [l] inside the window that ends at [now]. *)
Definition inWindow (w now : Z) (l : list Z) : list Z :=
  filter (λ ts, now - ts < w) l.

(** A run of [isAllowed] calls, each with the clock reading it sees; the
    result lists the readings of the calls granted for [identifier]. *)
Fixpoint granted (identifier : string) (calls : list (Z * string)) (rl : t) : list Z :=
  match calls with
  | [] => []
  | (now, k) :: rest =>
      let '(ok, rl') := isAllowed now k rl in
      ((if ok && String.eqb k identifier then [now] else [])
         ++ granted identifier rest rl')%list
  end.

(** The clock never goes back: readings are non-decreasing from [t0] on. *)
Fixpoint nondecreasing (t0 : Z) (calls : list (Z * string)) : Prop :=
  match calls with
  | [] => True
  | (now, _) :: rest => t0 ≤ now ∧ nondecreasing now rest
  end.

Lemma inWindow_app w now l1 l2 :
  inWindow w now (l1 ++ l2) = (inWindow w now l1 ++ inWindow w now l2)%list.
Proof. apply filter_app. Qed.

Lemma inWindow_later w now t l :
  now ≤ t → inWindow w t (inWindow w now l) = inWindow w t l.
Proof. intros Hle. unfold inWindow. apply list_filter_filter_l. intros ts. lia. Qed.

Lemma inWindow_length w now l : (length (inWindow w now l) ≤ length l)%nat.
Proof. apply length_filter. Qed.

Lemma isAllowed_params now k rl :
  maxRequests (snd (isAllowed now k rl)) = maxRequests rl
  ∧ windowMs (snd (isAllowed now k rl)) = windowMs rl.
Proof.
  unfold isAllowed. destruct (String.eqb k ""); [done|].
  by destruct (maxRequests rl <=? _).
Qed.

Lemma isAllowed_stored now k rl identifier :
  stored (snd (isAllowed now k rl)) identifier
  = if fst (isAllowed now k rl) && String.eqb k identifier
    then (inWindow (windowMs rl) now (stored rl identifier) ++ [now])%list
    else stored rl identifier.
Proof.
  unfold isAllowed, stored, recentRequests, inWindow.
  destruct (String.eqb k ""); [done|].
  destruct (maxRequests rl <=? _); [done|]. simpl.
  destruct (String.eqb_spec k identifier) as [->|Hne].
  - by rewrite lookup_insert_eq.
  - by rewrite lookup_insert_ne.
Qed.

Lemma isAllowed_granted now k rl :
  fst (isAllowed now k rl) = true →
  Z.of_nat (length (inWindow (windowMs rl) now (stored rl k))) < maxRequests rl.
Proof.
  unfold isAllowed, stored, recentRequests, inWindow.
  destruct (String.eqb k ""); [done|].
  destruct (Z.leb_spec (maxRequests rl)
              (Z.of_nat (length (filter (λ ts, now - ts < windowMs rl)
                                        (default [] (requests rl !! k)))))); [done|].
  intros _. lia.
Qed.

(** The window ending at [t], read on the granted requests. *)
Definition grantedInWindow (w t : Z) (l : list Z) : list Z :=
  filter (λ ts, t - ts < w ∧ ts ≤ t) l.

Lemma grantedInWindow_future w t l :
  Forall (λ ts, t < ts) l → grantedInWindow w t l = [].
Proof.
  intros Hall. unfold grantedInWindow.
  induction Hall as [|ts l Hts Hall IH]; [done|].
  rewrite filter_cons_False by lia. done.
Qed.

Lemma granted_after identifier calls : ∀ rl t0 t,
  nondecreasing t0 calls → t < t0 →
  Forall (λ ts, t < ts) (granted identifier calls rl).
Proof.
  induction calls as [|[now k] rest IH]; intros rl t0 t Hmono Ht; simpl; [done|].
  destruct Hmono as [Hnow Hrest].
  destruct (isAllowed now k rl) as [ok rl']. apply Forall_app. split.
  - destruct (ok && String.eqb k identifier); [|done].
    apply List.Forall_cons; [lia | done].
  - apply (IH rl' now t); [done | lia].
Qed.

Lemma grantedInWindow_le w t l :
  (length (grantedInWindow w t l) ≤ length (inWindow w t l))%nat.
Proof.
  unfold grantedInWindow, inWindow. induction l as [|ts l IH]; [done|].
  destruct (decide (t - ts < w ∧ ts ≤ t)) as [[H1 H2]|Hn].
  - rewrite !filter_cons_True by done. simpl. lia.
  - rewrite (filter_cons_False (λ ts, t - ts < w ∧ ts ≤ t)) by done.
    destruct (decide (t - ts < w)).
    + rewrite filter_cons_True by done. simpl. lia.
    + by rewrite filter_cons_False by done.
Qed.

(** The invariant of a run: for every later clock reading the stored list
    and the list of all granted requests agree inside the window, and the
    window is within budget. *)
Definition inBudget (rl : t) (identifier : string) (tlast : Z) (log : list Z) : Prop :=
  ∀ t, tlast ≤ t →
    inWindow (windowMs rl) t (stored rl identifier) = inWindow (windowMs rl) t log
    ∧ Z.of_nat (length (inWindow (windowMs rl) t log)) ≤ maxRequests rl.

Lemma inBudget_step rl identifier tlast log now k :
  inBudget rl identifier tlast log → tlast ≤ now →
  inBudget (snd (isAllowed now k rl)) identifier now
    (log ++ (if fst (isAllowed now k rl) && String.eqb k identifier then [now] else []))%list.
Proof.
  intros Hinv Hnow t Ht.
  destruct (isAllowed_params now k rl) as [-> ->].
  rewrite isAllowed_stored.
  destruct (fst (isAllowed now k rl)) eqn:Hok; simpl;
    [destruct (String.eqb_spec k identifier) as [->|Hne]|];
    try (rewrite app_nil_r; apply Hinv; lia).
  destruct (Hinv t) as [Heq Hlen]; [lia|].
  pose proof (isAllowed_granted now identifier rl Hok) as Hlt.
  rewrite !inWindow_app, inWindow_later by done. rewrite Heq. split; [done|].
  rewrite length_app.
  assert (length (inWindow (windowMs rl) t [now]) ≤ 1)%nat
    by apply (inWindow_length _ _ [now]).
  assert (length (inWindow (windowMs rl) t log)
          ≤ length (inWindow (windowMs rl) now (stored rl identifier)))%nat.
  { rewrite <- Heq, <- (inWindow_later _ now t) by done. apply inWindow_length. }
  lia.
Qed.

Lemma granted_in_budget identifier calls : ∀ rl tlast log t,
  inBudget rl identifier tlast log → nondecreasing tlast calls → tlast ≤ t →
  Z.of_nat (length (grantedInWindow (windowMs rl) t
                      (log ++ granted identifier calls rl)))
  ≤ maxRequests rl.
Proof.
  induction calls as [|[now k] rest IH]; intros rl tlast log t Hinv Hmono Ht.
  - simpl. rewrite app_nil_r. destruct (Hinv t Ht) as [_ Hlen].
    pose proof (grantedInWindow_le (windowMs rl) t log). lia.
  - destruct Hmono as [Hnow Hrest].
    destruct (Z.le_gt_cases now t) as [Hle|Hgt].
    + pose proof (inBudget_step rl identifier tlast log now k Hinv Hnow) as Hstep.
      destruct (isAllowed_params now k rl) as [Hmax Hw].
      specialize (IH (snd (isAllowed now k rl)) now _ t Hstep Hrest Hle).
      rewrite Hmax, Hw in IH. simpl.
      destruct (isAllowed now k rl) as [ok rl']. simpl in *.
      by rewrite app_assoc.
    + unfold grantedInWindow at 1. rewrite filter_app.
      fold (grantedInWindow (windowMs rl) t log).
      fold (grantedInWindow (windowMs rl) t (granted identifier ((now, k) :: rest) rl)).
      rewrite (grantedInWindow_future _ t (granted identifier ((now, k) :: rest) rl)).
      * rewrite app_nil_r. destruct (Hinv t Ht) as [_ Hlen].
        pose proof (grantedInWindow_le (windowMs rl) t log). lia.
      * apply (granted_after identifier ((now, k) :: rest) rl now t); [|lia].
        simpl. split; [lia | done].
Qed.

(** X20. The limit holds over time. On a limiter built by the constructor
    and used through [isAllowed] with a clock that never goes back, for
    every key and every instant [t], at most [maxRequests] of the granted
    requests of that key fall in the window [(t - windowMs, t]]. *)
Theorem X20_at_most_maxRequests_granted_per_window :
  ∀ maxRequests windowMs rl identifier calls t0 t,
    constructor maxRequests windowMs = Some rl →
    nondecreasing t0 calls → t0 ≤ t →
    Z.of_nat (length (grantedInWindow windowMs t (granted identifier calls rl)))
    ≤ maxRequests.
Proof.
  intros maxR w rl identifier calls t0 t Hctor Hmono Ht.
  unfold constructor in Hctor.
  destruct (Z.leb_spec maxR 0); [done|]. destruct (Z.leb_spec w 0); [done|].
  simpl in Hctor. injection Hctor as <-.
  apply (granted_in_budget identifier calls (Build maxR w ∅) t0 [] t); [|done|done].
  intros t' _. unfold stored. simpl. rewrite lookup_empty. simpl. split; [done | lia].
Qed.

Example granted_example :
  granted "42" [(1000, "42"); (1100, "42"); (1200, "7"); (1300, "42"); (2050, "42")]
    (Build 2 1000 ∅)
  = [1000; 1100; 2050].
Proof. vm_compute. reflexivity. Qed.

Lemma X20_witness :
  Z.of_nat (length (grantedInWindow 1000 2050
                      (granted "42" [(1000, "42"); (1100, "42"); (1200, "7");
                                     (1300, "42"); (2050, "42")] (Build 2 1000 ∅))))
  ≤ 2.
Proof.
  apply (X20_at_most_maxRequests_granted_per_window 2 1000 (Build 2 1000 ∅) "42"
           [(1000, "42"); (1100, "42"); (1200, "7"); (1300, "42"); (2050, "42")]
           1000 2050).
  - reflexivity.
  - simpl. lia.
  - lia.
Defined.

(** *** [getStatus], [cleanup], [reset] and [record] *)

Record RateLimiterStatus := Status {
  count : Z;
  remaining : Z;
  resetTime : Z;
  resetInMs : Z
}.

(** [Math.min(...l)] on a non-empty list. *)
Definition minimum (first : Z) (others : list Z) : Z := fold_left Z.min others first.

Definition getStatus (now : Z) (identifier : string) (rl : t) : option RateLimiterStatus :=
  if String.eqb identifier "" then None
  else
    match recentRequests now identifier rl with
    | [] => None
    | first :: others =>
        let n := Z.of_nat (length (first :: others)) in
        let oldestRequest := minimum first others in
        let resetTime := oldestRequest + windowMs rl in
        Some (Status n (Z.max 0 (maxRequests rl - n)) resetTime (Z.max 0 (resetTime - now)))
    end.

Definition resetAll (rl : t) : Z * t :=
  (Z.of_nat (size (requests rl)), Build (maxRequests rl) (windowMs rl) ∅).

Lemma minimum_elem first others : minimum first others ∈ first :: others.
Proof.
  unfold minimum. revert first. induction others as [|x others IH]; intros first; simpl.
  - by left.
  - pose proof (IH (Z.min first x)) as Hin.
    apply elem_of_cons in Hin as [Heq|Hin].
    + rewrite Heq. destruct (Z.min_spec first x) as [[_ ->]|[_ ->]];
        [by left | right; by left].
    + right. by right.
Qed.

(** X21. When [isAllowed] refuses a non-empty key of a limiter with a
    positive budget, [getStatus] read at the same clock value is not [null]:
    it reports at least [maxRequests] requests, none remaining, and a
    strictly positive [resetInMs], the delay the search handler returns as
    [retryAfter]. *)
Theorem X21_status_after_a_refusal :
  ∀ now identifier rl,
    0 < maxRequests rl → identifier ≠ "" →
    fst (isAllowed now identifier rl) = false →
    ∃ st, getStatus now identifier rl = Some st
          ∧ maxRequests rl ≤ count st
          ∧ remaining st = 0
          ∧ 0 < resetInMs st
          ∧ resetInMs st = resetTime st - now.
Proof.
  intros now k rl Hmax Hne Hrefused. unfold isAllowed, getStatus in *.
  destruct (String.eqb_spec k ""); [done|].
  destruct (Z.leb_spec (maxRequests rl) (Z.of_nat (length (recentRequests now k rl))))
    as [Hfull|]; [|done].
  destruct (recentRequests now k rl) as [|first others] eqn:Hrecent;
    [simpl in Hfull; lia|].
  eexists. split; [done|]. simpl.
  assert (now - minimum first others < windowMs rl) as Hold.
  { pose proof (minimum_elem first others) as Hin. rewrite <- Hrecent in Hin.
    unfold recentRequests in Hin. apply list_elem_of_filter in Hin as [Hin _]. done. }
  simpl in Hfull. lia.
Qed.

Lemma X21_witness :
  ∃ st, getStatus 5000 "42" (Build 2 1000 {[ "42" := [4200; 4500] ]}) = Some st
        ∧ 2 ≤ count st ∧ remaining st = 0 ∧ 0 < resetInMs st
        ∧ resetInMs st = resetTime st - 5000.
Proof.
  apply (X21_status_after_a_refusal 5000 "42" (Build 2 1000 {[ "42" := [4200; 4500] ]})).
  - simpl. lia.
  - discriminate.
  - vm_compute. reflexivity.
Defined.

Lemma stored_cleanup now rl identifier :
  stored (cleanup now rl) identifier
  = inWindow (windowMs rl) now (stored rl identifier).
Proof.
  unfold stored, cleanup, inWindow. simpl. rewrite lookup_omap.
  destruct (requests rl !! identifier) as [l|]; simpl; [|done].
  by destruct (filter _ l).
Qed.

(** X22. The periodic [cleanup()] is invisible to callers: at the clock
    value of the cleanup or any later one, [isAllowed] gives for every key
    the answer it would have given without the cleanup. *)
Theorem X22_cleanup_changes_no_decision :
  ∀ now t identifier rl,
    now ≤ t →
    recentRequests t identifier (cleanup now rl) = recentRequests t identifier rl
    ∧ fst (isAllowed t identifier (cleanup now rl)) = fst (isAllowed t identifier rl).
Proof.
  intros now t k rl Hle.
  assert (recentRequests t k (cleanup now rl) = recentRequests t k rl) as Hrecent.
  { pose proof (stored_cleanup now rl k) as Hs. unfold stored in Hs.
    unfold recentRequests. rewrite Hs. simpl. by apply inWindow_later. }
  split; [done|]. unfold isAllowed. rewrite Hrecent. simpl.
  destruct (String.eqb k ""); [done|]. by destruct (maxRequests rl <=? _).
Qed.

Lemma X22_witness :
  fst (isAllowed 5200 "42" (cleanup 5100 (Build 2 1000 {[ "42" := [3000; 4500] ]})))
  = fst (isAllowed 5200 "42" (Build 2 1000 {[ "42" := [3000; 4500] ]})).
Proof.
  assert (5100 ≤ 5200) as Hle by lia.
  exact (proj2 (X22_cleanup_changes_no_decision 5100 5200 "42"
                  (Build 2 1000 {[ "42" := [3000; 4500] ]}) Hle)).
Defined.

(** X23. [record] counts a request without asking: with a positive window
    the key has one more request in its window afterwards, whatever the
    budget, so that a following [isAllowed] may find it exhausted. [reset]
    gives the key its whole budget back: on a limiter with a positive
    budget the next [isAllowed] of a non-empty key is granted; and [reset]
    tells whether the key had an entry. *)
Theorem X23_record_and_reset :
  ∀ now identifier rl,
    (0 < windowMs rl →
       recentRequests now identifier (record now identifier rl)
       = (recentRequests now identifier rl ++ [now])%list)
    ∧ (0 < maxRequests rl → identifier ≠ "" →
       ∀ t, fst (isAllowed t identifier (snd (reset identifier rl))) = true)
    ∧ (fst (reset identifier rl) = true ↔ is_Some (requests rl !! identifier)).
Proof.
  intros now k rl. split; [|split].
  - intros Hw. unfold record, recentRequests. simpl. rewrite lookup_insert_eq. simpl.
    rewrite filter_app. f_equal.
    + apply list_filter_filter_l. done.
    + rewrite filter_cons_True by lia. done.
  - intros Hmax Hne t. unfold reset, isAllowed, recentRequests.
    destruct (String.eqb_spec k ""); [done|].
    destruct (requests rl !! k) as [l|] eqn:Hl; simpl.
    + rewrite lookup_delete_eq. simpl.
      by destruct (Z.leb_spec (maxRequests rl) (Z.of_nat 0)); [lia|].
    + rewrite Hl. simpl.
      by destruct (Z.leb_spec (maxRequests rl) (Z.of_nat 0)); [lia|].
  - unfold reset. destruct (requests rl !! k); simpl; split; done.
Qed.

Lemma X23_witness :
  recentRequests 5000 "42" (record 5000 "42" (Build 2 1000 {[ "42" := [4200; 4500] ]}))
  = [4200; 4500; 5000]
  ∧ fst (isAllowed 5000 "42"
           (snd (reset "42" (Build 2 1000 {[ "42" := [4200; 4500] ]})))) = true.
Proof.
  pose proof (X23_record_and_reset 5000 "42" (Build 2 1000 {[ "42" := [4200; 4500] ]})) as W.
  split.
  - rewrite (proj1 W); [vm_compute; reflexivity | simpl; lia].
  - apply (proj1 (proj2 W)); [simpl; lia | discriminate].
Defined.

End RateLimiterFacts.

(** ** utils/schemas: the string schemas *)

Module SchemasFacts.
Import Schemas.

(** [z.string()] with [.min], [.max] and [.regex] checks; lengths are
    counted in characters of ASCII text. *)
Inductive stringCheck :=
| SMin (n : nat) (message : string)
| SMax (n : nat) (message : string)
| SRegex (test : string → bool) (message : string).

Definition stringCheckIssue (s : string) (c : stringCheck) : option string :=
  match c with
  | SMin n message => if (String.length s <? n)%nat then Some message else None
  | SMax n message => if (n <? String.length s)%nat then Some message else None
  | SRegex test message => if test s then None else Some message
  end.

(** The messages of the issues found; a value that is not a string yields
    the single type issue. *)
Definition parseString (typeMessage : string) (checks : list stringCheck) (v : JsVal)
  : list string :=
  match v with
  | JString s => omap (stringCheckIssue s) checks
  | _ => [typeMessage]
  end.

(** [{ success, data?, error? }] for a schema whose output is a string. *)
Record StringResult := { ok : bool; value : option string; failure : option string }.

Section WithMessages.

(** Zod's message for a value of the wrong type and the texts of
    [VALIDATIONS]. *)
Variable typeMessage : string.
Variable TERM_MIN_LENGTH TERM_MAX_LENGTH : string.
Variable FILENAME_CANNOT_BE_EMPTY FILENAME_TOO_LONG FILENAME_INVALID_FORMAT : string.

(** [validate(searchSchema, { searchTerm })]: the only field is
    [searchTerm], checked with [.min(2)] and [.max(100)] and then, when no
    issue was found, transformed with [val.trim()]. *)
Definition validateSearch (searchTerm : JsVal) : StringResult :=
  match parseString typeMessage
          [SMin 2 TERM_MIN_LENGTH; SMax 100 TERM_MAX_LENGTH] searchTerm with
  | [] =>
      {| ok := true;
         value := match searchTerm with
                  | JString s => Some (DownloadPath.trim s)
                  | _ => None
                  end;
         failure := None |}
  | issues =>
      {| ok := false; value := None;
         failure := Some (String.concat "; " ((λ m, "searchTerm: " ++ m) <$> issues)) |}
  end.

Definition isNameChar (c : ascii) : bool :=
  let n := nat_of_ascii c in
  ((48 <=? n) && (n <=? 57) || (65 <=? n) && (n <=? 90) || (97 <=? n) && (n <=? 122)
   || (n =? 95) || (n =? 45))%nat.

(** [/^[a-zA-Z0-9_-]+\.json$/.test(s)]: read name characters, at least
    one, then exactly [.json]. *)
Fixpoint matchesAfter (seen : bool) (s : string) : bool :=
  match s with
  | EmptyString => false
  | String c rest =>
      if isNameChar c then matchesAfter true rest
      else seen && String.eqb s ".json"
  end.

Definition matchesConfigFilename (s : string) : bool := matchesAfter false s.

Definition validateConfigFilename (filename : JsVal) : StringResult :=
  match parseString typeMessage
          [SMin 1 FILENAME_CANNOT_BE_EMPTY; SMax 100 FILENAME_TOO_LONG;
           SRegex matchesConfigFilename FILENAME_INVALID_FORMAT] filename with
  | [] =>
      {| ok := true;
         value := match filename with JString s => Some s | _ => None end;
         failure := None |}
  | issues => {| ok := false; value := None; failure := Some (String.concat "; " issues) |}
  end.

(** X24. [validateSearch] applies its length limits to the raw term and
    trims afterwards: a string is accepted exactly when it has 2 to 100
    characters, the data returned is the trimmed string, and anything that
    is not a string is refused. So an accepted term can come back shorter
    than two characters, even empty, when the input was padded with
    spaces. *)
Theorem X24_validateSearch_checks_length_before_trimming :
  ∀ s,
    (ok (validateSearch (JString s)) = true
     ↔ (2 ≤ String.length s ≤ 100)%nat)
    ∧ (ok (validateSearch (JString s)) = true →
       value (validateSearch (JString s)) = Some (DownloadPath.trim s))
    ∧ ((2 ≤ String.length s ≤ 100)%nat → DownloadPath.trim s = "" →
       validateSearch (JString s) = {| ok := true; value := Some ""; failure := None |})
    ∧ ∀ v, (∀ s', v ≠ JString s') → ok (validateSearch v) = false.
Proof.
  intros s.
  assert (∀ P : StringResult → Prop,
            ((2 ≤ String.length s ≤ 100)%nat →
               P {| ok := true; value := Some (DownloadPath.trim s); failure := None |}) →
            (¬ (2 ≤ String.length s ≤ 100)%nat →
               ∀ r, ok r = false → P r) →
            P (validateSearch (JString s))) as Hcases.
  { intros P Hyes Hno. unfold validateSearch, parseString. simpl.
    destruct (Nat.ltb_spec (String.length s) 2), (Nat.ltb_spec 100 (String.length s));
      simpl; try (apply Hno; [lia | done]). apply Hyes. lia. }
  split; [|split; [|split]].
  - apply Hcases.
    + intros Hlen. simpl. split; done.
    + intros Hn r Hr. rewrite Hr. split; [discriminate | done].
  - apply Hcases; [done|]. intros _ r Hr. rewrite Hr. discriminate.
  - intros Hlen Htrim. revert Hlen. apply Hcases.
    + intros _ _. by rewrite Htrim.
    + intros Hn r _ Hlen. done.
  - intros v Hv. unfold validateSearch, parseString.
    destruct v as [| | | |s'| |]; try done. by destruct (Hv s').
Qed.

Fixpoint allNameChars (s : string) : bool :=
  match s with
  | EmptyString => true
  | String c rest => isNameChar c && allNameChars rest
  end.

Lemma matchesAfter_shape s : ∀ seen,
  matchesAfter seen s = true →
  ∃ base, s = base ++ ".json" ∧ allNameChars base = true
          ∧ (seen = true ∨ base ≠ "").
Proof.
  induction s as [|c rest IH]; intros seen Hm; [done|].
  cbn [matchesAfter] in Hm. destruct (isNameChar c) eqn:Hc.
  - destruct (IH true Hm) as (base & -> & Hbase & _).
    exists (String c base). split; [done|]. split; [|by right].
    cbn [allNameChars]. by rewrite Hc, Hbase.
  - apply andb_true_iff in Hm as [-> Heq]. apply String.eqb_eq in Heq.
    exists "". split; [done|]. split; [done | by left].
Qed.

(** The number of dots of a string. *)
Fixpoint countDots (s : string) : nat :=
  match s with
  | EmptyString => 0
  | String c rest => ((if Ascii.eqb c "." then 1 else 0) + countDots rest)%nat
  end.

Lemma substring_two_dots s : ∀ m,
  String.substring m 2 s = ".." → (2 ≤ countDots s)%nat.
Proof.
  induction s as [|c rest IH]; intros m Hsub.
  - by destruct m.
  - destruct m as [|m]; cbn [String.substring countDots] in *.
    + injection Hsub as -> Hrest. destruct rest as [|c' rest']; [done|].
      cbn [String.substring countDots] in *. injection Hrest as -> _. simpl. lia.
    + apply IH in Hsub. lia.
Qed.

Lemma nameChars_no_dot base :
  allNameChars base = true →
  countDots (base ++ ".json") = 1%nat
  ∧ Forall (λ c, DownloadPath.isSlash c = false) (list_ascii_of_string (base ++ ".json")).
Proof.
  induction base as [|c base IH]; intros Hall.
  - split; [reflexivity|]. repeat constructor.
  - cbn [allNameChars] in Hall. apply andb_true_iff in Hall as [Hc Hall].
    destruct (IH Hall) as [Hdots Hslash].
    rewrite Decimal.string_app_cons.
    cbn [countDots list_ascii_of_string]. split.
    + rewrite Hdots. destruct (Ascii.eqb_spec c ".") as [->|]; [discriminate | done].
    + apply List.Forall_cons; [|done].
      unfold DownloadPath.isSlash.
      destruct (Ascii.eqb_spec c "/") as [->|]; [discriminate|].
      destruct (Ascii.eqb_spec c "\") as [->|]; [discriminate | done].
Qed.

(** X25. A filename accepted by [validateConfigFilename] is a non-empty
    run of letters, digits, [_] and [-] followed by [.json], at most 100
    characters long, returned unchanged: it holds no [/], no [\] and no
    [..], so it cannot name a file outside the directory it is joined to.
    A value that is not a string is refused. *)
Theorem X25_config_filenames_cannot_leave_their_directory :
  ∀ filename,
    ok (validateConfigFilename filename) = true →
    ∃ base,
      filename = JString (base ++ ".json")
      ∧ value (validateConfigFilename filename) = Some (base ++ ".json")
      ∧ base ≠ "" ∧ allNameChars base = true
      ∧ (String.length (base ++ ".json") ≤ 100)%nat
      ∧ Forall (λ c, DownloadPath.isSlash c = false)
               (list_ascii_of_string (base ++ ".json"))
      ∧ DownloadPath.includes ".." (base ++ ".json") = false.
Proof.
  intros filename Hok. unfold validateConfigFilename, parseString in *.
  destruct filename as [| | | |s| |]; try discriminate. simpl in *.
  destruct (Nat.ltb_spec (String.length s) 1); [discriminate|].
  destruct (Nat.ltb_spec 100 (String.length s)); [discriminate|].
  destruct (matchesConfigFilename s) eqn:Hm; [|discriminate].
  destruct (matchesAfter_shape s false Hm) as (base & -> & Hbase & [?|Hne]); [done|].
  destruct (nameChars_no_dot base Hbase) as [Hdots Hslash].
  exists base. repeat split; try done.
  unfold DownloadPath.includes.
  destruct (String.index 0 ".." (base ++ ".json")) as [m|] eqn:Hidx; [|done].
  apply String.index_correct1 in Hidx. apply substring_two_dots in Hidx. lia.
Qed.

End WithMessages.

Example validateSearch_padded :
  validateSearch "Expected string" "min" "max" (JString "  a  ")
  = {| ok := true; value := Some "a"; failure := None |}
  ∧ validateSearch "Expected string" "min" "max" (JString "a")
    = {| ok := false; value := None; failure := Some "searchTerm: min" |}.
Proof. split; reflexivity. Qed.

Lemma X24_witness :
  validateSearch "Expected string" "min" "max" (JString "   ")
  = {| ok := true; value := Some ""; failure := None |}.
Proof.
  apply (proj1 (proj2 (proj2 (X24_validateSearch_checks_length_before_trimming
           "Expected string" "min" "max" "   "))));
    [simpl; lia | reflexivity].
Defined.

Example validateConfigFilename_examples :
  ok (validateConfigFilename "Expected string" "empty" "long" "format"
        (JString "favorites-v2.json")) = true
  ∧ ok (validateConfigFilename "Expected string" "empty" "long" "format"
          (JString "../secrets.json")) = false
  ∧ ok (validateConfigFilename "Expected string" "empty" "long" "format"
          (JString ".json")) = false.
Proof. repeat split. Qed.

Lemma X25_witness :
  ∃ base,
    JString "favorites-v2.json" = JString (base ++ ".json")
    ∧ value (validateConfigFilename "Expected string" "empty" "long" "format"
               (JString "favorites-v2.json")) = Some (base ++ ".json")
    ∧ base ≠ "" ∧ allNameChars base = true
    ∧ (String.length (base ++ ".json") ≤ 100)%nat
    ∧ Forall (λ c, DownloadPath.isSlash c = false)
             (list_ascii_of_string (base ++ ".json"))
    ∧ DownloadPath.includes ".." (base ++ ".json") = false.
Proof.
  apply (X25_config_filenames_cannot_leave_their_directory
           "Expected string" "empty" "long" "format" (JString "favorites-v2.json")).
  reflexivity.
Defined.

End SchemasFacts.

(** ** utils/downloadPath: the two validators, termination, drive roots *)

Module DownloadPathFacts.
Import DownloadPath.

(** X26. The synchronous pre-check and the full validation agree except on
    write access: whenever [validateDownloadPath] settles, a path it
    accepts gets the very same result from [validateDownloadPathSync], and
    a path the synchronous check rejects gets that same rejection. The
    results differ only when the synchronous check accepts and the
    directory is not writable, in which case the full validation answers
    [valid = false] with [warningReason = 'readonly'] and no block
    reason. *)
Theorem X26_full_validation_refines_the_synchronous_check :
  ∀ P platform SYSTEMDRIVE access fuel input r,
    validateDownloadPath P platform SYSTEMDRIVE access fuel input = Some r →
    (valid r = true → validateDownloadPathSync P platform SYSTEMDRIVE input = r)
    ∧ (valid (validateDownloadPathSync P platform SYSTEMDRIVE input) = false →
       r = validateDownloadPathSync P platform SYSTEMDRIVE input)
    ∧ (valid (validateDownloadPathSync P platform SYSTEMDRIVE input) = true →
       valid r = false →
       warningReason r = Some readonly ∧ blockReason r = None
       ∧ path r = path (validateDownloadPathSync P platform SYSTEMDRIVE input)).
Proof.
  intros P platform env access fuel input r.
  unfold validateDownloadPath, validateDownloadPathSync.
  destruct (normalizePathForValidation P input) as [resolved|];
    [|intros [= <-]; repeat split; done].
  destruct (isSystemRoot platform resolved); [intros [= <-]; repeat split; done|].
  destruct (isPathUnder P platform _ (getCriticalSystemPaths P platform env));
    [intros [= <-]; repeat split; done|].
  destruct (checkWriteAccess P access fuel resolved) as [[writable err]|]; [|done].
  destruct writable; simpl; intros [= <-];
    destruct (isPathUnder P platform _ (getSensitivePaths P platform env));
    repeat split; done.
Qed.

Lemma X26_witness :
  validateDownloadPathSync (Posix.module "/home/ana") Linux None "roms/snes"
  = Result true (Some "/home/ana/roms/snes") None None None.
Proof.
  apply (proj1 (X26_full_validation_refines_the_synchronous_check
                  (Posix.module "/home/ana") Linux None
                  (λ p, if String.eqb p "/home/ana" then Granted else ENOENT) 4
                  "roms/snes" (Result true (Some "/home/ana/roms/snes") None None None)
                  eq_refl)).
  reflexivity.
Defined.

(** *** [checkWriteAccess] ends on POSIX paths *)

Lemma scanDirname_bound cs : ∀ i matchedSlash e,
  (length cs ≤ i)%nat → Posix.scanDirname cs i matchedSlash = Some e →
  (i - length cs < e ≤ i)%nat ∧ (matchedSlash = true → e < i)%nat.
Proof.
  induction cs as [|c cs IH]; intros i b e Hlen Hscan; [done|].
  simpl in Hlen. cbn [Posix.scanDirname] in Hscan.
  destruct (Ascii.eqb c "/").
  - destruct b.
    + apply IH in Hscan as [Hrange _]; [|lia]. simpl. lia.
    + injection Hscan as <-. simpl. split; [lia | done].
  - apply IH in Hscan as [Hrange _]; [|lia]. simpl. lia.
Qed.

Lemma length_list_ascii s : length (list_ascii_of_string s) = String.length s.
Proof. induction s as [|c s IH]; simpl; [done | by rewrite IH]. Qed.

Lemma length_substring_0 s : ∀ n,
  (n ≤ String.length s)%nat → String.length (String.substring 0 n s) = n.
Proof.
  induction s as [|c s IH]; intros n Hn.
  - simpl in Hn. by replace n with 0%nat by lia.
  - destruct n as [|n]; [done|]. simpl in *. rewrite IH; [done | lia].
Qed.

(** The parent of an absolute path is the path itself (at the root) or a
    shorter absolute path. *)
Lemma dirname_absolute p :
  Posix.isAbsolute p = true →
  Posix.dirname p = p
  ∨ (Posix.isAbsolute (Posix.dirname p) = true
     ∧ (String.length (Posix.dirname p) < String.length p)%nat).
Proof.
  intros Habs. destruct p as [|c rest]; [done|]. unfold Posix.dirname.
  change (String.eqb (String c rest) "") with false. cbv iota. rewrite Habs.
  cbn [list_ascii_of_string tail length].
  replace (S (length (list_ascii_of_string rest)) - 1)%nat
    with (length (list_ascii_of_string rest)) by lia.
  destruct (Posix.scanDirname (rev (list_ascii_of_string rest))
              (length (list_ascii_of_string rest)) true) as [e|] eqn:Hscan.
  - apply scanDirname_bound in Hscan as [Hrange Hlt];
      [|by rewrite length_rev]. specialize (Hlt eq_refl).
    rewrite length_rev in Hrange. rewrite length_list_ascii in *.
    right. cbn [andb]. destruct (Nat.eqb_spec e 1) as [->|Hne].
    + split; [done|]. simpl. lia.
    + destruct e as [|e]; [lia|]. split.
      * simpl in Habs |- *. done.
      * rewrite length_substring_0; simpl; lia.
  - destruct rest as [|c' rest'].
    + left. simpl in Habs. apply Ascii.eqb_eq in Habs. by subst c.
    + right. split; [done|]. simpl. lia.
Qed.

Lemma checkWriteAccess_settles cwd access n : ∀ p,
  Posix.isAbsolute p = true → (String.length p ≤ n)%nat →
  ∃ res, ∀ fuel, (n < fuel)%nat →
    checkWriteAccess (Posix.module cwd) access fuel p = Some res.
Proof.
  induction n as [|n IH]; intros p Habs Hlen.
  - destruct p; [done | simpl in Hlen; lia].
  - destruct (access p) eqn:Hacc;
      try (eexists; intros [|fuel] Hf; [lia|]; simpl; rewrite Hacc; reflexivity).
    destruct (dirname_absolute p Habs) as [Hroot | [Habs' Hshort]].
    + eexists. intros [|fuel] Hf; [lia|]. simpl. rewrite Hacc, Hroot.
      rewrite String.eqb_refl. reflexivity.
    + destruct (IH (Posix.dirname p) Habs') as [res Hres]; [lia|].
      exists res. intros [|fuel] Hf; [lia|]. simpl. rewrite Hacc.
      destruct (String.eqb_spec (Posix.dirname p) p) as [Heq|_].
      * rewrite Heq in Hshort. lia.
      * apply Hres. lia.
Qed.

(** X27. With [path.posix], [validateDownloadPath] always settles: the
    walk of [checkWriteAccess] towards the root makes at most one
    [fs.access] probe per character of the resolved path, whatever the file
    system answers, and the result does not depend on how many further
    turns are allowed. *)
Theorem X27_validateDownloadPath_settles_on_posix :
  ∀ cwd platform SYSTEMDRIVE access input,
    ∃ r, ∀ fuel,
      (String.length (Posix.resolve cwd (trim input)) < fuel)%nat →
      validateDownloadPath (Posix.module cwd) platform SYSTEMDRIVE access fuel input
      = Some r.
Proof.
  intros cwd platform env access input. unfold validateDownloadPath.
  destruct (normalizePathForValidation (Posix.module cwd) input) as [resolved|] eqn:Hnorm;
    [|by eexists].
  assert (resolved = Posix.resolve cwd (trim input)) as ->.
  { unfold normalizePathForValidation in Hnorm.
    destruct (String.eqb input ""); [done|].
    destruct (String.length (trim input) =? 0)%nat; [done|].
    simpl in Hnorm. destruct (includes ".." _); [done|]. by injection Hnorm as <-. }
  destruct (isSystemRoot platform _); [by eexists|].
  destruct (isPathUnder _ platform _ (getCriticalSystemPaths _ platform env));
    [by eexists|].
  destruct (checkWriteAccess_settles cwd access
              (String.length (Posix.resolve cwd (trim input)))
              (Posix.resolve cwd (trim input))) as [[writable err] Hres]; [done | lia |].
  destruct writable; eexists; intros fuel Hfuel; rewrite (Hres fuel Hfuel);
    reflexivity.
Qed.

Example checkWriteAccess_walks_up :
  checkWriteAccess (Posix.module "/home/ana")
    (λ p, if String.eqb p "/home" then EACCES else ENOENT) 5 "/home/ana/roms/snes"
  = Some (false, Some "El directorio es de solo lectura o no tienes permisos").
Proof. reflexivity. Qed.

Lemma X27_witness :
  ∃ r, validateDownloadPath (Posix.module "/home/ana") Linux None (λ _, ENOENT) 20
         "roms/snes" = Some r.
Proof.
  destruct (X27_validateDownloadPath_settles_on_posix "/home/ana" Linux None
              (λ _, ENOENT) "roms/snes") as [r Hr].
  exists r. apply Hr. vm_compute. lia.
Defined.

(** *** Windows drive roots *)

Fixpoint allSlashes (s : string) : bool :=
  match s with
  | EmptyString => true
  | String c rest => isSlash c && allSlashes rest
  end.

Lemma dropSuffix_all p s :
  (∀ c, List.In c (list_ascii_of_string s) → p c = true) → dropSuffix p s = "".
Proof.
  induction s as [|c s IH]; intros Hall; [done|]. simpl.
  rewrite IH by (intros c' Hin; apply Hall; by right).
  rewrite Hall; [done | by left].
Qed.

Lemma allSlashes_In s c :
  allSlashes s = true → List.In c (list_ascii_of_string s) → isSlash c = true.
Proof.
  induction s as [|c' s IH]; simpl; [done|].
  intros [Hc Hs]%andb_true_iff [<-|Hin]; [done | by apply IH].
Qed.

(** X28. On Windows the root of every drive counts as the system root, not
    only the drive of [SYSTEMDRIVE]: a path that resolves to a letter, a
    colon and any run of slashes or backslashes ([D:\], [e:/]) is rejected
    by [validateDownloadPathSync] with [blockReason = 'critical'], whatever
    the [path] module and the environment. *)
Theorem X28_every_windows_drive_root_is_blocked :
  ∀ P SYSTEMDRIVE input letter slashes,
    isLetter letter = true → allSlashes slashes = true →
    normalizePathForValidation P input = Some (String letter (String ":" slashes)) →
    validateDownloadPathSync P Win32 SYSTEMDRIVE input
    = systemRootResult (String letter (String ":" slashes)).
Proof.
  intros P env input c sl Hc Hsl Hnorm. unfold validateDownloadPathSync.
  rewrite Hnorm.
  assert (isSystemRoot Win32 (String c (String ":" sl)) = true) as ->; [|done].
  unfold isSystemRoot, stripTrailingSlashes. simpl isWin32. cbv iota.
  assert (dropSuffix isSlash (String c (String ":" sl)) = String c ":") as ->.
  { cbn [dropSuffix]. rewrite (dropSuffix_all isSlash sl)
      by (intros c' Hin; by eapply allSlashes_In).
    change (isSlash ":") with false. cbv iota. reflexivity. }
  simpl. by rewrite Hc.
Qed.

(** A fragment of [path.win32]: an input that is already a drive root
    resolves to itself. It serves to run the validator on an example. *)
Definition driveRootsOnly : PathModule :=
  {| resolve := λ p, p; join := λ a b, a ++ "\" ++ b; dirname := λ p, p; sep := "\" |}.

Lemma X28_witness :
  validateDownloadPathSync driveRootsOnly Win32 (Some "C:") "D:\"
  = systemRootResult "D:\".
Proof.
  apply (X28_every_windows_drive_root_is_blocked driveRootsOnly (Some "C:") "D:\"
           "D" "\"); reflexivity.
Defined.

End DownloadPathFacts.

(** ** The rate-limit gate of the ['search-db'] handler *)

Module CatalogHandlers.
Import RateLimiter RateLimiterFacts.

(** [config.rateLimiting?.search]; an absent [rateLimiting] and an absent
    [search] both read as [undefined] through [?.], so one [option] stands
    for the two. *)
Record SearchLimits := {
  search_maxRequests : option Z;
  search_windowMs : option Z;
  search_cleanupIntervalMs : option Z
}.

(** [new RateLimiter(search?.maxRequests ?? 10, search?.windowMs ?? 1000)],
    run when the module loads; [None] when the constructor throws. *)
Definition searchRateLimiter (search : option SearchLimits) : option t :=
  constructor (default 10 (search ≫= search_maxRequests))
              (default 1000 (search ≫= search_windowMs)).

Record RateLimitedResponse := {
  success : bool;
  rateLimited : bool;
  retryAfter : Z
}.

(** The head of the handler. [senderId] is [event.sender.id]; [now1] is the
    clock read by [isAllowed] and [now2] the one read by [getStatus].
    [Some] is the response returned early, [None] lets the search go on. *)
Definition searchGate (search : option SearchLimits) (now1 now2 : Z) (senderId : Z)
    (rl : t) : option RateLimitedResponse * t :=
  let identifier := pretty senderId in
  let '(allowed, rl') := isAllowed now1 identifier rl in
  if negb allowed then
    let status := getStatus now2 identifier rl' in
    (Some {| success := false;
             rateLimited := true;
             retryAfter :=
               match status with
               | Some st => resetInMs st
               | None => default 1000 (search ≫= search_windowMs)
               end |},
     rl')
  else (None, rl').

Lemma getStatus_resetInMs now identifier rl st :
  getStatus now identifier rl = Some st →
  0 < resetInMs st
  ∧ (Forall (λ ts, ts ≤ now) (stored rl identifier) → resetInMs st ≤ windowMs rl).
Proof.
  unfold getStatus. destruct (String.eqb identifier ""); [done|].
  destruct (recentRequests now identifier rl) as [|first others] eqn:Hrecent; [done|].
  intros [= <-]. simpl.
  pose proof (minimum_elem first others) as Hin. rewrite <- Hrecent in Hin.
  unfold recentRequests in Hin. apply list_elem_of_filter in Hin as [Hlt Hin].
  split; [lia|]. intros Hpast. rewrite Forall_forall in Hpast.
  specialize (Hpast _ Hin). simpl in Hpast. lia.
Qed.

(** X30. The search handler answers [rateLimited] exactly when [isAllowed]
    refuses the sender, and the refusal leaves the limiter as it was. On a
    limiter built at module load from the configuration, the [retryAfter]
    of that answer is always strictly positive, also when the window has
    run out between the two clock readings and [getStatus] returns [null];
    when no stored timestamp lies after the second reading it is at most
    the window. A granted call returns no early answer and hands on the
    limiter [isAllowed] produced. *)
Theorem X30_search_gate_retryAfter_is_positive :
  ∀ search rl0 rl now1 now2 senderId,
    searchRateLimiter search = Some rl0 →
    maxRequests rl = maxRequests rl0 → windowMs rl = windowMs rl0 →
    match searchGate search now1 now2 senderId rl with
    | (Some response, rl') =>
        isAllowed now1 (pretty senderId) rl = (false, rl)
        ∧ rl' = rl
        ∧ success response = false ∧ rateLimited response = true
        ∧ 0 < retryAfter response
        ∧ (Forall (λ ts, ts ≤ now2) (stored rl (pretty senderId)) →
           retryAfter response ≤ windowMs rl)
    | (None, rl') => isAllowed now1 (pretty senderId) rl = (true, rl')
    end.
Proof.
  intros search rl0 rl now1 now2 senderId Hctor Hmax Hw.
  assert (windowMs rl = default 1000 (search ≫= search_windowMs) ∧ 0 < windowMs rl)
    as [Hcfg Hpos].
  { unfold searchRateLimiter, constructor in Hctor.
    destruct (Z.leb_spec (default 10 (search ≫= search_maxRequests)) 0); [done|].
    destruct (Z.leb_spec (default 1000 (search ≫= search_windowMs)) 0); [done|].
    simpl in Hctor. injection Hctor as <-. simpl in Hw. split; lia. }
  unfold searchGate.
  assert (fst (isAllowed now1 (pretty senderId) rl) = false →
          snd (isAllowed now1 (pretty senderId) rl) = rl) as Hsame.
  { unfold isAllowed. destruct (String.eqb _ ""); [done|].
    by destruct (maxRequests rl <=? _). }
  destruct (isAllowed now1 (pretty senderId) rl) as [[|] rl'] eqn:Hallowed; simpl.
  - done.
  - specialize (Hsame eq_refl). simpl in Hsame. subst rl'.
    split; [done|]. split; [done|]. split; [done|]. split; [done|].
    destruct (getStatus now2 (pretty senderId) rl) as [st|] eqn:Hst.
    + destruct (getStatus_resetInMs _ _ _ _ Hst) as [H0 Hle]. split; done.
    + rewrite <- Hcfg. split; [done | intros _; lia].
Qed.

Lemma X30_witness :
  match searchGate None 5000 5001 42 (Build 10 1000 {[ "42" := [4100; 4200; 4300; 4400; 4500; 4600; 4700; 4800; 4900; 4950] ]}) with
  | (Some response, rl') =>
      isAllowed 5000 (pretty 42)
        (Build 10 1000 {[ "42" := [4100; 4200; 4300; 4400; 4500; 4600; 4700; 4800; 4900; 4950] ]})
      = (false, Build 10 1000 {[ "42" := [4100; 4200; 4300; 4400; 4500; 4600; 4700; 4800; 4900; 4950] ]})
      ∧ rl' = Build 10 1000 {[ "42" := [4100; 4200; 4300; 4400; 4500; 4600; 4700; 4800; 4900; 4950] ]}
      ∧ success response = false ∧ rateLimited response = true
      ∧ 0 < retryAfter response
      ∧ (Forall (λ ts, ts ≤ 5001)
           (stored (Build 10 1000 {[ "42" := [4100; 4200; 4300; 4400; 4500; 4600; 4700; 4800; 4900; 4950] ]})
                   (pretty 42)) →
         retryAfter response ≤ 1000)
  | (None, rl') =>
      isAllowed 5000 (pretty 42)
        (Build 10 1000 {[ "42" := [4100; 4200; 4300; 4400; 4500; 4600; 4700; 4800; 4900; 4950] ]})
      = (true, rl')
  end.
Proof.
  apply (X30_search_gate_retryAfter_is_positive None (Build 10 1000 ∅)
           (Build 10 1000 {[ "42" := [4100; 4200; 4300; 4400; 4500; 4600; 4700; 4800; 4900; 4950] ]})
           5000 5001 42).
  - reflexivity.
  - reflexivity.
  - reflexivity.
Defined.

(** The refusal of the example, evaluated: the oldest request in the window
    is the one of 4100, so the sender may retry in 99 ms. *)
Example searchGate_example :
  fst (searchGate None 5000 5001 42
         (Build 10 1000 {[ "42" := [4100; 4200; 4300; 4400; 4500; 4600; 4700; 4800; 4900; 4950] ]}))
  = Some {| success := false; rateLimited := true; retryAfter := 99 |}.
Proof. vm_compute. reflexivity. Qed.

End CatalogHandlers.
